(** * Megaton runtime: region mirrors, process handle, SoC detection, panic text

    A shallow embedding of the C++ sources of the megaton runtime
    (the exlaunch fork under [runtime/src/exlaunch] and [runtime/src/cimpl]):

    - the alignment macros [ALIGN_UP], [ALIGN_DOWN] and [PAGE_SIZE];
    - the build-time checks of [exl::setting];
    - [exl::util::impl::InitSocType];
    - [exl::util::proc_handle::Get] with its two acquisition paths;
    - [ForEachMemRange], the [RwPages] constructor, [Flush] and destructor;
    - [megaton_format_panic_message].

    Machine integers are [Z] with the wrap-around written out.  Code that
    talks to the kernel is a state transformer over a [world] that holds the
    two globals of the code ([s_Handle], [s_SocType]) and the trace of the
    calls made so far; what the kernel answers is a parameter (a [kernel]
    record of functions of the world).  [megaton_panic] does not return: a
    computation ends in [Ret], in [Panic], or runs out of [fuel] in the one
    loop.  The definitions come first, the proofs after them. *)

From Stdlib Require Import ZArith List String Ascii Bool Lia.
From Stdlib Require Import DecimalString.
Import ListNotations.

Local Open Scope Z_scope.

(** ** Machine words *)

Module Word.

Definition wrap (bits : Z) (x : Z) : Z := x mod 2 ^ bits.

(** [uintptr_t], [size_t], [u64] *)
Definition wrap64 (x : Z) : Z := wrap 64 x.

(** [u32], [Handle] *)
Definition wrap32 (x : Z) : Z := wrap 32 x.

(** [~x] on a 64-bit word *)
Definition not64 (x : Z) : Z := wrap64 (Z.lnot x).

Definition in_u64 (x : Z) : Prop := 0 <= x < 2 ^ 64.

End Word.

Import Word.

(** ** The alignment macros (types header) *)

(** [#define PAGE_SIZE (0x1000)] *)
Definition PAGE_SIZE : Z := 0x1000.

(** [#define ALIGN_UP(x, a) ((((uintptr_t)x) + (((uintptr_t)a)-1)) & ~(((uintptr_t)a)-1))] *)
Definition ALIGN_UP (x a : Z) : Z :=
  Z.land (wrap64 (wrap64 x + wrap64 (wrap64 a - 1)))
         (not64 (wrap64 (wrap64 a - 1))).

(** [#define ALIGN_DOWN(x, a) ((uintptr_t)(x) & ~(((uintptr_t)(a)) - 1))] *)
Definition ALIGN_DOWN (x a : Z) : Z :=
  Z.land (wrap64 x) (not64 (wrap64 (wrap64 a - 1))).

(** ** [exl::setting]: the build-time checks of usersetting.hpp *)

Module setting.

(** The two [static_assert] conditions, as written:
    [ALIGN_UP(JitSize, PAGE_SIZE) == JitSize] and
    [ALIGN_UP(InlinePoolSize, PAGE_SIZE) == JitSize]. *)
Definition static_assert_JitSize (JitSize : Z) : bool :=
  ALIGN_UP JitSize PAGE_SIZE =? JitSize.

Definition static_assert_InlinePoolSize (JitSize InlinePoolSize : Z) : bool :=
  ALIGN_UP InlinePoolSize PAGE_SIZE =? JitSize.

(** The header compiles when both assertions hold. *)
Definition sanity_checks (JitSize InlinePoolSize : Z) : bool :=
  static_assert_JitSize JitSize &&
  static_assert_InlinePoolSize JitSize InlinePoolSize.

(** The defaults of the header: [EXL_JIT_SIZE], [EXL_INLINE_POOL_SIZE]. *)
Definition EXL_JIT_SIZE : Z := 0x1000.
Definition EXL_INLINE_POOL_SIZE : Z := 0x1000.

End setting.

(** ** The world the runtime acts on *)

(** [MemoryInfo] of the kernel ABI; only [addr] and [size] are read here. *)
Record MemoryInfo : Type := mkMemoryInfo { addr : Z; size : Z }.

(** [Result]: zero is success. *)
Definition R_FAILED (rc : Z) : bool := negb (rc =? 0).
Definition R_SUCCEEDED (rc : Z) : bool := rc =? 0.

(** Constants of the platform headers (libnx). *)
Definition INVALID_HANDLE : Z := 0.
Definition CUR_PROCESS_HANDLE : Z := 0xFFFF8001.
Definition UINT64_MAX : Z := 2 ^ 64 - 1.
Definition InfoType_MesosphereCurrentProcess : Z := 65001.

(** Every call that leaves the process, with its arguments and its answer.
    [callback_ev] is not a kernel call: it is what the probe callback
    [record_call] leaves behind, to observe [ForEachMemRange] on its own. *)
Inductive event : Type :=
| virtmemFindAslr_ev (sz guard res : Z)
| virtmemAddReservation_ev (mem sz res : Z)
| virtmemRemoveReservation_ev (rv : Z)
| svcQueryMemory_ev (query : Z) (rc : Z) (info : MemoryInfo)
| svcMapProcessMemory_ev (dst proc src sz rc : Z)
| svcUnmapProcessMemory_ev (dst proc src sz rc : Z)
| armDCacheFlush_ev (address sz : Z)
| armICacheInvalidate_ev (address sz : Z)
| svcGetInfo_ev (id0 h id1 rc out : Z)
| svcCreateSession_ev (rc server client : Z)
| svcCreateThread_ev (arg prio cpuid rc thread : Z)
| svcStartThread_ev (thread rc : Z)
| svcReplyAndReceive_ev (session rc : Z) (message : list Z)
| svcSendSyncRequest_ev (session : Z) (message : list Z) (rc : Z)
| svcWaitSynchronizationSingle_ev (h timeout rc : Z)
| svcCloseHandle_ev (h : Z)
| svcExitThread_ev
| smcGetConfig_ev (item rc out : Z)
| callback_ev (address len offset : Z).

(** [exl::util::SocType] *)
Inductive SocType : Type := Erista | Mariko.

(** The globals of the runtime and the calls made so far.
    [s_Handle] starts as [INVALID_HANDLE]; [s_SocType] is zero-initialised,
    which is [Erista], the first enumerator. *)
Record world : Type := mkWorld {
  s_Handle : Z;
  s_SocType : SocType;
  trace : list event
}.

Definition initial_world : world :=
  {| s_Handle := INVALID_HANDLE; s_SocType := Erista; trace := [] |}.

Definition emit (e : event) (w : world) : world :=
  {| s_Handle := s_Handle w; s_SocType := s_SocType w; trace := trace w ++ [e] |}.

Definition set_s_Handle (h : Z) (w : world) : world :=
  {| s_Handle := h; s_SocType := s_SocType w; trace := trace w |}.

Definition set_s_SocType (t : SocType) (w : world) : world :=
  {| s_Handle := s_Handle w; s_SocType := t; trace := trace w |}.

(** What the platform answers.  Each field sees the world at the time of the
    call (so an answer may depend on every earlier call) and the arguments.
    [k_load] is the byte read by the process at a virtual address. *)
Record kernel : Type := mkKernel {
  k_virtmemFindAslr : world -> Z -> Z -> Z;
  k_virtmemAddReservation : world -> Z -> Z -> Z;
  k_svcQueryMemory : world -> Z -> Z * MemoryInfo;
  k_svcMapProcessMemory : world -> Z -> Z -> Z -> Z -> Z;
  k_svcUnmapProcessMemory : world -> Z -> Z -> Z -> Z -> Z;
  k_load : world -> Z -> Z;
  k_svcGetInfo : world -> Z -> Z -> Z -> Z * Z;
  k_svcCreateSession : world -> Z * (Z * Z);
  k_svcCreateThread : world -> Z -> Z -> Z -> Z * Z;
  k_svcStartThread : world -> Z -> Z;
  k_svcReplyAndReceive : world -> Z -> Z * list Z;
  k_svcSendSyncRequest : world -> Z -> list Z -> Z;
  k_svcWaitSynchronizationSingle : world -> Z -> Z -> Z;
  k_smcGetConfig : world -> Z -> Z * Z
}.

(** ** Computations: return, panic, or run out of fuel *)

Inductive outcome (A : Type) : Type :=
| Ret (a : A) (w : world)
| Panic (msg : string) (w : world)
| OutOfFuel (w : world).

Arguments Ret {A} a w.
Arguments Panic {A} msg w.
Arguments OutOfFuel {A} w.

Definition M (A : Type) : Type := world -> outcome A.

Definition ret {A : Type} (a : A) : M A := fun w => Ret a w.

Definition bind {A B : Type} (m : M A) (k : A -> M B) : M B :=
  fun w =>
    match m w with
    | Ret a w' => k a w'
    | Panic msg w' => Panic msg w'
    | OutOfFuel w' => OutOfFuel w'
    end.

Declare Scope monad_scope.
Delimit Scope monad_scope with monad.
Notation "x <- c ;; k" := (bind c (fun x => k))
  (at level 61, c at next level, right associativity) : monad_scope.
Notation "c ;; k" := (bind c (fun _ => k))
  (at level 61, right associativity) : monad_scope.
Local Open Scope monad_scope.

(** [panic_(msg)]: [megaton_panic] never returns. *)
Definition panic_ {A : Type} (msg : string) : M A := fun w => Panic msg w.

(** [assert_(expr)] *)
Definition assert_ (holds : bool) (expr : string) : M unit :=
  if holds then ret tt else panic_ ("Assertion failed: " ++ expr)%string.

(** [unreachable_()] *)
Definition unreachable_ {A : Type} : M A := panic_ "unreachable".

(** A call to the platform: look the answer up, leave the event behind. *)
Definition call {A : Type} (answer : world -> A) (ev : A -> event) : M A :=
  fun w => let a := answer w in Ret a (emit (ev a) w).

Definition get_s_Handle : M Z := fun w => Ret (s_Handle w) w.
Definition put_s_Handle (h : Z) : M unit := fun w => Ret tt (set_s_Handle h w).
Definition put_s_SocType (t : SocType) : M unit := fun w => Ret tt (set_s_SocType t w).

(** ** [exl::util::impl::InitSocType] (soc.hpp) *)

Section Soc.

Variable K : kernel.

(** The enumerators of libnx's [SplHardwareType] and the config item are
    not part of this repository: they are parameters.  [hwtype] is a 4-byte
    enum that [smcGetConfig] fills through a [u64*]: of the 64-bit answer the
    [switch] sees the low 32 bits.  The upper half is stored past the
    object; what it overwrites there is not modelled. *)
Variables SplHardwareType_Icosa SplHardwareType_Copper
          SplHardwareType_Hoag SplHardwareType_Iowa
          SplHardwareType_Calcio SplHardwareType_Aula : Z.
Variable SplConfigItem_HardwareType : Z.

Definition known_hardware_types : list Z :=
  [SplHardwareType_Icosa; SplHardwareType_Copper; SplHardwareType_Hoag;
   SplHardwareType_Iowa; SplHardwareType_Calcio; SplHardwareType_Aula].

Definition InitSocType : M unit :=
  r <- call (fun w => k_smcGetConfig K w SplConfigItem_HardwareType)
            (fun a => smcGetConfig_ev SplConfigItem_HardwareType (fst a) (snd a)) ;;
  assert_ (R_SUCCEEDED (fst r))
    "R_SUCCEEDED(smcGetConfig(SplConfigItem_HardwareType, reinterpret_cast<u64*>(&hwtype)))" ;;
  let hwtype := wrap32 (snd r) in
  if (hwtype =? SplHardwareType_Icosa) || (hwtype =? SplHardwareType_Copper)
  then put_s_SocType Erista
  else if (hwtype =? SplHardwareType_Hoag) || (hwtype =? SplHardwareType_Iowa)
          || (hwtype =? SplHardwareType_Calcio) || (hwtype =? SplHardwareType_Aula)
  then put_s_SocType Mariko
  else unreachable_.

End Soc.

Definition IsSocErista (w : world) : bool :=
  match s_SocType w with Erista => true | Mariko => false end.

Definition IsSocMariko (w : world) : bool :=
  match s_SocType w with Mariko => true | Erista => false end.

(** ** [exl::util::proc_handle] (cur_proc_handle.cpp) *)

Module proc_handle.

Section WithKernel.

Variable K : kernel.

(** The body of the worker thread: it receives the one request, and the
    word at index 3 of its thread-local buffer is then the handle the kernel
    put into the message.  The event keeps the message as received. *)
Definition ReceiveProcessHandleThreadMain (session_handle : Z) : M unit :=
  r <- call (fun w => k_svcReplyAndReceive K w session_handle)
            (fun a => svcReplyAndReceive_ev session_handle (fst a) (snd a)) ;;
  (if R_FAILED (fst r) then panic_ "svcReplyAndReceive failed." else ret tt) ;;
  put_s_Handle (wrap32 (nth 3 (snd r) 0)) ;;
  call (fun _ => tt) (fun _ => svcCloseHandle_ev session_handle) ;;
  call (fun _ => tt) (fun _ => svcExitThread_ev).

(** [static const u32 SendProcessHandleMessage[4]] *)
Definition SendProcessHandleMessage : list Z :=
  [0x00000000; 0x80000000; 0x00000002; CUR_PROCESS_HANDLE].

(** Two threads.  The requester sends and blocks; the worker receives the
    request, stores the handle and closes the session, which ends the send,
    whose result is not read.  From there on the code orders the worker's
    exit only before the end of the requester's wait, not against the
    requester closing its handle.  The body of the worker is run here where
    the send blocks, which is one of these schedules, and the trace has the
    send where it is issued; what is stated of the calls of the fallback is
    stated thread by thread, each in the order of its own code. *)
Definition GetViaIpcTrick : M unit :=
  s <- call (fun w => k_svcCreateSession K w)
            (fun a => svcCreateSession_ev (fst a) (fst (snd a)) (snd (snd a))) ;;
  (if R_FAILED (fst s) then panic_ "svcCreateSession failed." else ret tt) ;;
  let server_handle := fst (snd s) in
  let client_handle := snd (snd s) in
  t <- call (fun w => k_svcCreateThread K w server_handle 0x20 2)
            (fun a => svcCreateThread_ev server_handle 0x20 2 (fst a) (snd a)) ;;
  (if R_FAILED (fst t) then panic_ "svcCreateThread failed." else ret tt) ;;
  let thread_handle := snd t in
  rc <- call (fun w => k_svcStartThread K w thread_handle)
             (fun a => svcStartThread_ev thread_handle a) ;;
  (if R_FAILED rc then panic_ "svcStartThread failed." else ret tt) ;;
  call (fun w => k_svcSendSyncRequest K w client_handle SendProcessHandleMessage)
       (fun a => svcSendSyncRequest_ev client_handle SendProcessHandleMessage a) ;;
  ReceiveProcessHandleThreadMain server_handle ;;
  call (fun _ => tt) (fun _ => svcCloseHandle_ev client_handle) ;;
  rc <- call (fun w => k_svcWaitSynchronizationSingle K w thread_handle UINT64_MAX)
             (fun a => svcWaitSynchronizationSingle_ev thread_handle UINT64_MAX a) ;;
  (if R_FAILED rc then panic_ "svcWaitSynchronizationSingle failed." else ret tt) ;;
  call (fun _ => tt) (fun _ => svcCloseHandle_ev thread_handle) ;;
  ret tt.

(** Modelled from the spec: [R_TRY] and [result::Success] are declared in
    headers that are not among the sources.  The spec has the fast path
    cache the handle when the query succeeds and leave a failure to the
    caller, which then takes the fallback: [R_TRY] returns the failing code. *)
Definition GetViaMesosphere : M Z :=
  r <- call (fun w => k_svcGetInfo K w InfoType_MesosphereCurrentProcess INVALID_HANDLE 0)
            (fun a => svcGetInfo_ev InfoType_MesosphereCurrentProcess INVALID_HANDLE 0
                                    (fst a) (snd a)) ;;
  if R_FAILED (fst r) then ret (fst r)
  else put_s_Handle (wrap32 (snd r)) ;; ret 0.

Definition Get : M Z :=
  h <- get_s_Handle ;;
  (if h =? INVALID_HANDLE
   then r <- GetViaMesosphere ;;
        if R_FAILED r then GetViaIpcTrick else ret tt
   else ret tt) ;;
  get_s_Handle.

End WithKernel.

End proc_handle.

(** ** [RwPages] (rw_pages.cpp) *)

(** Modelled from the spec: the [Claim] record and its getters are declared
    in rw_pages.hpp, which is not among the sources.  The spec's data model
    gives [aligned_ro] and [aligned_rw] as the page-aligned bases and
    [aligned_size] as the page-aligned span covering the requested range;
    they are written with the macros above. *)
Record Claim : Type := mkClaim {
  m_Ro : Z;
  m_Rw : Z;
  m_RwReserve : Z;
  m_Size : Z
}.

Definition GetAlignedRo (c : Claim) : Z := ALIGN_DOWN (m_Ro c) PAGE_SIZE.
Definition GetAlignedRw (c : Claim) : Z := ALIGN_DOWN (m_Rw c) PAGE_SIZE.
Definition GetAlignedSize (c : Claim) : Z :=
  ALIGN_UP (wrap64 (m_Size c + wrap64 (m_Ro c - GetAlignedRo c))) PAGE_SIZE.

(** Modelled from the spec: [is_owner] is true only for the instance that
    performed the mapping (the class is declared in rw_pages.hpp). *)
Record RwPages : Type := mkRwPages {
  m_Claim : Claim;
  m_Owner : bool
}.

(** One invocation of the callback: [(address, length, offset)]. *)
Definition invocation : Type := (Z * Z * Z)%type.

Section WithKernel.

Variable K : kernel.

Definition svcQueryMemory (query : Z) : M (Z * MemoryInfo) :=
  call (fun w => k_svcQueryMemory K w query)
       (fun a => svcQueryMemory_ev query (fst a) (snd a)).

(** The [do ... while] of [ForEachMemRange]; [meminfo] is the block of the
    previous round.  [fuel] bounds the number of rounds. *)
Fixpoint ForEachMemRange_loop (fuel : nat) (callback : Z -> Z -> Z -> M unit)
    (start_address end_ : Z) (meminfo : MemoryInfo) : M unit :=
  match fuel with
  | O => fun w => OutOfFuel w
  | S fuel' =>
      r <- svcQueryMemory (wrap64 (addr meminfo + size meminfo)) ;;
      (if R_FAILED (fst r) then panic_ "svcQueryMemory failed." else ret tt) ;;
      let meminfo := snd r in
      let offset := wrap64 (Z.max (addr meminfo) start_address - start_address) in
      let current_address := wrap64 (start_address + offset) in
      let current_length :=
        wrap64 (Z.min end_ (wrap64 (addr meminfo + size meminfo)) - current_address) in
      callback current_address current_length offset ;;
      if wrap64 (addr meminfo + size meminfo) <? end_
      then ForEachMemRange_loop fuel' callback start_address end_ meminfo
      else ret tt
  end.

Definition ForEachMemRange (fuel : nat) (callback : Z -> Z -> Z -> M unit)
    (start_address length : Z) : M unit :=
  let end_ := wrap64 (start_address + length) in
  ForEachMemRange_loop fuel callback start_address end_
    {| addr := start_address; size := 0 |}.

(** A callback that only records its arguments. *)
Definition record_call (address len offset : Z) : M unit :=
  call (fun _ => tt) (fun _ => callback_ev address len offset).

(** The lambda of the constructor. *)
Definition map_block (alignedRw procHandle : Z) (address sz offset : Z) : M unit :=
  let rw := wrap64 (alignedRw + offset) in
  let ro := address in
  rc <- call (fun w => k_svcMapProcessMemory K w rw procHandle ro sz)
             (fun a => svcMapProcessMemory_ev rw procHandle ro sz a) ;;
  if R_FAILED rc then panic_ "svcMapProcessMemory failed." else ret tt.

(** The lambda of the destructor. *)
Definition unmap_block (claim : Claim) (procHandle : Z) (address sz offset : Z) : M unit :=
  let rw := wrap64 (GetAlignedRw claim + offset) in
  let ro := address in
  rc <- call (fun w => k_svcUnmapProcessMemory K w rw procHandle ro sz)
             (fun a => svcUnmapProcessMemory_ev rw procHandle ro sz a) ;;
  if R_FAILED rc then panic_ "svcUnmapProcessMemory failed." else ret tt.

(** [memcmp(p, q, n)]: zero when the [n] bytes agree, else the difference of
    the first pair that differs. *)
Fixpoint memcmp_from (w : world) (p q : Z) (n : nat) : Z :=
  match n with
  | O => 0
  | S n' =>
      if k_load K w p =? k_load K w q
      then memcmp_from w (p + 1) (q + 1) n'
      else k_load K w p - k_load K w q
  end.

Definition memcmp (p q n : Z) : M Z :=
  fun w => Ret (memcmp_from w p q (Z.to_nat n)) w.

(** [RwPages::RwPages(uintptr_t ro, size_t size)] *)
Definition RwPages_ctor (fuel : nat) (ro sz : Z) : M RwPages :=
  let claim := {| m_Ro := ro; m_Rw := 0; m_RwReserve := 0; m_Size := sz |} in
  alignedRw <- call (fun w => k_virtmemFindAslr K w (GetAlignedSize claim) 0)
                    (fun a => virtmemFindAslr_ev (GetAlignedSize claim) 0 a) ;;
  assert_ (negb (alignedRw =? 0)) "alignedRw != 0" ;;
  reserve <- call (fun w => k_virtmemAddReservation K w alignedRw (GetAlignedSize claim))
                  (fun a => virtmemAddReservation_ev alignedRw (GetAlignedSize claim) a) ;;
  assert_ (negb (reserve =? 0)) "reserve != NULL" ;;
  let claim := {| m_Ro := ro; m_Rw := 0; m_RwReserve := reserve; m_Size := sz |} in
  procHandle <- proc_handle.Get K ;;
  ForEachMemRange fuel (map_block alignedRw procHandle)
    (GetAlignedRo claim) (GetAlignedSize claim) ;;
  let claim := {| m_Ro := ro;
                  m_Rw := wrap64 (alignedRw + wrap64 (ro - GetAlignedRo claim));
                  m_RwReserve := reserve; m_Size := sz |} in
  c <- memcmp (m_Ro claim) (m_Rw claim) sz ;;
  assert_ (c =? 0) "memcmp((void*)claim.m_Ro, (void*)claim.m_Rw, size) == 0" ;;
  ret {| m_Claim := claim; m_Owner := true |}.

(** [RwPages::Flush()] *)
Definition RwPages_Flush (this : RwPages) : M unit :=
  let claim := m_Claim this in
  call (fun _ => tt) (fun _ => armDCacheFlush_ev (GetAlignedRw claim) (GetAlignedSize claim)) ;;
  call (fun _ => tt) (fun _ => armICacheInvalidate_ev (GetAlignedRw claim) (GetAlignedSize claim)).

(** [RwPages::~RwPages()] *)
Definition RwPages_dtor (fuel : nat) (this : RwPages) : M unit :=
  if negb (m_Owner this) then ret tt
  else
    let claim := m_Claim this in
    call (fun _ => tt) (fun _ => armDCacheFlush_ev (m_Rw claim) (m_Size claim)) ;;
    call (fun _ => tt) (fun _ => armICacheInvalidate_ev (m_Ro claim) (m_Size claim)) ;;
    procHandle <- proc_handle.Get K ;;
    ForEachMemRange fuel (unmap_block claim procHandle)
      (GetAlignedRo claim) (GetAlignedSize claim) ;;
    call (fun _ => tt) (fun _ => virtmemRemoveReservation_ev (m_RwReserve claim)).

End WithKernel.

(** ** [megaton_format_panic_message] (cimpl/assert.cpp) *)

Module assert_cpp.

Local Open Scope string_scope.

(** [static char PANIC_FMT_BUFFER[1024]] *)
Definition PANIC_FMT_BUFFER_size : nat := 1024.

Definition NUL : ascii := Ascii.zero.
Definition LF : ascii := ascii_of_nat 10.

(** What [%s] prints: the characters before the terminator. *)
Fixpoint c_str (s : string) : string :=
  match s with
  | EmptyString => EmptyString
  | String c s' => if Ascii.eqb c NUL then EmptyString else String c (c_str s')
  end.

(** What [%d] prints for the [u32] line: the 32 bits read as an [int]. *)
Definition as_int (line : Z) : Z :=
  let l := wrap32 line in if (l <? 2 ^ 31)%Z then l else (l - 2 ^ 32)%Z.

Definition format_d (z : Z) : string := NilZero.string_of_int (Z.to_int z).

(** The expansion of ["Panic at %s:%d:\n  %s"]. *)
Definition panic_text (file : string) (line : Z) (msg : string) : string :=
  "Panic at " ++ c_str file ++ ":" ++ format_d (as_int line) ++ ":"
  ++ String LF ("  " ++ c_str msg).

(** [snprintf(buf, n, ...)]: at most [n - 1] characters of the text, then the
    terminator; the rest of the buffer keeps what it held. *)
Definition snprintf (buf : list ascii) (n : nat) (text : string) : list ascii :=
  match n with
  | O => buf
  | S m =>
      let out := firstn m (list_ascii_of_string text) in
      out ++ NUL :: skipn (S (List.length out)) buf
  end.

(** [buf[i] = c] *)
Definition store (buf : list ascii) (i : nat) (c : ascii) : list ascii :=
  firstn i buf ++ c :: skipn (S i) buf.

(** The buffer after the call; the returned pointer designates it. *)
Definition megaton_format_panic_message
    (PANIC_FMT_BUFFER : list ascii) (file : string) (line : Z) (msg : string)
    : list ascii :=
  let buf := snprintf PANIC_FMT_BUFFER PANIC_FMT_BUFFER_size (panic_text file line msg) in
  store buf (PANIC_FMT_BUFFER_size - 1) NUL.

(** The index of the first terminator of a buffer, if it has one. *)
Fixpoint strlen (buf : list ascii) : option nat :=
  match buf with
  | [] => None
  | c :: buf' =>
      if Ascii.eqb c NUL then Some O
      else match strlen buf' with Some n => Some (S n) | None => None end
  end.

(** A text without terminator inside. *)
Definition nul_free (l : list ascii) : Prop := Forall (fun c => c <> NUL) l.

End assert_cpp.

(** ** Backing blocks and what the walk should do with them *)

Definition block_end (b : MemoryInfo) : Z := addr b + size b.

(** Consecutive blocks of the address space: non-empty, inside the 64-bit
    range, each starting where the one before ends. *)
Fixpoint chained (bs : list MemoryInfo) : Prop :=
  match bs with
  | [] => True
  | b :: bs' =>
      0 <= addr b /\ 0 < size b /\ block_end b < 2 ^ 64 /\
      match bs' with [] => True | b' :: _ => addr b' = block_end b end /\
      chained bs'
  end.

Definition contains (b : MemoryInfo) (x : Z) : Prop := addr b <= x < block_end b.

(** The blocks reach from [start_address] to [end_]. *)
Definition covers (bs : list MemoryInfo) (start_address end_ : Z) : Prop :=
  (exists b, In b bs /\ contains b start_address) /\
  (exists b, In b bs /\ end_ <= block_end b).

(** The memory query answers with the block that holds the address. *)
Definition answers (K : kernel) (bs : list MemoryInfo) : Prop :=
  forall w q b, In b bs -> contains b q -> k_svcQueryMemory K w q = (0, b).

(** The block and the range [start_address, end_) have a byte in common. *)
Definition intersects (start_address end_ : Z) (b : MemoryInfo) : bool :=
  Z.max (addr b) start_address <? Z.min (block_end b) end_.

(** The part of the range inside the block, as [(address, length, offset)]. *)
Definition clip (start_address end_ : Z) (b : MemoryInfo) : invocation :=
  let lo := Z.max (addr b) start_address in
  (lo, Z.min (block_end b) end_ - lo, lo - start_address).

(** The blocks from the one holding [start_address] up to the first that
    ends at or after [end_]. *)
Fixpoint upto (end_ : Z) (bs : list MemoryInfo) : list MemoryInfo :=
  match bs with
  | [] => []
  | b :: bs' => b :: (if block_end b <? end_ then upto end_ bs' else [])
  end.

Fixpoint from (start_address : Z) (bs : list MemoryInfo) : list MemoryInfo :=
  match bs with
  | [] => []
  | b :: bs' => if start_address <? block_end b then bs else from start_address bs'
  end.

Definition visited (start_address end_ : Z) (bs : list MemoryInfo) : list MemoryInfo :=
  upto end_ (from start_address bs).

(** The invocations lie end to end from offset [off] on. *)
Fixpoint end_to_end (start_address off : Z) (calls : list invocation) : Prop :=
  match calls with
  | [] => True
  | (a, l, o) :: calls' =>
      o = off /\ a = start_address + off /\ 0 <= l /\
      end_to_end start_address (off + l) calls'
  end.

Definition total_length (calls : list invocation) : Z :=
  fold_right (fun c acc => snd (fst c) + acc) 0 calls.

(** No gap, no overlap, the whole of [start_address, start_address + length). *)
Definition tiles (start_address length : Z) (calls : list invocation) : Prop :=
  end_to_end start_address 0 calls /\ total_length calls = length.

(** Reading a trace. *)
Definition calls_of (tr : list event) : list invocation :=
  flat_map (fun e => match e with callback_ev a l o => [(a, l, o)] | _ => [] end) tr.

Definition queried_of (tr : list event) : list MemoryInfo :=
  flat_map (fun e => match e with svcQueryMemory_ev _ _ b => [b] | _ => [] end) tr.

(** [(dst, src, size)] of the map and unmap operations. *)
Definition maps_of (tr : list event) : list invocation :=
  flat_map (fun e => match e with
                     | svcMapProcessMemory_ev dst _ src sz _ => [(dst, src, sz)]
                     | _ => [] end) tr.

Definition unmaps_of (tr : list event) : list invocation :=
  flat_map (fun e => match e with
                     | svcUnmapProcessMemory_ev dst _ src sz _ => [(dst, src, sz)]
                     | _ => [] end) tr.

(** The calls of the two ways to get the handle. *)
Definition is_handle_call (e : event) : bool :=
  match e with
  | svcGetInfo_ev _ _ _ _ _ | svcCreateSession_ev _ _ _
  | svcCreateThread_ev _ _ _ _ _ | svcStartThread_ev _ _
  | svcReplyAndReceive_ev _ _ _ | svcSendSyncRequest_ev _ _ _
  | svcWaitSynchronizationSingle_ev _ _ _ | svcCloseHandle_ev _
  | svcExitThread_ev => true
  | _ => false
  end.

(** The calls of the walk and of its two callbacks. *)
Definition is_query (e : event) : bool :=
  match e with svcQueryMemory_ev _ _ _ => true | _ => false end.

Definition is_map (e : event) : bool :=
  match e with svcMapProcessMemory_ev _ _ _ _ _ => true | _ => false end.

Definition is_unmap (e : event) : bool :=
  match e with svcUnmapProcessMemory_ev _ _ _ _ _ => true | _ => false end.

(** The calls whose failure the code answers with a panic.  Left out are
    [svcGetInfo], whose failure starts the fallback, and
    [svcSendSyncRequest], whose code is not read. *)
Definition succeeded (e : event) : bool :=
  match e with
  | virtmemFindAslr_ev _ _ res => negb (res =? 0)
  | virtmemAddReservation_ev _ _ res => negb (res =? 0)
  | svcQueryMemory_ev _ rc _ => rc =? 0
  | svcMapProcessMemory_ev _ _ _ _ rc => rc =? 0
  | svcUnmapProcessMemory_ev _ _ _ _ rc => rc =? 0
  | svcCreateSession_ev rc _ _ => rc =? 0
  | svcCreateThread_ev _ _ _ rc _ => rc =? 0
  | svcStartThread_ev _ rc => rc =? 0
  | svcReplyAndReceive_ev _ rc _ => rc =? 0
  | svcWaitSynchronizationSingle_ev _ _ rc => rc =? 0
  | _ => true
  end.

Definition world_of {A : Type} (o : outcome A) : world :=
  match o with Ret _ w => w | Panic _ w => w | OutOfFuel w => w end.

(** The computation ended in [megaton_panic] with this message. *)
Definition panics_with {A : Type} (o : outcome A) (msg : string) : Prop :=
  match o with Panic m _ => m = msg | _ => False end.

(** The world after some more calls. *)
Definition extend (evs : list event) (w : world) : world :=
  {| s_Handle := s_Handle w; s_SocType := s_SocType w; trace := trace w ++ evs |}.

(** One query and one callback for each block of a list, in order: what the
    walk comes to once the blocks are known. *)
Fixpoint visit_blocks (callback : Z -> Z -> Z -> M unit)
    (start_address end_ query : Z) (bs : list MemoryInfo) : M unit :=
  match bs with
  | [] => ret tt
  | b :: bs' =>
      call (fun _ => tt) (fun _ => svcQueryMemory_ev query 0 b) ;;
      (let '(a, l, o) := clip start_address end_ b in callback a l o) ;;
      visit_blocks callback start_address end_ (block_end b) bs'
  end.

Definition invocation_eq_dec (x y : invocation) : {x = y} + {x <> y}.
Proof. repeat decide equality. Defined.

(** The memory query answers with a block that holds the queried address. *)
Definition sane_queries (K : kernel) : Prop :=
  forall w q, fst (k_svcQueryMemory K w q) = 0 ->
    let b := snd (k_svcQueryMemory K w q) in
    contains b q /\ 0 <= addr b /\ block_end b < 2 ^ 64.

(** The call has reported a failure: a null address or a result code other
    than zero.  Calls that report nothing, or whose report the trace does
    not keep, have not. *)
Definition failed (e : event) : bool :=
  match e with
  | virtmemFindAslr_ev _ _ res => res =? 0
  | virtmemAddReservation_ev _ _ res => res =? 0
  | svcQueryMemory_ev _ rc _ => negb (rc =? 0)
  | svcMapProcessMemory_ev _ _ _ _ rc => negb (rc =? 0)
  | svcUnmapProcessMemory_ev _ _ _ _ rc => negb (rc =? 0)
  | svcGetInfo_ev _ _ _ rc _ => negb (rc =? 0)
  | svcCreateSession_ev rc _ _ => negb (rc =? 0)
  | svcCreateThread_ev _ _ _ rc _ => negb (rc =? 0)
  | svcStartThread_ev _ rc => negb (rc =? 0)
  | svcReplyAndReceive_ev _ rc _ => negb (rc =? 0)
  | svcSendSyncRequest_ev _ _ rc => negb (rc =? 0)
  | svcWaitSynchronizationSingle_ev _ _ rc => negb (rc =? 0)
  | smcGetConfig_ev _ rc _ => negb (rc =? 0)
  | _ => false
  end.


(** A list made of two others, each kept in its order: the calls of two
    threads as the kernel has seen them. *)
Inductive interleaving {A : Type} : list A -> list A -> list A -> Prop :=
| interleaving_nil : interleaving [] [] []
| interleaving_left x l r m : interleaving l r m -> interleaving (x :: l) r (x :: m)
| interleaving_right x l r m : interleaving l r m -> interleaving l (x :: r) (x :: m).

(** Every call of the list had the result the code requires. *)
Definition all_succeeded (evs : list event) : Prop :=
  Forall (fun e => succeeded e = true) evs.

(** A computation that makes only calls of the kind [Q] and stops at the
    first call that fails: whatever the outcome, every call but the last has
    succeeded, and the last has too unless the outcome is the panic. *)
Definition disciplined {A : Type} (Q : event -> Prop) (m : M A) : Prop :=
  forall w, exists evs,
    trace (world_of (m w)) = trace w ++ evs /\
    Forall Q evs /\
    all_succeeded (removelast evs) /\
    match m w with Panic _ _ => True | _ => all_succeeded evs end.



(** A handle is at hand: one is cached, or the fast path is there. *)
Definition handle_at_hand (K : kernel) (w : world) : Prop :=
  s_Handle w <> INVALID_HANDLE \/
  forall w0, fst (k_svcGetInfo K w0 InfoType_MesosphereCurrentProcess INVALID_HANDLE 0) = 0.

(** The map the callback of the constructor, or the unmap the callback of
    the destructor, makes for a block, as [(dst, src, size)]. *)
Definition mirrored (base_rw start_address end_ : Z) (b : MemoryInfo) : invocation :=
  let '(a, l, o) := clip start_address end_ b in (wrap64 (base_rw + o), a, l).

(** The setting of a construction that nothing hinders: the allocator
    finds an address and reserves it, a handle is at hand, the blocks [bs]
    are consecutive, reported by the kernel and cover the aligned range,
    which ends inside the 64-bit range, there is fuel for a round per block,
    every map is granted, and once these maps are made the mirror shows the
    bytes of the source. *)
Definition construction_granted (K : kernel) (bs : list MemoryInfo) (fuel : nat)
    (ro sz : Z) (w : world) : Prop :=
  let c0 := {| m_Ro := ro; m_Rw := 0; m_RwReserve := 0; m_Size := sz |} in
  let base := GetAlignedRo c0 in
  let len := GetAlignedSize c0 in
  let A := k_virtmemFindAslr K w len 0 in
  let R := k_virtmemAddReservation K (emit (virtmemFindAslr_ev len 0 A) w) A len in
  let rw := wrap64 (A + wrap64 (ro - base)) in
  A <> 0 /\ R <> 0 /\ handle_at_hand K w /\
  chained bs /\ answers K bs /\ base + len < 2 ^ 64 /\ covers bs base (base + len) /\
  (List.length bs <= fuel)%nat /\
  (forall w0 dst proc src l, k_svcMapProcessMemory K w0 dst proc src l = 0) /\
  (forall w0 evs,
     trace w0 = trace w ++ evs ->
     maps_of evs = map (mirrored A base (base + len)) (visited base (base + len) bs) ->
     forall k, 0 <= k < sz -> k_load K w0 (ro + k) = k_load K w0 (rw + k)).

(** The same kernel, showing other bytes in memory. *)
Definition with_load (load : world -> Z -> Z) (K : kernel) : kernel :=
  {| k_virtmemFindAslr := k_virtmemFindAslr K;
     k_virtmemAddReservation := k_virtmemAddReservation K;
     k_svcQueryMemory := k_svcQueryMemory K;
     k_svcMapProcessMemory := k_svcMapProcessMemory K;
     k_svcUnmapProcessMemory := k_svcUnmapProcessMemory K;
     k_load := load;
     k_svcGetInfo := k_svcGetInfo K;
     k_svcCreateSession := k_svcCreateSession K;
     k_svcCreateThread := k_svcCreateThread K;
     k_svcStartThread := k_svcStartThread K;
     k_svcReplyAndReceive := k_svcReplyAndReceive K;
     k_svcSendSyncRequest := k_svcSendSyncRequest K;
     k_svcWaitSynchronizationSingle := k_svcWaitSynchronizationSingle K;
     k_smcGetConfig := k_smcGetConfig K |}.

(** The same kernel, answering the memory queries otherwise. *)
Definition with_query (query : world -> Z -> Z * MemoryInfo) (K : kernel) : kernel :=
  {| k_virtmemFindAslr := k_virtmemFindAslr K;
     k_virtmemAddReservation := k_virtmemAddReservation K;
     k_svcQueryMemory := query;
     k_svcMapProcessMemory := k_svcMapProcessMemory K;
     k_svcUnmapProcessMemory := k_svcUnmapProcessMemory K;
     k_load := k_load K;
     k_svcGetInfo := k_svcGetInfo K;
     k_svcCreateSession := k_svcCreateSession K;
     k_svcCreateThread := k_svcCreateThread K;
     k_svcStartThread := k_svcStartThread K;
     k_svcReplyAndReceive := k_svcReplyAndReceive K;
     k_svcSendSyncRequest := k_svcSendSyncRequest K;
     k_svcWaitSynchronizationSingle := k_svcWaitSynchronizationSingle K;
     k_smcGetConfig := k_smcGetConfig K |}.

(** The same kernel, answering the configuration queries otherwise. *)
Definition with_config (config : world -> Z -> Z * Z) (K : kernel) : kernel :=
  {| k_virtmemFindAslr := k_virtmemFindAslr K;
     k_virtmemAddReservation := k_virtmemAddReservation K;
     k_svcQueryMemory := k_svcQueryMemory K;
     k_svcMapProcessMemory := k_svcMapProcessMemory K;
     k_svcUnmapProcessMemory := k_svcUnmapProcessMemory K;
     k_load := k_load K;
     k_svcGetInfo := k_svcGetInfo K;
     k_svcCreateSession := k_svcCreateSession K;
     k_svcCreateThread := k_svcCreateThread K;
     k_svcStartThread := k_svcStartThread K;
     k_svcReplyAndReceive := k_svcReplyAndReceive K;
     k_svcSendSyncRequest := k_svcSendSyncRequest K;
     k_svcWaitSynchronizationSingle := k_svcWaitSynchronizationSingle K;
     k_smcGetConfig := config |}.

(** The text of the constructor's last assertion. *)
Definition memcmp_assertion : string :=
  "Assertion failed: memcmp((void*)claim.m_Ro, (void*)claim.m_Rw, size) == 0".

(** The constructor up to its last map, before the bytes are compared: it
    yields [alignedRw] and the reservation.  A device of the proofs, to speak
    about the moment of the check. *)
Definition RwPages_ctor_mapped (K : kernel) (fuel : nat) (ro sz : Z) : M (Z * Z) :=
  let claim := {| m_Ro := ro; m_Rw := 0; m_RwReserve := 0; m_Size := sz |} in
  alignedRw <- call (fun w => k_virtmemFindAslr K w (GetAlignedSize claim) 0)
                    (fun a => virtmemFindAslr_ev (GetAlignedSize claim) 0 a) ;;
  assert_ (negb (alignedRw =? 0)) "alignedRw != 0" ;;
  reserve <- call (fun w => k_virtmemAddReservation K w alignedRw (GetAlignedSize claim))
                  (fun a => virtmemAddReservation_ev alignedRw (GetAlignedSize claim) a) ;;
  assert_ (negb (reserve =? 0)) "reserve != NULL" ;;
  procHandle <- proc_handle.Get K ;;
  ForEachMemRange K fuel (map_block K alignedRw procHandle)
    (GetAlignedRo claim) (GetAlignedSize claim) ;;
  ret (alignedRw, reserve).

(** ** A small kernel to run the code on *)

Module Demo.

(** Physical content: the byte behind a read-execute address. *)
Definition code_byte (a : Z) : Z := (a * 7 + 3) mod 256.

(** Where a virtual address leads, following the mappings made so far. *)
Fixpoint resolve (tr : list event) (a : Z) : Z :=
  match tr with
  | [] => a
  | svcMapProcessMemory_ev dst _ src sz rc :: tr' =>
      let a' := resolve tr' a in
      if (rc =? 0) && (dst <=? a') && (a' <? dst + sz) then src + (a' - dst) else a'
  | _ :: tr' => resolve tr' a
  end.

Fixpoint find_block (bs : list MemoryInfo) (q : Z) : Z * MemoryInfo :=
  match bs with
  | [] => (0xE401, {| addr := 0; size := 0 |})
  | b :: bs' =>
      if (addr b <=? q) && (q <? block_end b) then (0, b) else find_block bs' q
  end.

(** A kernel with the given blocks.  [mesosphere] says whether the fast
    path of the handle query is there; the fallback transfers [0xD00D].
    [aslr] and [reserve] are the answers of the address-space allocator,
    [map_rc] the result of every map, and a [corrupt] kernel shows the
    mirror with other bytes than the source. *)
Definition kernel_with (bs : list MemoryInfo) (mesosphere : bool)
    (aslr reserve map_rc : Z) (corrupt : bool) : kernel :=
  {| k_virtmemFindAslr := fun _ _ _ => aslr;
     k_virtmemAddReservation := fun _ _ _ => reserve;
     k_svcQueryMemory := fun _ q => find_block bs q;
     k_svcMapProcessMemory := fun _ _ _ _ _ => map_rc;
     k_svcUnmapProcessMemory := fun _ _ _ _ _ => 0;
     k_load := fun w a =>
       let src := resolve (rev (trace w)) a in
       if corrupt && negb (src =? a) then 0xFF - code_byte src else code_byte src;
     k_svcGetInfo := fun _ _ _ _ => if mesosphere then (0, 0xBEEF) else (0xF001, 0);
     k_svcCreateSession := fun _ => (0, (0x11, 0x12));
     k_svcCreateThread := fun _ _ _ _ => (0, 0x13);
     k_svcStartThread := fun _ _ => 0;
     k_svcReplyAndReceive := fun _ _ => (0, [0; 0x80000000; 2; 0xD00D]);
     k_svcSendSyncRequest := fun _ _ _ => 0xF601;
     k_svcWaitSynchronizationSingle := fun _ _ _ => 0;
     k_smcGetConfig := fun _ _ => (0, 3) |}.

Definition kernel_of (bs : list MemoryInfo) (mesosphere : bool) : kernel :=
  kernel_with bs mesosphere 0x7100000000 0x7100000008 0 false.

(** Three pages of code, reported as a block of two pages and one of one. *)
Definition code_base : Z := 0x8004000.

Definition two_blocks : list MemoryInfo :=
  [ {| addr := code_base; size := 0x2000 |};
    {| addr := code_base + 0x2000; size := 0x1000 |} ].

Definition K2 : kernel := kernel_of two_blocks true.

(** The ways the constructor can meet a failure. *)
Definition K_no_space : kernel := kernel_with two_blocks true 0 0x7100000008 0 false.
Definition K_no_reservation : kernel := kernel_with two_blocks true 0x7100000000 0 0 false.
Definition K_no_blocks : kernel := kernel_of [] true.
Definition K_no_map : kernel := kernel_with two_blocks true 0x7100000000 0x7100000008 0xE001 false.
Definition K_corrupt : kernel := kernel_with two_blocks true 0x7100000000 0x7100000008 0 true.

(** The demo kernel with a memory whose content repeats page by page, so
    that it shows the same bytes through every page-aligned mirror. *)
Definition K_periodic : kernel := with_load (fun _ a => a mod 0x1000 mod 256) K2.

(** A kernel whose configuration answers have a word above the low 32 bits
    set. *)
Definition K_high_word : kernel := with_config (fun _ _ => (0, 0x100000003)) K2.

(** A kernel that answers every memory query with the same empty block. *)
Definition K_stuck : kernel :=
  with_query (fun _ _ => (0, {| addr := code_base; size := 0 |})) K2.

End Demo.


(** * Proofs *)

(** ** Facts about the macros at [PAGE_SIZE] *)

Section AlignFacts.

Lemma wrap64_range x : 0 <= wrap64 x < 2 ^ 64.
Proof. unfold wrap64, wrap. apply Z.mod_pos_bound. lia. Qed.

Lemma wrap64_small x : 0 <= x < 2 ^ 64 -> wrap64 x = x.
Proof. intros H. unfold wrap64, wrap. apply Z.mod_small. exact H. Qed.

Lemma page_mask : not64 (wrap64 (wrap64 PAGE_SIZE - 1)) = 2 ^ 64 - 0x1000.
Proof. reflexivity. Qed.

(** Masking a 64-bit word with [~0xFFF] clears its low twelve bits. *)
Lemma land_page_mask x :
  0 <= x < 2 ^ 64 -> Z.land x (2 ^ 64 - 0x1000) = x - x mod 0x1000.
Proof.
  intros Hx.
  assert (Hm : 2 ^ 64 - 0x1000 = Z.land (Z.lnot (Z.ones 12)) (Z.ones 64)).
  { reflexivity. }
  rewrite Hm, Z.land_assoc.
  rewrite (Z.land_ones _ 64) by lia.
  assert (Hl : Z.land x (Z.lnot (Z.ones 12)) = Z.ldiff x (Z.ones 12)).
  { reflexivity. }
  rewrite Hl, Z.ldiff_ones_r by lia.
  rewrite Z.shiftl_mul_pow2, Z.shiftr_div_pow2 by lia.
  change (2 ^ 12) with 0x1000.
  pose proof (Z.div_mod x 0x1000 ltac:(lia)) as Hd.
  pose proof (Z.mod_pos_bound x 0x1000 ltac:(lia)) as Hb.
  assert (Hq : x / 0x1000 * 0x1000 = x - x mod 0x1000) by lia.
  rewrite Hq. apply Z.mod_small. lia.
Qed.

Lemma ALIGN_DOWN_page x :
  ALIGN_DOWN x PAGE_SIZE = wrap64 x - wrap64 x mod 0x1000.
Proof.
  unfold ALIGN_DOWN. rewrite page_mask.
  apply land_page_mask, wrap64_range.
Qed.

Lemma ALIGN_UP_page x :
  ALIGN_UP x PAGE_SIZE =
  wrap64 (wrap64 x + 0xFFF) - wrap64 (wrap64 x + 0xFFF) mod 0x1000.
Proof.
  unfold ALIGN_UP. rewrite page_mask.
  change (wrap64 (wrap64 PAGE_SIZE - 1)) with 0xFFF.
  apply land_page_mask, wrap64_range.
Qed.

Lemma ALIGN_DOWN_page_mod x : ALIGN_DOWN x PAGE_SIZE mod 0x1000 = 0.
Proof.
  rewrite ALIGN_DOWN_page.
  pose proof (Z.div_mod (wrap64 x) 0x1000 ltac:(lia)) as Hd.
  replace (wrap64 x - wrap64 x mod 0x1000) with (wrap64 x / 0x1000 * 0x1000) by lia.
  apply Z.mod_mul. lia.
Qed.

Lemma ALIGN_UP_page_mod x : ALIGN_UP x PAGE_SIZE mod 0x1000 = 0.
Proof.
  rewrite ALIGN_UP_page.
  set (y := wrap64 (wrap64 x + 0xFFF)).
  pose proof (Z.div_mod y 0x1000 ltac:(lia)) as Hd.
  replace (y - y mod 0x1000) with (y / 0x1000 * 0x1000) by lia.
  apply Z.mod_mul. lia.
Qed.

Lemma ALIGN_DOWN_page_bounds x :
  0 <= x < 2 ^ 64 ->
  ALIGN_DOWN x PAGE_SIZE <= x < ALIGN_DOWN x PAGE_SIZE + 0x1000 /\
  0 <= ALIGN_DOWN x PAGE_SIZE.
Proof.
  intros Hx. rewrite ALIGN_DOWN_page, (wrap64_small x Hx).
  pose proof (Z.mod_pos_bound x 0x1000 ltac:(lia)).
  pose proof (Z.mod_le x 0x1000 ltac:(lia) ltac:(lia)).
  lia.
Qed.

Lemma ALIGN_UP_page_range x : 0 <= ALIGN_UP x PAGE_SIZE < 2 ^ 64.
Proof.
  rewrite ALIGN_UP_page.
  set (y := wrap64 (wrap64 x + 0xFFF)).
  pose proof (wrap64_range (wrap64 x + 0xFFF)) as Hy. fold y in Hy.
  pose proof (Z.mod_pos_bound y 0x1000 ltac:(lia)).
  pose proof (Z.mod_le y 0x1000 ltac:(lia) ltac:(lia)).
  lia.
Qed.

(** Without wrap-around [ALIGN_UP] rounds up by less than a page. *)
Lemma ALIGN_UP_page_bounds x :
  0 <= x -> x + 0xFFF < 2 ^ 64 ->
  x <= ALIGN_UP x PAGE_SIZE < x + 0x1000.
Proof.
  intros H0 H1. rewrite ALIGN_UP_page.
  rewrite (wrap64_small x) by lia.
  rewrite (wrap64_small (x + 0xFFF)) by lia.
  pose proof (Z.mod_pos_bound (x + 0xFFF) 0x1000 ltac:(lia)).
  lia.
Qed.

End AlignFacts.

(** ** The build-time checks *)

Section SettingFacts.

Import setting.

(** What the two assertions accept: a page-aligned [JitSize], and an
    [InlinePoolSize] whose round-up is [JitSize]. *)
Lemma sanity_checks_spec JitSize InlinePoolSize :
  in_u64 JitSize ->
  sanity_checks JitSize InlinePoolSize = true <->
  JitSize mod PAGE_SIZE = 0 /\ ALIGN_UP InlinePoolSize PAGE_SIZE = JitSize.
Proof.
  intros HJ. unfold sanity_checks, static_assert_JitSize, static_assert_InlinePoolSize.
  rewrite andb_true_iff, !Z.eqb_eq. split; intros [H1 H2]; split; trivial.
  - rewrite <- H1. apply ALIGN_UP_page_mod.
  - rewrite ALIGN_UP_page, (wrap64_small JitSize HJ).
    unfold in_u64 in HJ. change PAGE_SIZE with 0x1000 in H1.
    pose proof (Z.div_mod JitSize 0x1000 ltac:(lia)) as Hd.
    assert (Hw : wrap64 (JitSize + 0xFFF) = JitSize + 0xFFF).
    { apply wrap64_small.
      assert (JitSize / 0x1000 < 2 ^ 52) by (apply Z.div_lt_upper_bound; lia).
      lia. }
    rewrite Hw.
    replace (JitSize + 0xFFF) with (0xFFF + (JitSize / 0x1000) * 0x1000) by lia.
    rewrite Z.mod_add by lia. change (0xFFF mod 0x1000) with 0xFFF. lia.
Qed.

(** C6, on the code: with [JitSize = 0x1000] the checks accept
    [InlinePoolSize = 0x800], which is no multiple of the page size, and
    reject [InlinePoolSize = 0x2000], which is one: the second assertion
    compares the rounded [InlinePoolSize] with [JitSize]. *)
Theorem sanity_checks_compare_with_JitSize :
  sanity_checks 0x1000 0x800 = true /\ 0x800 mod PAGE_SIZE <> 0 /\
  sanity_checks 0x1000 0x2000 = false /\ 0x2000 mod PAGE_SIZE = 0 /\
  0x1000 mod PAGE_SIZE = 0 /\
  static_assert_InlinePoolSize 0x1000 0x2000 = false /\
  (ALIGN_UP 0x2000 PAGE_SIZE =? 0x2000) = true.
Proof. repeat split; try reflexivity. discriminate. Qed.

(** The defaults of the header pass: there both sizes are one page. *)
Lemma default_setting_accepted :
  sanity_checks EXL_JIT_SIZE EXL_INLINE_POOL_SIZE = true.
Proof. reflexivity. Qed.

End SettingFacts.

(** ** The aligned span of a claim *)

(** C8, amended: for every [ro_base] and [size] the aligned size is a
    multiple of the page size and the aligned base is a page-aligned address
    not above [ro_base]; the aligned size is at least [size] whenever
    rounding [size + (ro_base - aligned_ro)] up does not leave the 64-bit
    range. *)
Theorem aligned_span_bounds (c : Claim) :
  in_u64 (m_Ro c) -> in_u64 (m_Size c) ->
  GetAlignedSize c mod PAGE_SIZE = 0 /\
  GetAlignedRo c <= m_Ro c /\
  (m_Size c + (m_Ro c - GetAlignedRo c) + (PAGE_SIZE - 1) < 2 ^ 64 ->
   m_Size c <= GetAlignedSize c).
Proof.
  intros Hro Hsz. unfold GetAlignedSize, GetAlignedRo.
  pose proof (ALIGN_DOWN_page_bounds (m_Ro c) Hro) as [Hd Hd0].
  split; [apply ALIGN_UP_page_mod|]. split; [lia|].
  change PAGE_SIZE with 0x1000 at 2. intros Hfit.
  unfold in_u64 in *.
  rewrite (wrap64_small (m_Ro c - _)) by lia.
  rewrite (wrap64_small (m_Size c + _)) by lia.
  pose proof (ALIGN_UP_page_bounds (m_Size c + (m_Ro c - ALIGN_DOWN (m_Ro c) PAGE_SIZE))
                ltac:(lia) ltac:(lia)).
  lia.
Qed.

(** The sizes named by the claim: zero, and a range that crosses exactly
    one page boundary. *)
Lemma aligned_span_bounds_witness :
  (let c := {| m_Ro := 0x8004010; m_Rw := 0; m_RwReserve := 0; m_Size := 0 |} in
   GetAlignedSize c mod PAGE_SIZE = 0 /\ GetAlignedRo c <= m_Ro c /\
   m_Size c <= GetAlignedSize c) /\
  (let c := {| m_Ro := 0x8004FF0; m_Rw := 0; m_RwReserve := 0; m_Size := 0x20 |} in
   GetAlignedSize c mod PAGE_SIZE = 0 /\ GetAlignedRo c <= m_Ro c /\
   m_Size c <= GetAlignedSize c).
Proof.
  split.
  - destruct (aligned_span_bounds
                {| m_Ro := 0x8004010; m_Rw := 0; m_RwReserve := 0; m_Size := 0 |})
      as (H1 & H2 & H3); [vm_compute; split; [discriminate | reflexivity] ..|].
    cbv zeta. split; [exact H1 | split; [exact H2 | apply H3; reflexivity]].
  - destruct (aligned_span_bounds
                {| m_Ro := 0x8004FF0; m_Rw := 0; m_RwReserve := 0; m_Size := 0x20 |})
      as (H1 & H2 & H3); [vm_compute; split; [discriminate | reflexivity] ..|].
    cbv zeta. split; [exact H1 | split; [exact H2 | apply H3; reflexivity]].
Defined.

(** C8 as stated fails: a size within a page of the top of the 64-bit range
    rounds up to zero. *)
Lemma aligned_size_wraps_to_zero :
  ~ (forall c : Claim,
       in_u64 (m_Ro c) -> in_u64 (m_Size c) ->
       GetAlignedSize c mod PAGE_SIZE = 0 /\
       m_Size c <= GetAlignedSize c /\
       GetAlignedRo c <= m_Ro c).
Proof.
  intros H.
  destruct (H {| m_Ro := 0; m_Rw := 0; m_RwReserve := 0; m_Size := 2 ^ 64 - 1 |})
    as (_ & Hle & _).
  - vm_compute. split; [discriminate | reflexivity].
  - vm_compute. split; [discriminate | reflexivity].
  - vm_compute in Hle. apply Hle. reflexivity.
Qed.

(** ** SoC detection *)

Section SocFacts.

Variable K : kernel.
Variables Icosa Copper Hoag Iowa Calcio Aula item : Z.




End SocFacts.


(** ** The panic text *)

Section PanicText.

Import assert_cpp.

Lemma list_ascii_app (s t : string) :
  list_ascii_of_string (s ++ t) = list_ascii_of_string s ++ list_ascii_of_string t.
Proof. induction s as [|c s IH]; cbn; [reflexivity | now rewrite IH]. Qed.

Lemma c_str_nul_free s : nul_free (list_ascii_of_string (c_str s)).
Proof.
  induction s as [|c s IH]; cbn.
  - constructor.
  - destruct (Ascii.eqb c NUL) eqn:E; cbn.
    + constructor.
    + constructor; [|exact IH]. intros ->. now rewrite Ascii.eqb_refl in E.
Qed.

Lemma string_of_uint_nul_free d :
  nul_free (list_ascii_of_string (NilEmpty.string_of_uint d)).
Proof.
  induction d; cbn; constructor; try assumption; discriminate.
Qed.

Lemma format_d_nul_free z : nul_free (list_ascii_of_string (format_d z)).
Proof.
  unfold format_d, NilZero.string_of_int, NilZero.string_of_uint, NilEmpty.string_of_int.
  destruct (Z.to_int z) as [d | d].
  - destruct d; try apply string_of_uint_nul_free.
    cbn. constructor; [discriminate | constructor].
  - destruct d; cbn; (constructor; [discriminate|]);
      try (constructor; [discriminate|]);
      try apply string_of_uint_nul_free; try constructor.
Qed.

Lemma nul_free_app l1 l2 : nul_free l1 -> nul_free l2 -> nul_free (l1 ++ l2).
Proof. intros. apply Forall_app. split; assumption. Qed.

Lemma panic_text_nul_free file line msg :
  nul_free (list_ascii_of_string (panic_text file line msg)).
Proof.
  unfold panic_text. rewrite !list_ascii_app. cbn [list_ascii_of_string].
  rewrite !list_ascii_app.
  repeat first
    [ apply nul_free_app
    | apply c_str_nul_free
    | apply format_d_nul_free
    | apply Forall_cons; [discriminate|]
    | apply Forall_nil ].
Qed.

Lemma strlen_terminated out rest :
  nul_free out -> strlen (out ++ NUL :: rest) = Some (List.length out).
Proof.
  induction 1 as [|c out Hc _ IH]; cbn.
  - reflexivity.
  - destruct (Ascii.eqb c NUL) eqn:E.
    + apply Ascii.eqb_eq in E. contradiction.
    + rewrite IH. reflexivity.
Qed.

Lemma nul_free_firstn n l : nul_free l -> nul_free (firstn n l).
Proof.
  unfold nul_free. intros H. revert n.
  induction H as [|c l Hc Hl IH]; intros [|n]; cbn; constructor; [exact Hc | apply IH].
Qed.

Lemma store_last_shape (buf out : list ascii) :
  List.length buf = 1024%nat -> (List.length out <= 1023)%nat ->
  let s := out ++ NUL :: skipn (S (List.length out)) buf in
  List.length (store s 1023 NUL) = 1024%nat /\
  nth 1023 (store s 1023 NUL) "x"%char = NUL /\
  exists rest, store s 1023 NUL = out ++ NUL :: rest.
Proof.
  intros Hlen Hout s. unfold store.
  assert (Hs : List.length s = 1024%nat).
  { unfold s. rewrite length_app. cbn [List.length]. rewrite length_skipn. lia. }
  split; [|split].
  - rewrite length_app. cbn [List.length]. rewrite length_firstn, length_skipn. lia.
  - rewrite app_nth2; rewrite length_firstn, Hs; [|lia].
    reflexivity.
  - unfold s. rewrite firstn_app, (firstn_all2 (n := 1023) out) by lia.
    destruct (1023 - List.length out)%nat as [|k].
    + cbn [firstn]. rewrite app_nil_r. eexists. reflexivity.
    + cbn [firstn]. rewrite <- app_assoc. cbn [app]. eexists. reflexivity.
Qed.

(** C9: whatever the buffer held and whatever the inputs are, the buffer
    keeps its 1024 bytes, its last byte is the terminator, and the string it
    holds is the expansion of the format cut to at most 1023 characters. *)
Theorem panic_message_terminated (buf : list ascii) (file : string) (line : Z) (msg : string) :
  List.length buf = PANIC_FMT_BUFFER_size ->
  let r := megaton_format_panic_message buf file line msg in
  List.length r = 1024%nat /\
  nth 1023 r "x"%char = NUL /\
  exists n, strlen r = Some n /\ (n <= 1023)%nat /\
            firstn n r = firstn 1023 (list_ascii_of_string (panic_text file line msg)).
Proof.
  intros Hlen r. subst r.
  unfold megaton_format_panic_message, snprintf, PANIC_FMT_BUFFER_size in *.
  change (1024 - 1)%nat with 1023%nat.
  pose proof (firstn_le_length 1023 (list_ascii_of_string (panic_text file line msg)))
    as Hout.
  pose proof (nul_free_firstn 1023 _ (panic_text_nul_free file line msg)) as Hfree.
  destruct (store_last_shape buf _ Hlen Hout) as (H1 & H2 & rest & H3).
  cbv zeta in H1, H2, H3.
  split; [exact H1 | split; [exact H2 |]].
  rewrite H3.
  eexists. split; [apply strlen_terminated; exact Hfree | split; [exact Hout |]].
  rewrite firstn_app, Nat.sub_diag, firstn_all. cbn [firstn].
  apply app_nil_r.
Qed.

Lemma panic_message_terminated_witness :
  let r := megaton_format_panic_message (repeat "x"%char 1024) "rw_pages.cpp" 24
             "svcQueryMemory failed." in
  List.length r = 1024%nat /\
  nth 1023 r "x"%char = NUL /\
  exists n, strlen r = Some n /\ (n <= 1023)%nat /\
            firstn n r = firstn 1023 (list_ascii_of_string
                           (panic_text "rw_pages.cpp" 24 "svcQueryMemory failed.")).
Proof.
  exact (panic_message_terminated (repeat "x"%char 1024) "rw_pages.cpp" 24
           "svcQueryMemory failed." eq_refl).
Defined.

End PanicText.

(** ** The walk over the backing blocks *)

Section Chains.

Variables start_address end_ : Z.

Lemma chained_tail b bs : chained (b :: bs) -> chained bs.
Proof. cbn. tauto. Qed.

Lemma chained_later b bs b' :
  chained (b :: bs) -> In b' bs -> block_end b <= addr b'.
Proof.
  revert b. induction bs as [|c bs IH]; intros b Hc Hin; [contradiction|].
  destruct Hc as (_ & _ & _ & Hnext & Hrest).
  destruct Hin as [<- | Hin]; [lia|].
  specialize (IH c Hrest Hin).
  destruct Hrest as (_ & Hpos & _). unfold block_end in *. lia.
Qed.

Lemma chained_app_r pre bs : chained (pre ++ bs) -> chained bs.
Proof.
  induction pre as [|p pre IH]; [trivial|].
  intros H. apply IH. exact (chained_tail _ _ H).
Qed.

(** [from] drops the blocks that end at or before the start. *)
Lemma from_spec bs :
  chained bs -> (exists b, In b bs /\ contains b start_address) ->
  exists pre b rest,
    bs = pre ++ b :: rest /\ from start_address bs = b :: rest /\
    contains b start_address /\
    Forall (fun p => block_end p <= start_address) pre.
Proof.
  induction bs as [|h t IH]; intros Hc (b & Hin & Hb); [contradiction|].
  cbn [from]. destruct (start_address <? block_end h) eqn:E.
  - apply Z.ltb_lt in E. exists [], h, t. repeat split; try constructor.
    + destruct Hin as [<- | Hin]; [apply Hb|].
      pose proof (chained_later _ _ _ Hc Hin). unfold contains in Hb. lia.
    + exact E.
  - apply Z.ltb_ge in E.
    destruct Hin as [<- | Hin]; [unfold contains in Hb; lia|].
    destruct (IH (chained_tail _ _ Hc) (ex_intro _ b (conj Hin Hb)))
      as (pre & b0 & rest & -> & Hf & Hb0 & Hpre).
    exists (h :: pre), b0, rest. repeat split; try assumption; try apply Hb0.
    constructor; assumption.
Qed.

Lemma intersects_true b :
  intersects start_address end_ b = true <->
  addr b < end_ /\ start_address < block_end b /\
  start_address < end_ /\ addr b < block_end b.
Proof. unfold intersects. rewrite Z.ltb_lt. lia. Qed.

Lemma intersects_false b :
  intersects start_address end_ b = false <->
  end_ <= addr b \/ block_end b <= start_address \/
  end_ <= start_address \/ block_end b <= addr b.
Proof. unfold intersects. rewrite Z.ltb_ge. lia. Qed.

Lemma filter_none (f : MemoryInfo -> bool) bs :
  Forall (fun b => f b = false) bs -> filter f bs = [].
Proof.
  induction 1 as [|b bs Hb _ IH]; cbn; [reflexivity|].
  rewrite Hb. exact IH.
Qed.

(** From a block that starts before [end_] on, the blocks up to the one
    reaching [end_] are the ones with a byte in the range. *)
Lemma upto_filter bs :
  chained bs -> start_address < end_ ->
  match bs with
  | [] => True
  | b :: _ => addr b < end_ /\ start_address < block_end b
  end ->
  upto end_ bs = filter (intersects start_address end_) bs.
Proof.
  induction bs as [|b bs IH]; intros Hc Hlt Hhead; [reflexivity|].
  cbn [upto filter]. destruct Hhead as [Ha Hs].
  pose proof Hc as (H0 & Hpos & Hmax & Hnext & Hrest).
  assert (Hi : intersects start_address end_ b = true).
  { apply intersects_true. unfold block_end in *. lia. }
  rewrite Hi. f_equal.
  destruct (block_end b <? end_) eqn:E.
  - apply Z.ltb_lt in E. apply IH; trivial.
    destruct bs as [|c bs]; [trivial|].
    destruct Hrest as (_ & Hcpos & _). unfold block_end in *. lia.
  - apply Z.ltb_ge in E. symmetry. apply filter_none.
    apply Forall_forall. intros c Hin. apply intersects_false.
    pose proof (chained_later _ _ _ Hc Hin). lia.
Qed.

(** C1, the blocks: for a range that is not empty, the blocks the walk
    visits are exactly the blocks that intersect it. *)
Lemma visited_filter bs :
  chained bs -> start_address < end_ ->
  (exists b, In b bs /\ contains b start_address) ->
  visited start_address end_ bs = filter (intersects start_address end_) bs.
Proof.
  intros Hc Hlt Hex.
  destruct (from_spec bs Hc Hex) as (pre & b & rest & -> & Hf & Hb & Hpre).
  unfold visited. rewrite Hf, filter_app.
  rewrite (filter_none _ pre).
  - cbn [app]. apply upto_filter; [exact (chained_app_r _ _ Hc) | exact Hlt |].
    unfold contains in Hb. lia.
  - eapply Forall_impl; [|exact Hpre]. cbn. intros p Hp.
    apply intersects_false. lia.
Qed.

(** The first component of every later clip lies at or after the end of the
    block before. *)
Lemma clip_later b bs c :
  chained (b :: bs) -> In c (map (clip start_address end_) (upto end_ bs)) ->
  block_end b <= fst (fst c).
Proof.
  revert b. induction bs as [|h t IH]; intros b Hc Hin; [contradiction|].
  cbn [upto map] in Hin. destruct Hin as [<- | Hin].
  - cbn. destruct Hc as (_ & _ & _ & Hnext & _). lia.
  - destruct (block_end h <? end_); [|contradiction].
    pose proof (IH h (chained_tail _ _ Hc) Hin) as Hle.
    destruct Hc as (_ & _ & _ & Hnext & (_ & Hpos & _)).
    unfold block_end in *. lia.
Qed.

Lemma clips_NoDup bs :
  chained bs ->
  match bs with [] => True | b :: _ => start_address < block_end b end ->
  NoDup (map (clip start_address end_) (upto end_ bs)).
Proof.
  induction bs as [|b bs IH]; intros Hc Hhead; [constructor|].
  cbn [upto map]. constructor.
  - destruct (block_end b <? end_); [|intros []].
    intros Hin. pose proof (clip_later _ _ _ Hc Hin) as Hle.
    cbn in Hle. destruct Hc as (_ & Hpos & _). unfold block_end in *. lia.
  - destruct (block_end b <? end_); [|constructor].
    apply IH; [exact (chained_tail _ _ Hc)|].
    destruct bs as [|c t]; [trivial|].
    destruct Hc as (_ & Hpos & _ & Hnext & (_ & Hcpos & _)).
    unfold block_end in *. lia.
Qed.

(** The clips of the visited blocks lie end to end and stop at [end_]. *)
Lemma clips_end_to_end bs q :
  chained bs ->
  match bs with
  | [] => False
  | b :: _ => Z.max (addr b) start_address = q /\ q < block_end b
  end ->
  q <= end_ ->
  (exists b, In b bs /\ end_ <= block_end b) ->
  end_to_end start_address (q - start_address)
    (map (clip start_address end_) (upto end_ bs)) /\
  total_length (map (clip start_address end_) (upto end_ bs)) = end_ - q.
Proof.
  revert q. induction bs as [|b bs IH]; intros q Hc Hhead Hq Hcov; [contradiction|].
  destruct Hhead as [Hlo Hin].
  cbn [upto map]. unfold clip at 1 3. rewrite Hlo.
  cbn [end_to_end total_length fold_right fst snd].
  destruct (block_end b <? end_) eqn:E.
  - apply Z.ltb_lt in E.
    destruct Hcov as (c & [<- | Hc_in] & Hc_end); [lia|].
    destruct bs as [|h t]; [contradiction|].
    pose proof Hc as (_ & _ & _ & Hnext & Hrest).
    pose proof Hrest as (_ & Hhpos & _).
    destruct (IH (block_end b) Hrest) as [He Ht].
    + unfold block_end in *. lia.
    + lia.
    + exists c. split; assumption.
    + rewrite Z.min_l by lia. fold (total_length (map (clip start_address end_) (upto end_ (h :: t)))).
      rewrite Ht.
      replace (q - start_address + (block_end b - q)) with (block_end b - start_address) by lia.
      split; [split; [reflexivity | split; [lia | split; [lia | exact He]]] | lia].
  - apply Z.ltb_ge in E. rewrite Z.min_r by lia.
    cbn [map end_to_end fold_right].
    split; [split; [reflexivity | split; [lia | split; [lia | exact I]]] | lia].
Qed.

(** The last visited block is the first to reach [end_]. *)
Lemma upto_last bs d :
  (exists b, In b bs /\ end_ <= block_end b) ->
  end_ <= block_end (last (upto end_ bs) d) /\
  Forall (fun b => block_end b < end_) (removelast (upto end_ bs)).
Proof.
  induction bs as [|b bs IH]; intros (c & Hin & Hc); [contradiction|].
  cbn [upto]. destruct (block_end b <? end_) eqn:E.
  - apply Z.ltb_lt in E.
    destruct Hin as [<- | Hin]; [lia|].
    specialize (IH (ex_intro _ c (conj Hin Hc))).
    destruct bs as [|h t]; [contradiction|].
    cbn [upto] in IH |- *.
    change (last (b :: h :: ?l) d) with (last (h :: l) d).
    change (removelast (b :: h :: ?l)) with (b :: removelast (h :: l)).
    destruct IH as [IH1 IH2]. split; [exact IH1|].
    constructor; assumption.
  - apply Z.ltb_ge in E. cbn. split; [lia | constructor].
Qed.

End Chains.

Section Walk.

Variable K : kernel.
Variable start_address : Z.

Lemma answers_tail b bs : answers K (b :: bs) -> answers K bs.
Proof. intros H w q c Hin. apply H. right. exact Hin. Qed.

Lemma answers_app_r pre bs : answers K (pre ++ bs) -> answers K bs.
Proof. intros H w q c Hin. apply H. apply in_or_app. right. exact Hin. Qed.

(** One round of the loop on a block the kernel reports. *)
Lemma loop_round callback end_ fuel m w b :
  k_svcQueryMemory K w (wrap64 (addr m + size m)) = (0, b) ->
  let q := wrap64 (addr m + size m) in
  0 <= start_address -> end_ < 2 ^ 64 ->
  0 <= addr b -> block_end b < 2 ^ 64 ->
  Z.max (addr b) start_address = q -> q < block_end b -> q <= end_ ->
  ForEachMemRange_loop K (S fuel) callback start_address end_ m w =
  match callback q (Z.min (block_end b) end_ - q) (q - start_address)
          (emit (svcQueryMemory_ev q 0 b) w) with
  | Ret _ w2 =>
      if block_end b <? end_
      then ForEachMemRange_loop K fuel callback start_address end_ b w2
      else Ret tt w2
  | Panic msg w2 => Panic msg w2
  | OutOfFuel w2 => OutOfFuel w2
  end.
Proof.
  intros Hans q H0 Hend Hb0 Hbmax Hlo Hin Hq.
  cbn [ForEachMemRange_loop]. unfold svcQueryMemory, bind, call.
  rewrite Hans. fold q. cbn [fst snd R_FAILED Z.eqb negb ret].
  fold (block_end b).
  rewrite (wrap64_small (block_end b)) by lia.
  rewrite Hlo.
  rewrite (wrap64_small (q - start_address)) by lia.
  replace (start_address + (q - start_address)) with q by lia.
  rewrite (wrap64_small q) by lia.
  rewrite (Z.min_comm end_).
  rewrite (wrap64_small (Z.min (block_end b) end_ - q)) by lia.
  destruct (callback _ _ _ _); try reflexivity.
  destruct (block_end b <? end_); reflexivity.
Qed.

(** Over consecutive blocks that the kernel reports, the loop is one query
    and one callback per block, up to the first block that reaches [end_]. *)
Lemma loop_visits callback end_ bs :
  chained bs -> answers K bs ->
  0 <= start_address -> end_ < 2 ^ 64 ->
  forall fuel m w,
    let q := wrap64 (addr m + size m) in
    match bs with
    | [] => False
    | b :: _ => Z.max (addr b) start_address = q /\ q < block_end b
    end ->
    q <= end_ ->
    (exists b, In b bs /\ end_ <= block_end b) ->
    (List.length bs <= fuel)%nat ->
    ForEachMemRange_loop K fuel callback start_address end_ m w =
    visit_blocks callback start_address end_ q (upto end_ bs) w.
Proof.
  intros Hc Hans H0 Hend.
  induction bs as [|b bs IH]; intros fuel m w q Hhead Hq Hcov Hfuel; [contradiction|].
  destruct Hhead as [Hlo Hin].
  destruct fuel as [|fuel]; [cbn in Hfuel; lia|].
  pose proof Hc as (Hb0 & Hpos & Hbmax & Hnext & Hrest).
  assert (Hcont : contains b q) by (unfold contains; lia).
  rewrite (loop_round callback end_ fuel m w b); try assumption;
    [|exact (Hans w _ b (or_introl eq_refl) Hcont)].
  fold q. cbn [upto visit_blocks]. unfold bind at 1 2, call at 1.
  unfold clip. rewrite Hlo.
  destruct (callback _ _ _ _) as [[] w2 | |]; try reflexivity.
  destruct (block_end b <? end_) eqn:E; [|reflexivity].
  apply Z.ltb_lt in E.
  destruct Hcov as (c & [<- | Hc_in] & Hc_end); [lia|].
  destruct bs as [|h t]; [contradiction|].
  pose proof Hrest as (_ & Hhpos & _).
  assert (Hq' : wrap64 (addr b + size b) = block_end b)
    by (apply wrap64_small; unfold block_end in *; lia).
  specialize (IH Hrest (answers_tail _ _ Hans) fuel b w2).
  cbv zeta in IH. rewrite Hq' in IH. apply IH.
  - unfold block_end in *. lia.
  - lia.
  - exists c. split; assumption.
  - cbn in Hfuel |- *. lia.
Qed.

(** The walk over any consecutive blocks that reach from the start of the
    range to its end. *)
Lemma ForEachMemRange_visits callback bs length fuel w :
  chained bs -> answers K bs ->
  0 <= start_address -> 0 <= length -> start_address + length < 2 ^ 64 ->
  covers bs start_address (start_address + length) ->
  (List.length bs <= fuel)%nat ->
  ForEachMemRange K fuel callback start_address length w =
  visit_blocks callback start_address (start_address + length) start_address
    (visited start_address (start_address + length) bs) w.
Proof.
  intros Hc Hans H0 Hlen Hfit [Hstart Hcov] Hfuel.
  destruct (from_spec start_address bs Hc Hstart)
    as (pre & b & rest & -> & Hf & Hb & Hpre).
  unfold ForEachMemRange, visited. rewrite Hf.
  rewrite (wrap64_small (start_address + length)) by lia.
  assert (Hq : wrap64 (addr {| addr := start_address; size := 0 |}
                       + size {| addr := start_address; size := 0 |}) = start_address).
  { cbn [addr size]. rewrite Z.add_0_r. apply wrap64_small. lia. }
  pose proof (loop_visits callback (start_address + length) (b :: rest) (chained_app_r _ _ Hc)
                (answers_app_r _ _ Hans) H0 Hfit fuel
                {| addr := start_address; size := 0 |} w) as Hloop.
  cbv zeta in Hloop. rewrite Hq in Hloop. apply Hloop.
  - unfold contains in Hb. split; lia.
  - lia.
  - destruct Hcov as (c & Hin & Hc_end).
    apply in_app_or in Hin. destruct Hin as [Hin | Hin].
    + rewrite Forall_forall in Hpre. specialize (Hpre c Hin).
      exists b. split; [left; reflexivity|]. unfold contains in Hb. lia.
    + exists c. split; assumption.
  - rewrite length_app in Hfuel. cbn [List.length] in Hfuel |- *. lia.
Qed.

Lemma record_call_run a l o w : record_call a l o w = Ret tt (emit (callback_ev a l o) w).
Proof. reflexivity. Qed.

(** What the recording callback leaves in the trace. *)
Lemma visit_record_call end_ q bs w :
  exists evs,
    visit_blocks record_call start_address end_ q bs w = Ret tt (extend evs w) /\
    calls_of evs = map (clip start_address end_) bs /\
    queried_of evs = bs /\
    Forall (fun e => succeeded e = true) evs.
Proof.
  revert q w. induction bs as [|b bs IH]; intros q w.
  - exists []. cbn. unfold ret, extend. rewrite app_nil_r. destruct w. repeat split. constructor.
  - cbn [visit_blocks]. unfold bind. unfold call at 1.
    destruct (clip start_address end_ b) as [[a l] o] eqn:Hclip.
    rewrite record_call_run.
    match goal with |- context [visit_blocks _ _ _ _ _ ?w1] =>
      destruct (IH (block_end b) w1) as (evs & Hrun & Hcalls & Hq & Hok) end.
    exists (svcQueryMemory_ev q 0 b :: callback_ev a l o :: evs).
    rewrite Hrun. cbn [calls_of queried_of flat_map app map].
    fold (calls_of evs). fold (queried_of evs). rewrite Hcalls, Hq, Hclip.
    repeat split.
    + unfold extend, emit. cbn. rewrite <- !app_assoc. reflexivity.
    + repeat constructor. exact Hok.
Qed.

End Walk.

Section WalkRecorded.

Variable K : kernel.
Variable bs : list MemoryInfo.
Variables start_address length : Z.

Hypothesis Hchained : chained bs.
Hypothesis Hanswers : answers K bs.
Hypothesis Hstart : 0 <= start_address.
Hypothesis Hlength : 0 <= length.
Hypothesis Hfit : start_address + length < 2 ^ 64.
Hypothesis Hcovers : covers bs start_address (start_address + length).

Lemma walk_recorded fuel w :
  (List.length bs <= fuel)%nat ->
  exists evs,
    ForEachMemRange K fuel record_call start_address length w = Ret tt (extend evs w) /\
    calls_of evs =
      map (clip start_address (start_address + length))
          (visited start_address (start_address + length) bs) /\
    queried_of evs = visited start_address (start_address + length) bs.
Proof.
  intros Hfuel.
  rewrite (ForEachMemRange_visits K start_address record_call bs length fuel w);
    try assumption.
  destruct (visit_record_call start_address (start_address + length) start_address
              (visited start_address (start_address + length) bs) w)
    as (evs & Hrun & Hcalls & Hq & _).
  exists evs. repeat split; assumption.
Qed.

(** The block holding the start heads the visited blocks. *)
Lemma visited_shape :
  exists pre b rest,
    bs = pre ++ b :: rest /\
    visited start_address (start_address + length) bs =
      upto (start_address + length) (b :: rest) /\
    contains b start_address /\ chained (b :: rest) /\
    (exists c, In c (b :: rest) /\ start_address + length <= block_end c).
Proof.
  destruct Hcovers as [Hs Hcov].
  destruct (from_spec start_address bs Hchained Hs)
    as (pre & b & rest & E & Hf & Hb & Hpre).
  exists pre, b, rest. unfold visited. rewrite Hf.
  split; [exact E|]. split; [reflexivity|]. split; [exact Hb|]. split.
  - pose proof Hchained as Hch. rewrite E in Hch. exact (chained_app_r _ _ Hch).
  - destruct Hcov as (c & Hin & Hc). rewrite E in Hin.
    apply in_app_or in Hin. destruct Hin as [Hin | Hin].
    + rewrite Forall_forall in Hpre. specialize (Hpre c Hin).
      exists b. split; [left; reflexivity|]. unfold contains in Hb. lia.
    + exists c. split; assumption.
Qed.

Lemma visited_tiles :
  tiles start_address length
    (map (clip start_address (start_address + length))
         (visited start_address (start_address + length) bs)).
Proof.
  destruct visited_shape as (pre & b & rest & _ & -> & Hb & Hc & Hcov).
  destruct (clips_end_to_end start_address (start_address + length) (b :: rest)
              start_address Hc) as [He Ht].
  - unfold contains in Hb. split; lia.
  - lia.
  - exact Hcov.
  - unfold tiles. rewrite Z.sub_diag in He. split; [exact He | lia].
Qed.

Lemma visited_empty_range :
  length = 0 ->
  map (clip start_address (start_address + length))
      (visited start_address (start_address + length) bs) = [(start_address, 0, 0)].
Proof.
  intros Hz.
  destruct visited_shape as (pre & b & rest & _ & Hv & Hb & _ & _).
  rewrite Hv. cbn [upto].
  unfold contains in Hb.
  replace (block_end b <? start_address + length) with false
    by (symmetry; apply Z.ltb_ge; lia).
  cbn [map]. unfold clip.
  rewrite Z.max_r, Z.min_r by lia.
  replace (start_address + length - start_address) with 0 by lia.
  rewrite Z.sub_diag. reflexivity.
Qed.

Lemma visited_once b :
  In b bs -> intersects start_address (start_address + length) b = true ->
  count_occ invocation_eq_dec
    (map (clip start_address (start_address + length))
         (visited start_address (start_address + length) bs))
    (clip start_address (start_address + length) b) = 1%nat.
Proof.
  intros Hin Hi.
  assert (Hlt : start_address < start_address + length)
    by (apply intersects_true in Hi; lia).
  assert (Hnd : NoDup (map (clip start_address (start_address + length))
                           (visited start_address (start_address + length) bs))).
  { destruct visited_shape as (pre & b0 & rest & _ & -> & Hb & Hc & _).
    apply clips_NoDup; [exact Hc | apply Hb]. }
  apply (proj1 (NoDup_count_occ' invocation_eq_dec _) Hnd).
  apply in_map. rewrite visited_filter; try assumption; [|apply Hcovers].
  apply filter_In. split; assumption.
Qed.

End WalkRecorded.

Lemma two_blocks_chained base :
  0 <= base -> base + 0x3000 < 2 ^ 64 ->
  chained [ {| addr := base; size := 0x2000 |};
            {| addr := base + 0x2000; size := 0x1000 |} ].
Proof. intros H0 H1. cbn. unfold block_end. cbn. repeat split; lia. Qed.

Lemma demo_answers bs mesosphere :
  chained bs -> answers (Demo.kernel_of bs mesosphere) bs.
Proof.
  intros Hc w q b Hin Hq. cbn. clear w.
  induction bs as [|h t IH]; [contradiction|].
  cbn [Demo.find_block].
  destruct ((addr h <=? q) && (q <? block_end h)) eqn:E.
  - apply andb_true_iff in E. destruct E as [E1 E2].
    apply Z.leb_le in E1. apply Z.ltb_lt in E2.
    destruct Hin as [-> | Hin]; [reflexivity|].
    pose proof (chained_later _ _ _ Hc Hin). unfold contains in Hq. lia.
  - destruct Hin as [-> | Hin].
    + unfold contains in Hq. apply andb_false_iff in E.
      destruct E as [E | E]; [apply Z.leb_gt in E | apply Z.ltb_ge in E]; lia.
    + apply IH; [exact (chained_tail _ _ Hc) | exact Hin].
Qed.

(** C1: over consecutive backing blocks inside the 64-bit address range
    that the query reports and that reach from the start of the range to its
    end (the range itself does not wrap), the walk with the recording
    callback returns, given fuel for one round per block, and
    - for every block that intersects the range its intersection is invoked
      exactly once; for a range that is not empty the invocations are the
      intersections of the intersecting blocks, in order, and nothing else
      (for an empty range there is the one invocation [(start, 0, 0)]);
    - the invocations tile the range: end to end from offset 0, lengths
      adding up to [length];
    - there is one query per invocation, the last queried block ends at or
      after the end of the range and every earlier one ends before it,
      however many blocks there are.
    For three pages reported as blocks of [0x2000] and [0x1000] there are the
    two invocations of lengths [0x2000] and [0x1000] at offsets [0] and
    [0x2000], and the constructor issues the two map calls for them. *)
Theorem ForEachMemRange_tiles :
  (forall (K : kernel) (bs : list MemoryInfo) (start_address length : Z)
          (fuel : nat) (w : world),
      chained bs -> answers K bs ->
      0 <= start_address -> 0 <= length -> start_address + length < 2 ^ 64 ->
      covers bs start_address (start_address + length) ->
      (List.length bs <= fuel)%nat ->
      exists evs,
        ForEachMemRange K fuel record_call start_address length w
          = Ret tt (extend evs w) /\
        (forall b, In b bs ->
           intersects start_address (start_address + length) b = true ->
           count_occ invocation_eq_dec (calls_of evs)
             (clip start_address (start_address + length) b) = 1%nat) /\
        (0 < length ->
         calls_of evs =
           map (clip start_address (start_address + length))
               (filter (intersects start_address (start_address + length)) bs)) /\
        (length = 0 -> calls_of evs = [(start_address, 0, 0)]) /\
        tiles start_address length (calls_of evs) /\
        List.length (queried_of evs) = List.length (calls_of evs) /\
        start_address + length
          <= block_end (last (queried_of evs) {| addr := 0; size := 0 |}) /\
        Forall (fun b => block_end b < start_address + length)
               (removelast (queried_of evs)))
  /\
  (forall (K : kernel) (base : Z) (fuel : nat) (w : world),
      0 <= base -> base + 0x3000 < 2 ^ 64 ->
      answers K [ {| addr := base; size := 0x2000 |};
                  {| addr := base + 0x2000; size := 0x1000 |} ] ->
      (2 <= fuel)%nat ->
      exists evs,
        ForEachMemRange K fuel record_call base 0x3000 w = Ret tt (extend evs w) /\
        calls_of evs = [(base, 0x2000, 0); (base + 0x2000, 0x1000, 0x2000)])
  /\
  maps_of (trace (world_of
     (RwPages_ctor Demo.K2 2 Demo.code_base 0x3000 initial_world)))
  = [(0x7100000000, Demo.code_base, 0x2000);
     (0x7100002000, Demo.code_base + 0x2000, 0x1000)].
Proof.
  split; [|split].
  - intros K bs start_address length fuel w Hc Hans H0 Hlen Hfit Hcov Hfuel.
    destruct (walk_recorded K bs start_address length Hc Hans H0 Hlen Hfit Hcov fuel w Hfuel)
      as (evs & Hrun & Hcalls & Hq).
    exists evs. rewrite Hcalls, Hq.
    split; [exact Hrun|].
    split; [intros b; apply visited_once; assumption|].
    split.
    { intros Hpos. rewrite visited_filter; [reflexivity | exact Hc | lia | apply Hcov]. }
    split; [apply visited_empty_range; assumption|].
    split; [apply visited_tiles; assumption|].
    split; [symmetry; apply length_map|].
    destruct (visited_shape bs start_address length Hc Hcov)
      as (pre & b & rest & _ & -> & _ & _ & Hreach).
    apply upto_last. exact Hreach.
  - intros K base fuel w H0 Hfit Hans Hfuel.
    pose proof (two_blocks_chained base H0 Hfit) as Hc.
    destruct (walk_recorded K _ base 0x3000 Hc Hans H0 ltac:(lia) Hfit) with (fuel := fuel) (w := w)
      as (evs & Hrun & Hcalls & _).
    + split.
      * exists {| addr := base; size := 0x2000 |}.
        split; [left; reflexivity|]. unfold contains, block_end. cbn. lia.
      * exists {| addr := base + 0x2000; size := 0x1000 |}.
        split; [right; left; reflexivity|]. unfold block_end. cbn. lia.
    + cbn. lia.
    + exists evs. split; [exact Hrun|]. rewrite Hcalls.
      unfold visited. cbn [from]. unfold block_end. cbn [addr size].
      assert (E1 : (base <? base + 0x2000) = true) by (apply Z.ltb_lt; lia).
      assert (E2 : (base + 0x2000 <? base + 0x3000) = true) by (apply Z.ltb_lt; lia).
      assert (E3 : (base + 0x2000 + 0x1000 <? base + 0x3000) = false)
        by (apply Z.ltb_ge; lia).
      rewrite E1. cbn [upto]. unfold block_end. cbn [addr size].
      rewrite E2, E3.
      cbn [map]. unfold clip, block_end. cbn [addr size].
      rewrite (Z.max_l base base), (Z.min_l (base + 0x2000)),
        (Z.max_l (base + 0x2000) base), (Z.min_l (base + 0x2000 + 0x1000)) by lia.
      repeat f_equal; lia.
  - vm_compute. reflexivity.
Qed.

(** The three pages of the demo kernel. *)
Lemma ForEachMemRange_tiles_witness :
  exists evs,
    ForEachMemRange Demo.K2 2 record_call Demo.code_base 0x3000 initial_world
      = Ret tt (extend evs initial_world) /\
    tiles Demo.code_base 0x3000 (calls_of evs).
Proof.
  assert (Hc : chained Demo.two_blocks).
  { apply two_blocks_chained; [discriminate | reflexivity]. }
  destruct (proj1 ForEachMemRange_tiles Demo.K2 Demo.two_blocks Demo.code_base 0x3000
              2%nat initial_world Hc (demo_answers _ _ Hc))
    as (evs & Hrun & _ & _ & _ & Ht & _).
  - discriminate.
  - discriminate.
  - reflexivity.
  - split.
    + exists {| addr := Demo.code_base; size := 0x2000 |}.
      split; [left; reflexivity|]. vm_compute. split; [discriminate | reflexivity].
    + exists {| addr := Demo.code_base + 0x2000; size := 0x1000 |}.
      split; [right; left; reflexivity|]. vm_compute. discriminate.
  - apply le_n.
  - exists evs. split; assumption.
Defined.

(** ** Reading a run that returned *)

Section Runs.

Context {A B : Type}.

Lemma bind_Ret (m : M A) (k : A -> M B) w b w' :
  bind m k w = Ret b w' -> exists a w1, m w = Ret a w1 /\ k a w1 = Ret b w'.
Proof.
  unfold bind. destruct (m w) as [a w1 | |]; try discriminate.
  intros H. exists a, w1. split; [reflexivity | exact H].
Qed.

Lemma call_Ret (answer : world -> A) (ev : A -> event) w a w' :
  call answer ev w = Ret a w' -> a = answer w /\ w' = emit (ev (answer w)) w.
Proof. unfold call. intros H. inversion H. split; reflexivity. Qed.

Lemma ret_Ret (x : A) w a w' : ret x w = Ret a w' -> a = x /\ w' = w.
Proof. unfold ret. intros H. inversion H. split; reflexivity. Qed.

Lemma check_Ret (failed : bool) (msg : string) w (a : unit) w' :
  (if failed then panic_ msg else ret tt) w = Ret a w' -> failed = false /\ w' = w.
Proof.
  destruct failed; [discriminate|]. unfold ret. intros H. inversion H.
  split; reflexivity.
Qed.

Lemma assert_Ret (holds : bool) (expr : string) w (a : unit) w' :
  assert_ holds expr w = Ret a w' -> holds = true /\ w' = w.
Proof.
  unfold assert_. destruct holds; [|discriminate]. unfold ret. intros H.
  inversion H. split; reflexivity.
Qed.

End Runs.

Lemma R_FAILED_false rc : R_FAILED rc = false -> rc = 0.
Proof. unfold R_FAILED. intros H. apply negb_false_iff, Z.eqb_eq in H. exact H. Qed.

Lemma trace_emit e w : trace (emit e w) = trace w ++ [e].
Proof. reflexivity. Qed.

Lemma trace_set_s_Handle h w : trace (set_s_Handle h w) = trace w.
Proof. reflexivity. Qed.

(** Take a returning run apart, call by call. *)
Ltac run_step H :=
  match type of H with
  | bind _ _ _ = Ret _ _ =>
      let a := fresh "a" in let w1 := fresh "w" in
      let H1 := fresh "Hrun" in
      apply bind_Ret in H; destruct H as (a & w1 & H1 & H)
  | call _ _ _ = Ret _ _ =>
      let E := fresh "E" in
      apply call_Ret in H; destruct H as [E H]; cbn beta in E, H
  | assert_ _ _ _ = Ret _ _ =>
      let E := fresh "E" in
      apply assert_Ret in H; destruct H as [E H]
  | (if _ then panic_ _ else ret tt) _ = Ret _ _ =>
      let E := fresh "E" in
      apply check_Ret in H; destruct H as [E H]
  | ret _ _ = Ret _ _ =>
      let E := fresh "E" in
      apply ret_Ret in H; destruct H as [E H]
  end.

Ltac run_all :=
  repeat match goal with
         | H : _ = Ret _ _ |- _ => run_step H
         end.

Section HandleFacts.

Variable K : kernel.

Import proc_handle.

Lemma GetViaMesosphere_Ret w rc w' :
  GetViaMesosphere K w = Ret rc w' ->
  let r := k_svcGetInfo K w InfoType_MesosphereCurrentProcess INVALID_HANDLE 0 in
  trace w' = trace w ++
    [svcGetInfo_ev InfoType_MesosphereCurrentProcess INVALID_HANDLE 0 (fst r) (snd r)].
Proof.
  intros H. cbv zeta. unfold GetViaMesosphere in H.
  apply bind_Ret in H. destruct H as (r & w0 & Hc & H).
  apply call_Ret in Hc. destruct Hc as [-> ->].
  destruct (R_FAILED _).
  - apply ret_Ret in H. destruct H as [_ ->]. reflexivity.
  - apply bind_Ret in H. destruct H as (u & w2 & Hp & H).
    unfold put_s_Handle in Hp. inversion Hp. subst.
    apply ret_Ret in H. destruct H as [_ ->]. reflexivity.
Qed.

Lemma GetViaIpcTrick_Ret w u w' :
  GetViaIpcTrick K w = Ret u w' ->
  exists evs, trace w' = trace w ++ evs /\
    Forall (fun e => is_handle_call e = true /\ succeeded e = true) evs.
Proof.
  unfold GetViaIpcTrick, ReceiveProcessHandleThreadMain. intros H.
  run_all.
  repeat match goal with
         | E : R_FAILED _ = false |- _ => apply R_FAILED_false in E
         | E : put_s_Handle _ _ = Ret _ _ |- _ => unfold put_s_Handle in E; inversion E; clear E
         end.
  subst. cbn [trace emit set_s_Handle]. rewrite <- !app_assoc. cbn [app].
  eexists. split; [reflexivity|].
  repeat (apply Forall_cons; [split; [reflexivity | cbn [succeeded]; try reflexivity]|]);
    try apply Forall_nil;
    repeat match goal with
           | E : _ = 0 |- _ => rewrite E
           end; reflexivity.
Qed.

(** A returning [Get]: the handle it returns is the cached one, it leaves
    the world alone when a handle was cached, and otherwise starts with the
    fast path. *)
Lemma Get_Ret w h w' :
  Get K w = Ret h w' ->
  h = s_Handle w' /\
  (s_Handle w <> INVALID_HANDLE -> w' = w) /\
  exists evs, trace w' = trace w ++ evs /\
    Forall (fun e => is_handle_call e = true /\ succeeded e = true) evs /\
    (s_Handle w = INVALID_HANDLE ->
     let r := k_svcGetInfo K w InfoType_MesosphereCurrentProcess INVALID_HANDLE 0 in
     exists evs',
       evs = svcGetInfo_ev InfoType_MesosphereCurrentProcess INVALID_HANDLE 0
               (fst r) (snd r) :: evs').
Proof.
  unfold Get. intros H.
  apply bind_Ret in H. destruct H as (h0 & w0 & H0 & H).
  unfold get_s_Handle in H0. inversion H0. subst h0 w0. clear H0.
  apply bind_Ret in H. destruct H as (u & w1 & H1 & H).
  unfold get_s_Handle in H. inversion H. subst h w'. clear H.
  split; [reflexivity|].
  destruct (s_Handle w =? INVALID_HANDLE) eqn:E.
  - apply Z.eqb_eq in E. split; [intros Hne; contradiction|].
    apply bind_Ret in H1. destruct H1 as (rc & w2 & H2 & H1).
    pose proof (GetViaMesosphere_Ret _ _ _ H2) as Ht. cbv zeta in Ht.
    destruct (R_FAILED rc).
    + destruct (GetViaIpcTrick_Ret _ _ _ H1) as (evs & Hevs & Hall).
      eexists. split; [rewrite Hevs, Ht, <- app_assoc; reflexivity|].
      split.
      * cbn [app]. apply Forall_cons; [split; reflexivity | exact Hall].
      * intros _. eexists. reflexivity.
    + apply ret_Ret in H1. destruct H1 as [_ ->].
      eexists. split; [exact Ht|]. split.
      * apply Forall_cons; [split; reflexivity | constructor].
      * intros _. eexists. reflexivity.
  - apply Z.eqb_neq in E. apply ret_Ret in H1. destruct H1 as [_ ->].
    split; [reflexivity|].
    exists []. split; [symmetry; apply app_nil_r|].
    split; [constructor | intros Hi; contradiction].
Qed.

(** C5: when a call of [Get] has returned a valid handle, the next call
    returns the same handle and leaves the world, trace included, as it
    was: no kernel call is made again.  The first call, when no handle was
    cached, starts the acquisition with the fast path. *)
Theorem Get_twice (w : world) (h : Z) (w1 : world) :
  Get K w = Ret h w1 -> h <> INVALID_HANDLE ->
  Get K w1 = Ret h w1 /\
  (s_Handle w = INVALID_HANDLE ->
   let r := k_svcGetInfo K w InfoType_MesosphereCurrentProcess INVALID_HANDLE 0 in
   exists evs,
     trace w1 = trace w ++
       svcGetInfo_ev InfoType_MesosphereCurrentProcess INVALID_HANDLE 0
         (fst r) (snd r) :: evs).
Proof.
  intros H Hvalid.
  destruct (Get_Ret _ _ _ H) as (Hh & _ & evs & Ht & _ & Hfirst).
  split.
  - unfold Get, bind, get_s_Handle. rewrite <- Hh.
    destruct (h =? INVALID_HANDLE) eqn:E; [apply Z.eqb_eq in E; contradiction|].
    unfold ret. rewrite <- Hh. reflexivity.
  - intros Hi. destruct (Hfirst Hi) as (evs' & ->). exists evs'. exact Ht.
Qed.

End HandleFacts.

(** Both acquisition paths of the demo kernel. *)
Lemma Get_twice_witness :
  (proc_handle.Get Demo.K2
     (world_of (proc_handle.Get Demo.K2 initial_world))
   = proc_handle.Get Demo.K2 initial_world) /\
  (let K := Demo.kernel_of Demo.two_blocks false in
   proc_handle.Get K (world_of (proc_handle.Get K initial_world))
   = Ret 0xD00D (world_of (proc_handle.Get K initial_world))).
Proof.
  split.
  - refine (proj1 (Get_twice Demo.K2 initial_world 0xBEEF _ _ _)).
    + vm_compute. reflexivity.
    + discriminate.
  - refine (proj1 (Get_twice (Demo.kernel_of Demo.two_blocks false)
                     initial_world 0xD00D _ _ _)).
    + vm_compute. reflexivity.
    + discriminate.
Defined.

(** ** Runs of the walk, whatever the kernel answers *)

Section LoopRuns.

Variable K : kernel.

(** A returning walk has made queries that succeeded and at least one
    callback. *)
Lemma loop_Ret (P : event -> Prop) (R : event -> bool)
    (callback : Z -> Z -> Z -> M unit) :
  (forall q b, P (svcQueryMemory_ev q 0 b)) ->
  (forall a l o w u w', callback a l o w = Ret u w' ->
     exists e, w' = emit e w /\ P e /\ R e = true) ->
  forall fuel start_address end_ m w u w',
    ForEachMemRange_loop K fuel callback start_address end_ m w = Ret u w' ->
    exists evs, trace w' = trace w ++ evs /\ Forall P evs /\ existsb R evs = true.
Proof.
  intros HP Hcb. induction fuel as [|fuel IH]; intros s e m w u w' H; [discriminate|].
  cbn [ForEachMemRange_loop] in H.
  apply bind_Ret in H. destruct H as (r & w1 & Hq & H).
  unfold svcQueryMemory in Hq. apply call_Ret in Hq. destruct Hq as [-> ->].
  apply bind_Ret in H. destruct H as (u1 & w2 & Hc & H).
  apply check_Ret in Hc. destruct Hc as [Hrc ->]. apply R_FAILED_false in Hrc.
  apply bind_Ret in H. destruct H as (u2 & w3 & Hcall & H).
  destruct (Hcb _ _ _ _ _ _ Hcall) as (ev & -> & Hev & HR).
  set (qev := svcQueryMemory_ev _ _ _) in *.
  assert (Hqev : P qev).
  { unfold qev. rewrite Hrc. apply HP. }
  destruct (_ <? _).
  - destruct (IH _ _ _ _ _ _ H) as (evs & Ht & Hall & Hex).
    exists (qev :: ev :: evs). split; [|split].
    + rewrite Ht. cbn [trace emit]. rewrite <- !app_assoc. reflexivity.
    + repeat constructor; assumption.
    + cbn [existsb]. rewrite HR, orb_true_r. reflexivity.
  - apply ret_Ret in H. destruct H as [_ ->].
    exists [qev; ev]. split; [|split].
    + cbn [trace emit]. rewrite <- !app_assoc. reflexivity.
    + repeat constructor; assumption.
    + cbn [existsb]. rewrite HR, orb_true_r. reflexivity.
Qed.

Lemma map_block_Ret alignedRw procHandle a l o w u w' :
  map_block K alignedRw procHandle a l o w = Ret u w' ->
  exists e, w' = emit e w /\
    ((is_query e || is_map e = true) /\ succeeded e = true) /\ is_map e = true.
Proof.
  unfold map_block. intros H.
  apply bind_Ret in H. destruct H as (rc & w1 & Hc & H).
  apply call_Ret in Hc. destruct Hc as [-> ->].
  apply check_Ret in H. destruct H as [Hrc ->]. apply R_FAILED_false in Hrc.
  eexists. split; [reflexivity|]. rewrite Hrc. repeat split.
Qed.

Lemma unmap_block_Ret claim procHandle a l o w u w' :
  unmap_block K claim procHandle a l o w = Ret u w' ->
  exists e, w' = emit e w /\
    ((is_query e || is_unmap e = true) /\ succeeded e = true) /\ is_unmap e = true.
Proof.
  unfold unmap_block. intros H.
  apply bind_Ret in H. destruct H as (rc & w1 & Hc & H).
  apply call_Ret in Hc. destruct Hc as [-> ->].
  apply check_Ret in H. destruct H as [Hrc ->]. apply R_FAILED_false in Hrc.
  eexists. split; [reflexivity|]. rewrite Hrc. repeat split.
Qed.

Lemma existsb_maps_of evs : existsb is_map evs = true -> maps_of evs <> [].
Proof.
  induction evs as [|e evs IH]; [discriminate|].
  cbn [existsb maps_of flat_map]. destruct e; cbn [is_map orb app]; try exact IH.
  intros _. discriminate.
Qed.

Lemma existsb_unmaps_of evs : existsb is_unmap evs = true -> unmaps_of evs <> [].
Proof.
  induction evs as [|e evs IH]; [discriminate|].
  cbn [existsb unmaps_of flat_map]. destruct e; cbn [is_unmap orb app]; try exact IH.
  intros _. discriminate.
Qed.

Lemma maps_of_app l1 l2 : maps_of (l1 ++ l2) = maps_of l1 ++ maps_of l2.
Proof. unfold maps_of. apply flat_map_app. Qed.

Lemma unmaps_of_app l1 l2 : unmaps_of (l1 ++ l2) = unmaps_of l1 ++ unmaps_of l2.
Proof. unfold unmaps_of. apply flat_map_app. Qed.

(** [memcmp] answers zero only when the bytes agree. *)
Lemma memcmp_from_zero w n : forall p q,
  memcmp_from K w p q n = 0 ->
  forall k, 0 <= k < Z.of_nat n -> k_load K w (p + k) = k_load K w (q + k).
Proof.
  induction n as [|n IH]; intros p q H k Hk; [lia|].
  cbn [memcmp_from] in H.
  destruct (k_load K w p =? k_load K w q) eqn:E.
  - apply Z.eqb_eq in E.
    destruct (Z.eq_dec k 0) as [-> | Hne]; [rewrite !Z.add_0_r; exact E|].
    specialize (IH _ _ H (k - 1) ltac:(lia)).
    replace (p + 1 + (k - 1)) with (p + k) in IH by lia.
    replace (q + 1 + (k - 1)) with (q + k) in IH by lia.
    exact IH.
  - apply Z.eqb_neq in E. lia.
Qed.

(** What a returning constructor has done. *)
Lemma RwPages_ctor_Ret fuel ro sz w p w' :
  RwPages_ctor K fuel ro sz w = Ret p w' ->
  let c0 := {| m_Ro := ro; m_Rw := 0; m_RwReserve := 0; m_Size := sz |} in
  let alignedRw := k_virtmemFindAslr K w (GetAlignedSize c0) 0 in
  let rw := wrap64 (alignedRw + wrap64 (ro - GetAlignedRo c0)) in
  exists reserve pre walk,
    alignedRw <> 0 /\ reserve <> 0 /\
    p = {| m_Claim := {| m_Ro := ro; m_Rw := rw;
                         m_RwReserve := reserve; m_Size := sz |};
           m_Owner := true |} /\
    trace w' = trace w ++
      virtmemFindAslr_ev (GetAlignedSize c0) 0 alignedRw ::
      virtmemAddReservation_ev alignedRw (GetAlignedSize c0) reserve ::
      pre ++ walk /\
    Forall (fun e => is_handle_call e = true /\ succeeded e = true) pre /\
    Forall (fun e => (is_query e || is_map e = true) /\ succeeded e = true) walk /\
    maps_of walk <> [] /\
    memcmp_from K w' ro rw (Z.to_nat sz) = 0.
Proof.
  intros H c0 alignedRw rw. unfold RwPages_ctor in H.
  apply bind_Ret in H. destruct H as (a & w1 & Hc & H).
  apply call_Ret in Hc. destruct Hc as [-> ->]. fold c0 alignedRw in H.
  apply bind_Ret in H. destruct H as (u1 & w2 & Hc & H).
  apply assert_Ret in Hc. destruct Hc as [Ha ->].
  apply negb_true_iff, Z.eqb_neq in Ha.
  apply bind_Ret in H. destruct H as (reserve & w3 & Hc & H).
  apply call_Ret in Hc. destruct Hc as [Hres ->].
  apply bind_Ret in H. destruct H as (u2 & w4 & Hc & H).
  apply assert_Ret in Hc. destruct Hc as [Hr ->].
  apply negb_true_iff, Z.eqb_neq in Hr.
  apply bind_Ret in H. destruct H as (h & w5 & Hget & H).
  destruct (Get_Ret K _ _ _ Hget) as (_ & _ & pre & Hpre & Hpre_all & _).
  apply bind_Ret in H. destruct H as (u3 & w6 & Hwalk & H).
  unfold ForEachMemRange in Hwalk.
  destruct (loop_Ret (fun e => (is_query e || is_map e = true) /\ succeeded e = true)
              is_map (map_block K alignedRw h)
              ltac:(intros; split; reflexivity)
              (map_block_Ret alignedRw h) _ _ _ _ _ _ _ Hwalk)
    as (walk & Hwalk_t & Hwalk_all & Hmaps).
  apply bind_Ret in H. destruct H as (c & w7 & Hcmp & H).
  unfold memcmp in Hcmp. inversion Hcmp. subst c w7. clear Hcmp.
  apply bind_Ret in H. destruct H as (u4 & w8 & Hc & H).
  apply assert_Ret in Hc. destruct Hc as [Hzero ->]. apply Z.eqb_eq in Hzero.
  apply ret_Ret in H. destruct H as [-> ->].
  exists reserve, pre, walk.
  split; [exact Ha|]. split; [exact Hr|]. split; [reflexivity|].
  split.
  { rewrite Hwalk_t, Hpre. cbn [trace emit]. rewrite <- Hres.
    rewrite <- !app_assoc. reflexivity. }
  split; [exact Hpre_all|]. split; [exact Hwalk_all|].
  split; [apply existsb_maps_of; exact Hmaps|]. exact Hzero.
Qed.

End LoopRuns.

(** ** The constructor *)

Lemma bind_ext {A B : Type} (m : M A) (k k' : A -> M B) w :
  (forall a w1, k a w1 = k' a w1) -> bind m k w = bind m k' w.
Proof. intros H. unfold bind. destruct (m w); [apply H | reflexivity ..]. Qed.

Lemma match_bind {A B C : Type} (m : M A) (k : A -> M B)
    (F : B -> world -> outcome C) w :
  match bind m k w with
  | Ret b w2 => F b w2
  | Panic msg w2 => Panic msg w2
  | OutOfFuel w2 => OutOfFuel w2
  end
  = bind m (fun a w1 => match k a w1 with
                        | Ret b w2 => F b w2
                        | Panic msg w2 => Panic msg w2
                        | OutOfFuel w2 => OutOfFuel w2
                        end) w.
Proof. unfold bind. destruct (m w); reflexivity. Qed.

Lemma RwPages_ctor_split K fuel ro sz w :
  RwPages_ctor K fuel ro sz w =
  match RwPages_ctor_mapped K fuel ro sz w with
  | Ret ar w1 =>
      let c0 := {| m_Ro := ro; m_Rw := 0; m_RwReserve := snd ar; m_Size := sz |} in
      let rw := wrap64 (fst ar + wrap64 (ro - GetAlignedRo c0)) in
      if memcmp_from K w1 ro rw (Z.to_nat sz) =? 0
      then Ret {| m_Claim := {| m_Ro := ro; m_Rw := rw;
                                m_RwReserve := snd ar; m_Size := sz |};
                  m_Owner := true |} w1
      else Panic memcmp_assertion w1
  | Panic msg w1 => Panic msg w1
  | OutOfFuel w1 => OutOfFuel w1
  end.
Proof.
  unfold RwPages_ctor, RwPages_ctor_mapped.
  repeat (rewrite match_bind; apply bind_ext; intros; cbv beta).
  unfold ret at 2. unfold bind, memcmp, assert_, ret. cbn [fst snd m_Ro m_Rw].
  fold memcmp_assertion.
  destruct (_ =? 0); reflexivity.
Qed.

Lemma RwPages_ctor_mapped_with_load load K fuel ro sz w :
  RwPages_ctor_mapped (with_load load K) fuel ro sz w = RwPages_ctor_mapped K fuel ro sz w.
Proof. reflexivity. Qed.


(** C2: when the constructor returns, the [size] bytes at [ro] and at the
    mirror's [rw] are the same, the claim has all its fields (the range, a
    reservation that is not null, ownership) and every call of the
    construction whose failure is fatal has succeeded: the address-space
    search, the reservation, the queries, the maps, and at least one map was
    made.  Had the mirror shown other bytes at the moment of the check (the
    same kernel with another memory content), the same construction would
    have ended in the panic of the [memcmp] assertion.  A failure of the
    address-space search, the reservation, a query or a map ends in the
    panic too, as the kernels of [Demo] show; the outcome type has no error
    value. *)
Theorem RwPages_ctor_verified :
  (forall (K : kernel) (fuel : nat) (ro sz : Z) (w : world) (p : RwPages) (w' : world),
      RwPages_ctor K fuel ro sz w = Ret p w' ->
      let c := m_Claim p in
      (forall k, 0 <= k < sz -> k_load K w' (ro + k) = k_load K w' (m_Rw c + k)) /\
      m_Ro c = ro /\ m_Size c = sz /\ m_RwReserve c <> 0 /\ m_Owner p = true /\
      exists alignedRw evs,
        alignedRw <> 0 /\
        m_Rw c = wrap64 (alignedRw + wrap64 (ro - GetAlignedRo c)) /\
        trace w' = trace w ++ evs /\
        Forall (fun e => succeeded e = true) evs /\
        In (virtmemFindAslr_ev (GetAlignedSize c) 0 alignedRw) evs /\
        In (virtmemAddReservation_ev alignedRw (GetAlignedSize c) (m_RwReserve c)) evs /\
        maps_of evs <> [])
  /\
  (forall (K : kernel) (load : world -> Z -> Z) (fuel : nat) (ro sz : Z)
          (w : world) (p : RwPages) (w' : world),
      RwPages_ctor K fuel ro sz w = Ret p w' ->
      (exists k, 0 <= k < sz /\
                 load w' (ro + k) <> load w' (m_Rw (m_Claim p) + k)) ->
      RwPages_ctor (with_load load K) fuel ro sz w = Panic memcmp_assertion w')
  /\
  panics_with (RwPages_ctor Demo.K_no_space 2 Demo.code_base 0x3000 initial_world)
    "Assertion failed: alignedRw != 0" /\
  panics_with (RwPages_ctor Demo.K_no_reservation 2 Demo.code_base 0x3000 initial_world)
    "Assertion failed: reserve != NULL" /\
  panics_with (RwPages_ctor Demo.K_no_blocks 2 Demo.code_base 0x3000 initial_world)
    "svcQueryMemory failed." /\
  panics_with (RwPages_ctor Demo.K_no_map 2 Demo.code_base 0x3000 initial_world)
    "svcMapProcessMemory failed." /\
  panics_with (RwPages_ctor Demo.K_corrupt 2 Demo.code_base 0x3000 initial_world)
    "Assertion failed: memcmp((void*)claim.m_Ro, (void*)claim.m_Rw, size) == 0".
Proof.
  split; [|split; [|repeat split; vm_compute; reflexivity]].
  2: {
    intros K load fuel ro sz w p w' H (k & Hk & Hdiff).
    rewrite RwPages_ctor_split in H |- *.
    rewrite RwPages_ctor_mapped_with_load.
    destruct (RwPages_ctor_mapped K fuel ro sz w) as [ar w1 | |]; try discriminate H.
    cbv zeta in H |- *.
    destruct (memcmp_from K w1 _ _ _ =? 0); [|discriminate H].
    inversion H. subst p w'. clear H. cbn [m_Claim m_Rw] in Hdiff.
    destruct (memcmp_from (with_load load K) w1 _ _ _ =? 0) eqn:E; [|reflexivity].
    exfalso. apply Hdiff. apply Z.eqb_eq in E.
    apply (memcmp_from_zero (with_load load K) w1 (Z.to_nat sz) _ _ E). lia. }
  intros K fuel ro sz w p w' H.
  destruct (RwPages_ctor_Ret K _ _ _ _ _ _ H)
    as (reserve & pre & walk & Ha & Hr & -> & Ht & Hpre & Hwalk & Hmaps & Hcmp).
  cbn [m_Claim m_Ro m_Rw m_Size m_RwReserve m_Owner].
  split.
  { intros k Hk. apply (memcmp_from_zero K w' (Z.to_nat sz) _ _ Hcmp). lia. }
  split; [reflexivity|]. split; [reflexivity|]. split; [exact Hr|].
  split; [reflexivity|].
  eexists. eexists.
  split; [exact Ha|]. split; [reflexivity|]. split; [exact Ht|].
  split.
  { apply Forall_cons; [cbn; apply negb_true_iff, Z.eqb_neq; exact Ha|].
    apply Forall_cons; [cbn; apply negb_true_iff, Z.eqb_neq; exact Hr|].
    apply Forall_app. split.
    - eapply Forall_impl; [|exact Hpre]. cbn. tauto.
    - eapply Forall_impl; [|exact Hwalk]. cbn. tauto. }
  split; [left; reflexivity|]. split; [right; left; reflexivity|].
  change (?a :: ?b :: pre ++ walk) with ([a; b] ++ pre ++ walk).
  rewrite !maps_of_app. intros E.
  apply app_eq_nil in E. destruct E as [_ E].
  apply app_eq_nil in E. destruct E as [_ E]. contradiction.
Qed.

(** A range inside the three pages of the demo kernel. *)
Lemma RwPages_ctor_verified_witness :
  exists p w',
    RwPages_ctor Demo.K2 2 (Demo.code_base + 0x10) 0x2ff0 initial_world = Ret p w' /\
    k_load Demo.K2 w' (Demo.code_base + 0x10 + 0x2001)
    = k_load Demo.K2 w' (m_Rw (m_Claim p) + 0x2001).
Proof.
  destruct (RwPages_ctor Demo.K2 2 (Demo.code_base + 0x10) 0x2ff0 initial_world)
    as [p w' | msg w' | w'] eqn:H.
  - exists p, w'. split; [reflexivity|].
    refine (proj1 (proj1 RwPages_ctor_verified Demo.K2 2%nat _ _ _ p w' H) 0x2001 _).
    split; [discriminate | reflexivity].
  - vm_compute in H. discriminate H.
  - vm_compute in H. discriminate H.
Defined.

(** ** The destructor *)

Section Teardown.

Variable K : kernel.

Lemma Get_cached w :
  s_Handle w <> INVALID_HANDLE -> proc_handle.Get K w = Ret (s_Handle w) w.
Proof.
  intros H. unfold proc_handle.Get, bind, get_s_Handle.
  destruct (s_Handle w =? INVALID_HANDLE) eqn:E; [apply Z.eqb_eq in E; contradiction|].
  reflexivity.
Qed.

(** What the unmapping callback leaves in the trace over known blocks, when
    the kernel grants every unmap. *)
Lemma visit_unmap_block claim h start_address end_ q bs w :
  (forall w0 dst proc src sz, k_svcUnmapProcessMemory K w0 dst proc src sz = 0) ->
  exists evs,
    visit_blocks (unmap_block K claim h) start_address end_ q bs w
      = Ret tt (extend evs w) /\
    unmaps_of evs =
      map (fun b => let '(a, l, o) := clip start_address end_ b in
                    (wrap64 (GetAlignedRw claim + o), a, l)) bs /\
    queried_of evs = bs /\
    Forall (fun e => (is_query e || is_unmap e = true) /\ succeeded e = true) evs.
Proof.
  intros Hok. revert q w. induction bs as [|b bs IH]; intros q w.
  - exists []. cbn. unfold ret, extend. rewrite app_nil_r. destruct w.
    repeat split. constructor.
  - cbn [visit_blocks]. unfold bind. unfold call at 1.
    destruct (clip start_address end_ b) as [[a l] o] eqn:Hclip.
    unfold unmap_block at 1, bind, call. rewrite Hok. cbn [R_FAILED Z.eqb negb ret].
    match goal with |- context [visit_blocks _ _ _ _ _ ?w1] =>
      destruct (IH (block_end b) w1) as (evs & Hrun & Hun & Hq & Hall) end.
    exists (svcQueryMemory_ev q 0 b ::
            svcUnmapProcessMemory_ev (wrap64 (GetAlignedRw claim + o)) h a l 0 :: evs).
    rewrite Hrun. cbn [unmaps_of queried_of flat_map app map].
    fold (unmaps_of evs). fold (queried_of evs). rewrite Hun, Hq, Hclip.
    split; [|split; [reflexivity | split; [reflexivity|]]].
    + unfold extend, emit. cbn. rewrite <- !app_assoc. reflexivity.
    + repeat (apply Forall_cons; [split; reflexivity|]). exact Hall.
Qed.

Lemma GetAlignedRo_nonneg c : 0 <= GetAlignedRo c.
Proof.
  unfold GetAlignedRo. rewrite ALIGN_DOWN_page.
  pose proof (wrap64_range (m_Ro c)).
  pose proof (Z.mod_le (wrap64 (m_Ro c)) 0x1000 ltac:(lia) ltac:(lia)). lia.
Qed.

Lemma GetAlignedSize_nonneg c : 0 <= GetAlignedSize c.
Proof. unfold GetAlignedSize. apply ALIGN_UP_page_range. Qed.

(** C4: the destructor of a claim that does not own the mirror returns at
    once and leaves the world, trace included, untouched: no flush, no
    unmap, no release.  The destructor of the owner, when it returns, has
    flushed the data cache over [rw], invalidated the instruction cache
    over [ro], then made only handle, query and unmap calls (at least one
    unmap), and last released the reservation: each of the three once.
    Over known backing blocks, with the handle cached, it does return, with
    one unmap per visited block, at the block's offset in the mirror. *)
Theorem RwPages_dtor_owner_only :
  (forall (fuel : nat) (this : RwPages) (w : world),
      m_Owner this = false -> RwPages_dtor K fuel this w = Ret tt w)
  /\
  (forall (fuel : nat) (this : RwPages) (w : world) (u : unit) (w' : world),
      m_Owner this = true ->
      RwPages_dtor K fuel this w = Ret u w' ->
      let c := m_Claim this in
      exists mid,
        trace w' = trace w ++
          armDCacheFlush_ev (m_Rw c) (m_Size c) ::
          armICacheInvalidate_ev (m_Ro c) (m_Size c) ::
          mid ++ [virtmemRemoveReservation_ev (m_RwReserve c)] /\
        Forall (fun e => (is_handle_call e || is_query e || is_unmap e = true)
                         /\ succeeded e = true) mid /\
        unmaps_of mid <> [])
  /\
  (forall (bs : list MemoryInfo) (fuel : nat) (this : RwPages) (w : world),
      let c := m_Claim this in
      let end_ := GetAlignedRo c + GetAlignedSize c in
      m_Owner this = true ->
      s_Handle w <> INVALID_HANDLE ->
      chained bs -> answers K bs -> end_ < 2 ^ 64 ->
      covers bs (GetAlignedRo c) end_ ->
      (forall w0 dst proc src sz, k_svcUnmapProcessMemory K w0 dst proc src sz = 0) ->
      (List.length bs <= fuel)%nat ->
      exists mid,
        RwPages_dtor K fuel this w =
          Ret tt (extend (armDCacheFlush_ev (m_Rw c) (m_Size c) ::
                          armICacheInvalidate_ev (m_Ro c) (m_Size c) ::
                          mid ++ [virtmemRemoveReservation_ev (m_RwReserve c)]) w) /\
        queried_of mid = visited (GetAlignedRo c) end_ bs /\
        unmaps_of mid =
          map (fun b => let '(a, l, o) := clip (GetAlignedRo c) end_ b in
                        (wrap64 (GetAlignedRw c + o), a, l))
              (visited (GetAlignedRo c) end_ bs)).
Proof.
  split; [|split].
  - intros fuel this w Hno. unfold RwPages_dtor. rewrite Hno. reflexivity.
  - intros fuel this w u w' Hown H c. unfold RwPages_dtor in H.
    rewrite Hown in H. cbn [negb] in H. fold c in H.
    apply bind_Ret in H. destruct H as (u1 & w1 & Hc & H).
    apply call_Ret in Hc. destruct Hc as [_ ->].
    apply bind_Ret in H. destruct H as (u2 & w2 & Hc & H).
    apply call_Ret in Hc. destruct Hc as [_ ->].
    apply bind_Ret in H. destruct H as (h & w3 & Hget & H).
    destruct (Get_Ret K _ _ _ Hget) as (_ & _ & pre & Hpre & Hpre_all & _).
    apply bind_Ret in H. destruct H as (u3 & w4 & Hwalk & H).
    unfold ForEachMemRange in Hwalk.
    destruct (loop_Ret K (fun e => (is_query e || is_unmap e = true) /\ succeeded e = true)
                is_unmap (unmap_block K c h)
                ltac:(intros; split; reflexivity)
                (unmap_block_Ret K c h) _ _ _ _ _ _ _ Hwalk)
      as (walk & Hwalk_t & Hwalk_all & Hun).
    apply call_Ret in H. destruct H as [_ ->].
    exists (pre ++ walk). split; [|split].
    + cbn [trace emit]. rewrite Hwalk_t, Hpre. cbn [trace emit].
      rewrite <- !app_assoc. reflexivity.
    + apply Forall_app. split.
      * eapply Forall_impl; [|exact Hpre_all]. cbn. intros e [E1 E2].
        rewrite E1. split; [reflexivity | exact E2].
      * eapply Forall_impl; [|exact Hwalk_all]. cbn. intros e [E1 E2].
        split; [|exact E2]. rewrite <- orb_assoc, E1. apply orb_true_r.
    + rewrite unmaps_of_app. intros E. apply app_eq_nil in E.
      destruct E as [_ E]. exact (existsb_unmaps_of _ Hun E).
  - intros bs fuel this w c end_ Hown Hh Hc Hans Hfit Hcov Hok Hfuel.
    unfold RwPages_dtor. rewrite Hown. cbn [negb]. fold c.
    unfold bind at 1. unfold call at 1.
    unfold bind at 1. unfold call at 1.
    unfold bind at 1. rewrite Get_cached by exact Hh.
    unfold bind at 1.
    rewrite (ForEachMemRange_visits K (GetAlignedRo c) _ bs (GetAlignedSize c) fuel);
      try assumption;
      [|apply GetAlignedRo_nonneg | apply GetAlignedSize_nonneg].
    fold end_.
    match goal with |- context [visit_blocks ?cb ?s ?e ?q ?l ?w1] =>
      destruct (visit_unmap_block c (s_Handle w) s e q l w1 Hok)
        as (mid & Hrun & Hun & Hq & _) end.
    cbn [s_Handle emit] in Hrun |- *. rewrite Hrun.
    exists mid. split; [|split; assumption].
    unfold call, extend, emit. cbn. rewrite <- !app_assoc. reflexivity.
Qed.

End Teardown.

(** A copy that does not own the mirror of the demo kernel, and the owner. *)
Lemma RwPages_dtor_owner_only_witness :
  let c := {| m_Ro := Demo.code_base + 0x10; m_Rw := 0x7100000010;
              m_RwReserve := 0x7100000008; m_Size := 0x2ff0 |} in
  let w := set_s_Handle 0xBEEF initial_world in
  RwPages_dtor Demo.K2 2 {| m_Claim := c; m_Owner := false |} w = Ret tt w /\
  exists mid,
    RwPages_dtor Demo.K2 2 {| m_Claim := c; m_Owner := true |} w =
      Ret tt (extend (armDCacheFlush_ev 0x7100000010 0x2ff0 ::
                      armICacheInvalidate_ev (Demo.code_base + 0x10) 0x2ff0 ::
                      mid ++ [virtmemRemoveReservation_ev 0x7100000008]) w) /\
    unmaps_of mid = [(0x7100000000, Demo.code_base, 0x2000);
                     (0x7100002000, Demo.code_base + 0x2000, 0x1000)].
Proof.
  intros c w. split.
  - exact (proj1 (RwPages_dtor_owner_only Demo.K2) 2%nat
             {| m_Claim := c; m_Owner := false |} w eq_refl).
  - assert (Hc : chained Demo.two_blocks).
    { apply two_blocks_chained; [discriminate | reflexivity]. }
    destruct (proj2 (proj2 (RwPages_dtor_owner_only Demo.K2)) Demo.two_blocks 2%nat
                {| m_Claim := c; m_Owner := true |} w eq_refl)
      as (mid & Hrun & _ & Hun).
    + discriminate.
    + exact Hc.
    + exact (demo_answers _ _ Hc).
    + reflexivity.
    + split.
      * exists {| addr := Demo.code_base; size := 0x2000 |}.
        split; [left; reflexivity|]. vm_compute. split; [discriminate | reflexivity].
      * exists {| addr := Demo.code_base + 0x2000; size := 0x1000 |}.
        split; [right; left; reflexivity|]. vm_compute. discriminate.
    + reflexivity.
    + apply le_n.
    + exists mid. split; [exact Hrun|]. rewrite Hun. vm_compute. reflexivity.
Defined.

(** ** The body of the walk runs before its test *)

Section BodyFirst.

Variable K : kernel.

(** Whatever the outcome, the walk with the recording callback only adds to
    the trace. *)
Lemma loop_record_grows fuel : forall start_address end_ m w,
  exists evs,
    trace (world_of (ForEachMemRange_loop K fuel record_call start_address end_ m w))
    = trace w ++ evs.
Proof.
  induction fuel as [|fuel IH]; intros s e m w.
  - exists []. cbn. symmetry. apply app_nil_r.
  - cbn [ForEachMemRange_loop]. unfold bind at 1. unfold svcQueryMemory, call at 1.
    unfold bind at 1.
    destruct (R_FAILED _).
    + cbn. eexists. reflexivity.
    + cbn [ret]. unfold bind at 1. rewrite record_call_run.
      destruct (_ <? _).
      * match goal with |- context [ForEachMemRange_loop K fuel _ ?s' ?e' ?m' ?w'] =>
          destruct (IH s' e' m' w') as (evs & Hevs) end.
        rewrite Hevs. cbn [trace emit]. rewrite <- !app_assoc. eexists. reflexivity.
      * cbn. rewrite <- !app_assoc. eexists. reflexivity.
Qed.

Lemma maps_of_handle_calls evs :
  Forall (fun e => is_handle_call e = true /\ succeeded e = true) evs ->
  maps_of evs = [].
Proof.
  induction 1 as [|e evs [He _] _ IH]; [reflexivity|].
  cbn [maps_of flat_map]. fold (maps_of evs). rewrite IH.
  destruct e; try discriminate He; reflexivity.
Qed.

(** The walk of a returning constructor. *)
Lemma RwPages_ctor_walk fuel ro sz w p w' :
  RwPages_ctor K fuel ro sz w = Ret p w' ->
  let c0 := {| m_Ro := ro; m_Rw := 0; m_RwReserve := 0; m_Size := sz |} in
  let alignedRw := k_virtmemFindAslr K w (GetAlignedSize c0) 0 in
  exists h w0 pre,
    trace w0 = trace w ++ pre /\ maps_of pre = [] /\
    ForEachMemRange K fuel (map_block K alignedRw h)
      (GetAlignedRo c0) (GetAlignedSize c0) w0 = Ret tt w'.
Proof.
  intros H c0 alignedRw. unfold RwPages_ctor in H.
  apply bind_Ret in H. destruct H as (a & w1 & Hc & H).
  apply call_Ret in Hc. destruct Hc as [-> ->]. fold c0 alignedRw in H.
  apply bind_Ret in H. destruct H as (u1 & w2 & Hc & H).
  apply assert_Ret in Hc. destruct Hc as [_ ->].
  apply bind_Ret in H. destruct H as (reserve & w3 & Hc & H).
  apply call_Ret in Hc. destruct Hc as [Hres ->].
  apply bind_Ret in H. destruct H as (u2 & w4 & Hc & H).
  apply assert_Ret in Hc. destruct Hc as [_ ->].
  apply bind_Ret in H. destruct H as (h & w5 & Hget & H).
  destruct (Get_Ret K _ _ _ Hget) as (_ & _ & pre & Hpre & Hpre_all & _).
  apply bind_Ret in H. destruct H as ([] & w6 & Hwalk & H).
  apply bind_Ret in H. destruct H as (c & w7 & Hcmp & H).
  unfold memcmp in Hcmp. inversion Hcmp. subst c w7. clear Hcmp.
  apply bind_Ret in H. destruct H as (u4 & w8 & Hc & H).
  apply assert_Ret in Hc. destruct Hc as [_ ->].
  apply ret_Ret in H. destruct H as [_ ->].
  exists h, w5. eexists. split; [|split; [|exact Hwalk]].
  - rewrite Hpre. cbn [trace emit]. rewrite <- !app_assoc. reflexivity.
  - cbn [app]. cbn [maps_of flat_map app]. apply maps_of_handle_calls. exact Hpre_all.
Qed.

(** C10: with fuel for one round the walk makes its first query whatever
    the range is, and when that query succeeds the callback is invoked
    before anything is tested, also for [length = 0].  So every constructor
    that returns has made at least one map call, and for a request of size
    zero at a page-aligned address (an empty aligned range) it has made
    exactly one, of length zero. *)
Theorem ForEachMemRange_body_first :
  (forall (fuel : nat) (start_address length : Z) (w : world),
      let q := wrap64 (start_address + 0) in
      let r := k_svcQueryMemory K w q in
      exists evs,
        trace (world_of (ForEachMemRange K (S fuel) record_call start_address length w))
        = trace w ++ svcQueryMemory_ev q (fst r) (snd r) :: evs /\
        (fst r = 0 -> exists a l o evs', evs = callback_ev a l o :: evs'))
  /\
  (forall (fuel : nat) (ro sz : Z) (w : world) (p : RwPages) (w' : world),
      RwPages_ctor K fuel ro sz w = Ret p w' ->
      exists evs, trace w' = trace w ++ evs /\ maps_of evs <> [])
  /\
  (forall (fuel : nat) (ro : Z) (w : world) (p : RwPages) (w' : world),
      in_u64 ro -> ro mod PAGE_SIZE = 0 -> sane_queries K ->
      RwPages_ctor K fuel ro 0 w = Ret p w' ->
      exists evs dst,
        trace w' = trace w ++ evs /\ maps_of evs = [(dst, ro, 0)]).
Proof.
  split; [|split].
  - intros fuel s len w q r. unfold ForEachMemRange.
    cbn [ForEachMemRange_loop addr size]. fold q.
    unfold bind at 1. unfold svcQueryMemory, call at 1. fold r.
    unfold bind at 1.
    destruct (R_FAILED (fst r)) eqn:E.
    + cbn. exists []. split; [reflexivity|].
      intros Hz. rewrite Hz in E. discriminate E.
    + cbn [ret]. unfold bind at 1. rewrite record_call_run.
      destruct (_ <? _).
      * match goal with |- context [ForEachMemRange_loop K fuel _ ?s' ?e' ?m' ?w'] =>
          destruct (loop_record_grows fuel s' e' m' w') as (evs & Hevs) end.
        rewrite Hevs. cbn [trace emit]. rewrite <- !app_assoc. cbn [app].
        eexists. split; [reflexivity|]. intros _. do 4 eexists. reflexivity.
      * cbn. rewrite <- !app_assoc. cbn [app].
        eexists. split; [reflexivity|]. intros _. do 4 eexists. reflexivity.
  - intros fuel ro sz w p w' H.
    destruct (RwPages_ctor_Ret K _ _ _ _ _ _ H)
      as (reserve & pre & walk & _ & _ & _ & Ht & _ & _ & Hmaps & _).
    eexists. split; [exact Ht|].
    change (?a :: ?b :: pre ++ walk) with ([a; b] ++ pre ++ walk).
    rewrite !maps_of_app. intros E.
    apply app_eq_nil in E. destruct E as [_ E].
    apply app_eq_nil in E. destruct E as [_ E]. contradiction.
  - intros fuel ro w p w' Hro Hal Hsane H.
    destruct (RwPages_ctor_walk _ _ _ _ _ _ H) as (h & w0 & pre & Hpre & Hnomap & Hwalk).
    cbv zeta in Hwalk.
    set (c0 := {| m_Ro := ro; m_Rw := 0; m_RwReserve := 0; m_Size := 0 |}) in *.
    set (A := k_virtmemFindAslr K w (GetAlignedSize c0) 0) in *.
    assert (Hbase : GetAlignedRo c0 = ro).
    { unfold GetAlignedRo, c0. cbn [m_Ro]. rewrite ALIGN_DOWN_page, (wrap64_small ro Hro).
      change PAGE_SIZE with 0x1000 in Hal. lia. }
    assert (Hsize : GetAlignedSize c0 = 0).
    { unfold GetAlignedSize. rewrite Hbase. unfold c0. cbn [m_Ro m_Size].
      rewrite Z.sub_diag. reflexivity. }
    rewrite Hbase, Hsize in Hwalk. unfold ForEachMemRange in Hwalk.
    destruct fuel as [|fuel]; [discriminate Hwalk|].
    unfold in_u64 in Hro.
    assert (Hq : wrap64 (addr {| addr := ro; size := 0 |} + size {| addr := ro; size := 0 |})
                 = ro).
    { cbn [addr size]. rewrite Z.add_0_r. apply wrap64_small. lia. }
    assert (Hend : wrap64 (ro + 0) = ro) by (rewrite Z.add_0_r; apply wrap64_small; lia).
    rewrite Hend in Hwalk.
    destruct (k_svcQueryMemory K w0 ro) as [rc b] eqn:Hans.
    assert (Hrc : rc = 0).
    { pose proof Hwalk as Hw. cbn [ForEachMemRange_loop] in Hw.
      apply bind_Ret in Hw. destruct Hw as (r & w1 & Hqr & Hw).
      unfold svcQueryMemory in Hqr. apply call_Ret in Hqr. destruct Hqr as [-> _].
      apply bind_Ret in Hw. destruct Hw as (u1 & w2 & Hc & _).
      apply check_Ret in Hc. destruct Hc as [Hf _]. apply R_FAILED_false in Hf.
      rewrite Hq, Hans in Hf. exact Hf. }
    subst rc.
    pose proof (Hsane w0 ro) as Hb. rewrite Hans in Hb. cbn [fst snd] in Hb.
    destruct (Hb eq_refl) as (Hcont & Hb0 & Hbmax). unfold contains in Hcont.
    pose proof (loop_round K ro (map_block K A h) ro fuel
                  {| addr := ro; size := 0 |} w0 b) as Hround.
    cbv zeta in Hround. rewrite Hq in Hround.
    rewrite (Hround Hans) in Hwalk by lia. clear Hround.
    rewrite Z.min_r, !Z.sub_diag in Hwalk by lia.
    destruct (map_block K A h ro 0 0 _) as [u w2 | |] eqn:Hmap; try discriminate Hwalk.
    replace (block_end b <? ro) with false in Hwalk by (symmetry; apply Z.ltb_ge; lia).
    inversion Hwalk. subst w2. clear Hwalk.
    unfold map_block in Hmap.
    apply bind_Ret in Hmap. destruct Hmap as (rc & w3 & Hc & Hmap).
    apply call_Ret in Hc. destruct Hc as [-> ->].
    apply check_Ret in Hmap. destruct Hmap as [_ ->].
    eexists. exists (wrap64 (A + 0)).
    split.
    + cbn [trace emit]. rewrite Hpre, <- !app_assoc. reflexivity.
    + rewrite maps_of_app, Hnomap. reflexivity.
Qed.

End BodyFirst.

Lemma demo_sane_queries bs mesosphere :
  chained bs -> sane_queries (Demo.kernel_of bs mesosphere).
Proof.
  intros Hc w q. cbn. clear w.
  induction bs as [|h t IH]; [discriminate|].
  cbn [Demo.find_block].
  destruct ((addr h <=? q) && (q <? block_end h)) eqn:E.
  - intros _. cbn [snd]. apply andb_true_iff in E. destruct E as [E1 E2].
    apply Z.leb_le in E1. apply Z.ltb_lt in E2.
    destruct Hc as (H0 & _ & Hmax & _). unfold contains. lia.
  - apply IH. exact (chained_tail _ _ Hc).
Qed.

(** A request of size zero at the start of the demo kernel's code. *)
Lemma ForEachMemRange_body_first_witness :
  exists p w' evs dst,
    RwPages_ctor Demo.K2 2 Demo.code_base 0 initial_world = Ret p w' /\
    trace w' = trace initial_world ++ evs /\
    maps_of evs = [(dst, Demo.code_base, 0)].
Proof.
  destruct (RwPages_ctor Demo.K2 2 Demo.code_base 0 initial_world)
    as [p w' | msg w' | w'] eqn:H.
  - assert (Hc : chained Demo.two_blocks).
    { apply two_blocks_chained; [discriminate | reflexivity]. }
    destruct (proj2 (proj2 (ForEachMemRange_body_first Demo.K2)) 2%nat Demo.code_base
                initial_world p w') as (evs & dst & Ht & Hm).
    + split; [discriminate | reflexivity].
    + reflexivity.
    + exact (demo_sane_queries _ _ Hc).
    + exact H.
    + exists p, w', evs, dst. split; [reflexivity | split; assumption].
  - vm_compute in H. discriminate H.
  - vm_compute in H. discriminate H.
Defined.

(** ** The mirror is the source, moved *)

Section Mirror.

Variable K : kernel.

Lemma map_block_event alignedRw procHandle a l o w u w' :
  map_block K alignedRw procHandle a l o w = Ret u w' ->
  exists rc, w' = emit (svcMapProcessMemory_ev (wrap64 (alignedRw + o)) procHandle a l rc) w.
Proof.
  unfold map_block. intros H.
  apply bind_Ret in H. destruct H as (rc & w1 & Hc & H).
  apply call_Ret in Hc. destruct Hc as [-> ->].
  apply check_Ret in H. destruct H as [_ ->].
  eexists. reflexivity.
Qed.

(** Every map of the walk puts a piece of the source, taken at some offset
    from the start of the range, at the same offset from [alignedRw]. *)
Lemma loop_maps_translate alignedRw procHandle start_address end_ fuel :
  forall m w u w',
    ForEachMemRange_loop K fuel (map_block K alignedRw procHandle)
      start_address end_ m w = Ret u w' ->
    exists evs, trace w' = trace w ++ evs /\
      forall dst src l, In (dst, src, l) (maps_of evs) ->
        exists o, dst = wrap64 (alignedRw + o) /\ src = wrap64 (start_address + o).
Proof.
  induction fuel as [|fuel IH]; intros m w u w' H; [discriminate|].
  cbn [ForEachMemRange_loop] in H.
  apply bind_Ret in H. destruct H as (r & w1 & Hq & H).
  unfold svcQueryMemory in Hq. apply call_Ret in Hq. destruct Hq as [-> ->].
  apply bind_Ret in H. destruct H as (u1 & w2 & Hc & H).
  apply check_Ret in Hc. destruct Hc as [_ ->].
  apply bind_Ret in H. destruct H as (u2 & w3 & Hcall & H).
  destruct (map_block_event _ _ _ _ _ _ _ _ Hcall) as (rc & ->).
  set (qev := svcQueryMemory_ev _ _ _) in *.
  set (o := wrap64 (Z.max _ start_address - start_address)) in *.
  set (mev := svcMapProcessMemory_ev _ _ _ _ _) in *.
  destruct (_ <? _).
  - destruct (IH _ _ _ _ H) as (evs & Ht & Hall).
    exists (qev :: mev :: evs). split.
    + rewrite Ht. cbn [trace emit]. rewrite <- !app_assoc. reflexivity.
    + intros dst src l Hin. cbn in Hin. destruct Hin as [E | Hin].
      * inversion E. exists o. split; reflexivity.
      * exact (Hall _ _ _ Hin).
  - apply ret_Ret in H. destruct H as [_ ->].
    exists [qev; mev]. split.
    + cbn [trace emit]. rewrite <- !app_assoc. reflexivity.
    + intros dst src l Hin. cbn in Hin. destruct Hin as [E | []].
      inversion E. exists o. split; reflexivity.
Qed.

(** Pointer arithmetic on 64-bit words: moving by the same offset on both
    sides cancels. *)
Lemma wrap64_translate A base o ro k :
  wrap64 (wrap64 (A + o) + (ro + k - wrap64 (base + o))) =
  wrap64 (wrap64 (A + wrap64 (ro - base)) + k).
Proof.
  unfold wrap64, wrap.
  assert (HN : 2 ^ 64 <> 0) by lia.
  generalize dependent (2 ^ 64). intros N HN.
  rewrite (Z.mod_eq (A + o) N), (Z.mod_eq (base + o) N), (Z.mod_eq (ro - base) N)
    by exact HN.
  rewrite (Z.mod_eq (A + _) N) by exact HN.
  set (q1 := (A + o) / N). set (q2 := (base + o) / N). set (q3 := (ro - base) / N).
  set (q4 := (A + _) / N).
  clearbody q1 q2 q3 q4.
  replace (A + o - N * q1 + (ro + k - (base + o - N * q2)))
    with (A + ro - base + k + (q2 - q1) * N) by ring.
  replace (A + (ro - base - N * q3) - N * q4 + k)
    with (A + ro - base + k + (- q3 - q4) * N) by ring.
  rewrite !Z.mod_add by exact HN. reflexivity.
Qed.

End Mirror.

(** C3: the claim of a returning constructor has its [rw] at
    [alignedRw + (ro - aligned_ro)], where [alignedRw] is the address that
    the constructor has searched, reserved and mapped the source at: the
    trace begins with that search and that reservation, and through every
    map [(dst, src, size)] that follows, the byte at offset [k] of the source
    has its counterpart at the address [rw + k], which shows the same byte.
    When the allocator has handed out a page-aligned address, [alignedRw] is
    the aligned base of [rw], and [rw] and [ro] have the same offset in their
    pages. *)
Theorem mirror_keeps_page_offset (K : kernel) (fuel : nat) (ro sz : Z)
    (w : world) (p : RwPages) (w' : world) :
  RwPages_ctor K fuel ro sz w = Ret p w' ->
  let c := m_Claim p in
  let alignedRw := k_virtmemFindAslr K w (GetAlignedSize c) 0 in
  exists evs,
    trace w' = trace w ++
      virtmemFindAslr_ev (GetAlignedSize c) 0 alignedRw ::
      virtmemAddReservation_ev alignedRw (GetAlignedSize c) (m_RwReserve c) :: evs /\
    m_Ro c = ro /\ m_Size c = sz /\
    m_Rw c = wrap64 (alignedRw + wrap64 (ro - GetAlignedRo c)) /\
    maps_of evs <> [] /\
    (forall dst src l, In (dst, src, l) (maps_of evs) ->
       forall k, 0 <= k < sz ->
         wrap64 (dst + (m_Ro c + k - src)) = wrap64 (m_Rw c + k)) /\
    (forall k, 0 <= k < sz -> k_load K w' (m_Ro c + k) = k_load K w' (m_Rw c + k)) /\
    (in_u64 ro -> in_u64 alignedRw -> alignedRw mod PAGE_SIZE = 0 ->
       GetAlignedRw c = alignedRw /\
       m_Rw c = alignedRw + (ro - GetAlignedRo c) /\
       m_Rw c - GetAlignedRw c = m_Ro c - GetAlignedRo c /\
       m_Rw c mod PAGE_SIZE = m_Ro c mod PAGE_SIZE).
Proof.
  intros H.
  destruct (RwPages_ctor_Ret K _ _ _ _ _ _ H)
    as (reserve & pre & walk & _ & _ & Hp & Ht & _ & _ & Hmaps & Hcmp).
  destruct (RwPages_ctor_walk K _ _ _ _ _ _ H) as (h & w0 & pre0 & Ht0 & Hm0 & Hrun).
  unfold ForEachMemRange in Hrun.
  destruct (loop_maps_translate K _ _ _ _ _ _ _ _ _ Hrun) as (evs' & Ht' & Htr).
  subst p. cbn [m_Claim]. cbv zeta.
  set (c0 := {| m_Ro := ro; m_Rw := 0; m_RwReserve := 0; m_Size := sz |}) in *.
  set (A := k_virtmemFindAslr K w (GetAlignedSize c0) 0) in *.
  set (rw := wrap64 (A + wrap64 (ro - GetAlignedRo c0))) in *.
  set (c := {| m_Ro := ro; m_Rw := rw; m_RwReserve := reserve; m_Size := sz |}).
  change (GetAlignedSize c) with (GetAlignedSize c0).
  change (GetAlignedRo c) with (GetAlignedRo c0).
  cbn [m_Ro m_Rw m_Size m_RwReserve c].
  assert (Hsame : maps_of (pre ++ walk) = maps_of evs').
  { rewrite Ht0, <- app_assoc in Ht'. rewrite Ht' in Ht.
    apply app_inv_head in Ht.
    assert (E : maps_of (pre0 ++ evs') =
                maps_of (virtmemFindAslr_ev (GetAlignedSize c0) 0 A ::
                         virtmemAddReservation_ev A (GetAlignedSize c0) reserve ::
                         pre ++ walk)) by (rewrite Ht; reflexivity).
    rewrite maps_of_app, Hm0 in E. cbn [app] in E. rewrite E. reflexivity. }
  exists (pre ++ walk).
  split; [exact Ht|]. split; [reflexivity|]. split; [reflexivity|].
  split; [reflexivity|].
  split.
  { rewrite maps_of_app. intros E. apply app_eq_nil in E. destruct E as [_ E].
    exact (Hmaps E). }
  split.
  { intros dst src l Hin k _. rewrite Hsame in Hin.
    destruct (Htr _ _ _ Hin) as (o & -> & ->).
    apply wrap64_translate. }
  split.
  { intros k Hk. apply (memcmp_from_zero K w' _ _ _ Hcmp).
    rewrite Z2Nat.id by lia. exact Hk. }
  intros Hro Hin Hal.
  change (k_virtmemFindAslr K w _ 0) with A in Hin, Hal |- *.
  unfold GetAlignedRw. cbn [m_Rw c]. unfold rw, GetAlignedRo. cbn [m_Ro c0].
  pose proof (ALIGN_DOWN_page_bounds ro Hro) as [Hd Hd0].
  set (D := ALIGN_DOWN ro PAGE_SIZE) in *.
  unfold in_u64 in *. change PAGE_SIZE with 0x1000 in Hal.
  assert (HA : A + 0x1000 <= 2 ^ 64).
  { pose proof (Z.div_mod A 0x1000 ltac:(lia)) as Hdm.
    assert (A / 0x1000 < 2 ^ 52) by (apply Z.div_lt_upper_bound; lia).
    lia. }
  rewrite (wrap64_small (ro - D)) by lia.
  rewrite (wrap64_small (A + (ro - D))) by lia.
  assert (Hdown : ALIGN_DOWN (A + (ro - D)) PAGE_SIZE = A).
  { rewrite ALIGN_DOWN_page, (wrap64_small (A + (ro - D))) by lia.
    pose proof (Z.div_mod A 0x1000 ltac:(lia)) as Hdm.
    replace (A + (ro - D)) with ((ro - D) + (A / 0x1000) * 0x1000) by lia.
    rewrite Z.mod_add, (Z.mod_small (ro - D)) by lia. lia. }
  rewrite Hdown.
  assert (Hmod : (A + (ro - D)) mod PAGE_SIZE = ro mod PAGE_SIZE).
  { change PAGE_SIZE with 0x1000.
    pose proof (Z.div_mod A 0x1000 ltac:(lia)) as Hdm.
    replace (A + (ro - D)) with ((ro - D) + (A / 0x1000) * 0x1000) by lia.
    rewrite Z.mod_add, (Z.mod_small (ro - D)) by lia.
    unfold D. rewrite ALIGN_DOWN_page, (wrap64_small ro) by lia. lia. }
  split; [reflexivity|]. split; [reflexivity|]. split; [lia | exact Hmod].
Qed.

(** The mirror of the demo kernel's code, asked for at offset [0x10] of its
    first page. *)
Lemma mirror_keeps_page_offset_witness :
  exists p w' evs,
    RwPages_ctor Demo.K2 2 (Demo.code_base + 0x10) 0x2ff0 initial_world = Ret p w' /\
    trace w' =
      virtmemFindAslr_ev 0x3000 0 0x7100000000 ::
      virtmemAddReservation_ev 0x7100000000 0x3000 0x7100000008 :: evs /\
    maps_of evs <> [] /\
    (forall dst src l, In (dst, src, l) (maps_of evs) ->
       forall k, 0 <= k < 0x2ff0 ->
         wrap64 (dst + (Demo.code_base + 0x10 + k - src)) = wrap64 (0x7100000010 + k)) /\
    m_Rw (m_Claim p) = 0x7100000010 /\
    GetAlignedRw (m_Claim p) = 0x7100000000 /\
    m_Rw (m_Claim p) - GetAlignedRw (m_Claim p) = 0x10 /\
    m_Ro (m_Claim p) - GetAlignedRo (m_Claim p) = 0x10.
Proof.
  destruct (RwPages_ctor Demo.K2 2 (Demo.code_base + 0x10) 0x2ff0 initial_world)
    as [p w' | msg w' | w'] eqn:H.
  - pose proof H as H0. vm_compute in H0. inversion H0 as [[Hp Hw]].
    clear H0 Hw. rewrite <- Hp in H.
    destruct (mirror_keeps_page_offset Demo.K2 2%nat (Demo.code_base + 0x10) 0x2ff0
                initial_world _ w' H)
      as (evs & Ht & _ & _ & Hrw & Hm & Hk & _ & Hal).
    destruct Hal as (Ha & _ & _ & _).
    + split; [discriminate | reflexivity].
    + split; [discriminate | reflexivity].
    + reflexivity.
    + exists p, w', evs. rewrite <- Hp.
      split; [exact H|]. split; [exact Ht|]. split; [exact Hm|].
      split; [exact Hk|].
      split; [reflexivity|]. split; [exact Ha|]. split; reflexivity.
  - vm_compute in H. discriminate H.
  - vm_compute in H. discriminate H.
Defined.

(** * Further properties of the code *)

(** ** The alignment macros at any power of two *)

Section AlignPow2.

Variable k : Z.
Hypothesis Hk : 0 <= k < 64.

Lemma pow2_bounds : 0 < 2 ^ k <= 2 ^ 63.
Proof.
  split; [apply Z.pow_pos_nonneg; lia|].
  apply Z.pow_le_mono_r; lia.
Qed.

Lemma pow2_mask : not64 (wrap64 (wrap64 (2 ^ k) - 1)) = 2 ^ 64 - 2 ^ k.
Proof.
  pose proof pow2_bounds as Hb.
  rewrite (wrap64_small (2 ^ k)) by lia.
  rewrite (wrap64_small (2 ^ k - 1)) by lia.
  unfold not64, wrap64, wrap.
  replace (Z.lnot (2 ^ k - 1)) with (2 ^ 64 - 2 ^ k + (-1) * 2 ^ 64)
    by (unfold Z.lnot; lia).
  rewrite Z.mod_add by lia. apply Z.mod_small. lia.
Qed.

Lemma land_pow2_mask x :
  0 <= x < 2 ^ 64 -> Z.land x (2 ^ 64 - 2 ^ k) = x - x mod 2 ^ k.
Proof.
  intros Hx. pose proof pow2_bounds as Hb.
  assert (Hm : 2 ^ 64 - 2 ^ k = Z.land (Z.lnot (Z.ones k)) (Z.ones 64)).
  { rewrite Z.land_ones by lia. rewrite Z.ones_equiv.
    replace (Z.lnot (Z.pred (2 ^ k))) with (2 ^ 64 - 2 ^ k + (-1) * 2 ^ 64)
      by (unfold Z.lnot; lia).
    rewrite Z.mod_add by lia. symmetry. apply Z.mod_small. lia. }
  rewrite Hm, Z.land_assoc.
  rewrite (Z.land_ones _ 64) by lia.
  rewrite <- Z.ldiff_land, Z.ldiff_ones_r by lia.
  rewrite Z.shiftl_mul_pow2, Z.shiftr_div_pow2 by lia.
  pose proof (Z.div_mod x (2 ^ k) ltac:(lia)) as Hd.
  pose proof (Z.mod_pos_bound x (2 ^ k) ltac:(lia)) as Hmb.
  pose proof (Z.mod_le x (2 ^ k) ltac:(lia) ltac:(lia)) as Hle.
  replace (x / 2 ^ k * 2 ^ k) with (x - x mod 2 ^ k) by lia.
  apply Z.mod_small. lia.
Qed.

Lemma ALIGN_DOWN_pow2 x :
  in_u64 x -> ALIGN_DOWN x (2 ^ k) = x - x mod 2 ^ k.
Proof.
  intros Hx. unfold ALIGN_DOWN. rewrite pow2_mask, (wrap64_small x Hx).
  apply land_pow2_mask. exact Hx.
Qed.

Lemma ALIGN_UP_pow2 x :
  in_u64 x ->
  ALIGN_UP x (2 ^ k) =
  wrap64 (x + (2 ^ k - 1)) - wrap64 (x + (2 ^ k - 1)) mod 2 ^ k.
Proof.
  intros Hx. pose proof pow2_bounds as Hb. unfold ALIGN_UP.
  rewrite pow2_mask, (wrap64_small x Hx).
  rewrite (wrap64_small (2 ^ k)) by lia.
  rewrite (wrap64_small (2 ^ k - 1)) by lia.
  apply land_pow2_mask, wrap64_range.
Qed.

Lemma multiple_sub_mod y : (y - y mod 2 ^ k) mod 2 ^ k = 0.
Proof.
  pose proof pow2_bounds as Hb.
  pose proof (Z.div_mod y (2 ^ k) ltac:(lia)) as Hd.
  replace (y - y mod 2 ^ k) with (y / 2 ^ k * 2 ^ k) by lia.
  apply Z.mod_mul. lia.
Qed.

(** X1: for an alignment [2^k] below the word size, [ALIGN_DOWN] gives the
    greatest multiple of the alignment that is not above [x], and
    [ALIGN_UP], when [x + (2^k - 1)] stays inside the 64-bit range, the
    least multiple that is not below [x]. *)
Theorem ALIGN_pow2_nearest_multiples (x : Z) :
  in_u64 x ->
  let a := 2 ^ k in
  (ALIGN_DOWN x a mod a = 0 /\
   ALIGN_DOWN x a <= x < ALIGN_DOWN x a + a /\
   forall m, m mod a = 0 -> m <= x -> m <= ALIGN_DOWN x a) /\
  (x + (a - 1) < 2 ^ 64 ->
   ALIGN_UP x a mod a = 0 /\
   x <= ALIGN_UP x a < x + a /\
   forall m, m mod a = 0 -> x <= m -> ALIGN_UP x a <= m).
Proof.
  intros Hx. cbv zeta. pose proof pow2_bounds as Hb.
  rewrite ALIGN_DOWN_pow2, ALIGN_UP_pow2 by exact Hx.
  pose proof (multiple_sub_mod x) as Hdm.
  pose proof (multiple_sub_mod (x + (2 ^ k - 1))) as Hum.
  unfold in_u64 in Hx.
  set (a := 2 ^ k) in *. clearbody a.
  assert (Hnear : forall lo m, lo mod a = 0 -> m mod a = 0 -> lo - a < m -> lo <= m).
  { intros lo m Hlo Hm Hlt.
    apply Z.mod_divide in Hlo; [|lia]. apply Z.mod_divide in Hm; [|lia].
    destruct Hlo as [p ->]. destruct Hm as [q ->].
    assert (Hpq : p - 1 < q).
    { apply (Z.mul_lt_mono_pos_r a); lia. }
    apply Z.mul_le_mono_nonneg_r; lia. }
  pose proof (Z.mod_pos_bound x a ltac:(lia)).
  split.
  - split; [exact Hdm|]. split; [lia|].
    intros m Hm Hle.
    assert (Hn : (x - x mod a + a) mod a = 0).
    { replace (x - x mod a + a) with (x - x mod a + 1 * a) by lia.
      rewrite Z.mod_add by lia. exact Hdm. }
    destruct (Z_lt_le_dec (x - x mod a) m) as [Hgt|]; [|lia].
    pose proof (Hnear (x - x mod a + a) m Hn Hm ltac:(lia)). lia.
  - intros Hfit. rewrite (wrap64_small (x + (a - 1))) by lia.
    pose proof (Z.mod_pos_bound (x + (a - 1)) a ltac:(lia)).
    split; [exact Hum|]. split; [lia|].
    intros m Hm Hle.
    apply Hnear; [exact Hum | exact Hm | lia].
Qed.

Lemma multiple_top y :
  0 <= y < 2 ^ 64 -> y mod 2 ^ k = 0 -> y + 2 ^ k <= 2 ^ 64.
Proof.
  intros Hy Hm. pose proof pow2_bounds as Hb.
  apply Z.mod_divide in Hm; [|lia]. destruct Hm as [q ->].
  assert (Hsplit : 2 ^ 64 = 2 ^ (64 - k) * 2 ^ k).
  { rewrite <- Z.pow_add_r by lia. f_equal. lia. }
  rewrite Hsplit in Hy |- *.
  assert (Hq : q < 2 ^ (64 - k)) by (apply (Z.mul_lt_mono_pos_r (2 ^ k)); lia).
  replace (q * 2 ^ k + 2 ^ k) with ((q + 1) * 2 ^ k) by lia.
  apply Z.mul_le_mono_nonneg_r; lia.
Qed.

Lemma ALIGN_UP_pow2_multiple y :
  in_u64 y -> y mod 2 ^ k = 0 -> ALIGN_UP y (2 ^ k) = y.
Proof.
  intros Hy Hm. pose proof pow2_bounds as Hb.
  rewrite ALIGN_UP_pow2 by exact Hy. unfold in_u64 in Hy.
  pose proof (multiple_top y Hy Hm) as Htop.
  rewrite (wrap64_small (y + (2 ^ k - 1))) by lia.
  pose proof (Z.div_mod y (2 ^ k) ltac:(lia)) as Hd.
  replace (y + (2 ^ k - 1)) with ((2 ^ k - 1) + (y / 2 ^ k) * 2 ^ k) by lia.
  rewrite Z.mod_add, (Z.mod_small (2 ^ k - 1)) by lia. lia.
Qed.

Lemma ALIGN_UP_pow2_result y :
  in_u64 y -> in_u64 (ALIGN_UP y (2 ^ k)) /\ ALIGN_UP y (2 ^ k) mod 2 ^ k = 0.
Proof.
  intros Hy. pose proof pow2_bounds as Hb.
  rewrite ALIGN_UP_pow2 by exact Hy.
  pose proof (wrap64_range (y + (2 ^ k - 1))) as Hr.
  pose proof (Z.mod_pos_bound (wrap64 (y + (2 ^ k - 1))) (2 ^ k) ltac:(lia)).
  pose proof (Z.mod_le (wrap64 (y + (2 ^ k - 1))) (2 ^ k) ltac:(lia) ltac:(lia)).
  split; [unfold in_u64; lia | apply multiple_sub_mod].
Qed.

Lemma ALIGN_DOWN_pow2_result y :
  in_u64 y -> in_u64 (ALIGN_DOWN y (2 ^ k)) /\ ALIGN_DOWN y (2 ^ k) mod 2 ^ k = 0.
Proof.
  intros Hy. pose proof pow2_bounds as Hb.
  rewrite ALIGN_DOWN_pow2 by exact Hy. unfold in_u64 in *.
  pose proof (Z.mod_pos_bound y (2 ^ k) ltac:(lia)).
  pose proof (Z.mod_le y (2 ^ k) ltac:(lia) ltac:(lia)).
  split; [lia | apply multiple_sub_mod].
Qed.

(** X2: a 64-bit value is left as it is by [ALIGN_DOWN], and by [ALIGN_UP],
    exactly when it is a multiple of the alignment; so both macros are
    idempotent, and [ALIGN_UP(x, a) == x] is a test for alignment. *)
Theorem ALIGN_pow2_fixed_points (x : Z) :
  in_u64 x ->
  let a := 2 ^ k in
  (ALIGN_DOWN x a = x <-> x mod a = 0) /\
  (ALIGN_UP x a = x <-> x mod a = 0) /\
  ALIGN_DOWN (ALIGN_DOWN x a) a = ALIGN_DOWN x a /\
  ALIGN_UP (ALIGN_UP x a) a = ALIGN_UP x a.
Proof.
  intros Hx. cbv zeta.
  destruct (ALIGN_UP_pow2_result x Hx) as [Hur Hum].
  destruct (ALIGN_DOWN_pow2_result x Hx) as [Hdr Hdm].
  split; [|split; [|split]].
  - rewrite ALIGN_DOWN_pow2 by exact Hx. lia.
  - split; [|apply ALIGN_UP_pow2_multiple; exact Hx].
    intros E. rewrite <- E. exact Hum.
  - rewrite (ALIGN_DOWN_pow2 (ALIGN_DOWN x (2 ^ k)) Hdr). lia.
  - apply ALIGN_UP_pow2_multiple; assumption.
Qed.

(** X3: [ALIGN_UP] wraps around: a value in the last [2^k - 1] bytes of the
    64-bit range is rounded up to zero. *)
Theorem ALIGN_UP_pow2_wraps (x : Z) :
  2 ^ 64 - 2 ^ k < x < 2 ^ 64 -> ALIGN_UP x (2 ^ k) = 0.
Proof.
  intros Hx. pose proof pow2_bounds as Hb.
  rewrite ALIGN_UP_pow2 by (unfold in_u64; lia).
  unfold wrap64, wrap.
  replace (x + (2 ^ k - 1)) with (x + 2 ^ k - 1 - 2 ^ 64 + 1 * 2 ^ 64) by lia.
  rewrite Z.mod_add by lia.
  rewrite (Z.mod_small (x + 2 ^ k - 1 - 2 ^ 64) (2 ^ 64)) by lia.
  rewrite (Z.mod_small (x + 2 ^ k - 1 - 2 ^ 64) (2 ^ k)) by lia. lia.
Qed.

End AlignPow2.

Lemma ALIGN_pow2_nearest_multiples_witness :
  ALIGN_DOWN 0x8004FF0 (2 ^ 12) <= 0x8004FF0 < ALIGN_DOWN 0x8004FF0 (2 ^ 12) + 2 ^ 12 /\
  0x8004FF0 <= ALIGN_UP 0x8004FF0 (2 ^ 12) < 0x8004FF0 + 2 ^ 12.
Proof.
  destruct (ALIGN_pow2_nearest_multiples 12 ltac:(lia) 0x8004FF0) as [(_ & Hd & _) Hu].
  - split; [discriminate | reflexivity].
  - destruct Hu as (_ & Hu & _); [reflexivity|]. split; assumption.
Defined.

Lemma ALIGN_pow2_fixed_points_witness :
  ALIGN_UP 0x3000 (2 ^ 12) = 0x3000 <-> 0x3000 mod 2 ^ 12 = 0.
Proof.
  refine (proj1 (proj2 (ALIGN_pow2_fixed_points 12 _ 0x3000 _))).
  - lia.
  - split; [discriminate | reflexivity].
Defined.

Lemma ALIGN_UP_pow2_wraps_witness : ALIGN_UP (2 ^ 64 - 1) (2 ^ 12) = 0.
Proof.
  apply (ALIGN_UP_pow2_wraps 12); [lia | split; reflexivity].
Defined.

(** ** What the build-time checks accept *)

(** X4: the two assertions of [exl::setting] accept a configuration exactly
    when [JitSize] is a multiple of the page size and [InlinePoolSize] lies
    in the last page up to [JitSize] (more than [JitSize - 0x1000], at most
    [JitSize]), or [JitSize] is zero and [InlinePoolSize] is in the last
    page of the 64-bit range, where the round-up wraps. *)
Theorem sanity_checks_accepted (JitSize InlinePoolSize : Z) :
  in_u64 JitSize -> in_u64 InlinePoolSize ->
  setting.sanity_checks JitSize InlinePoolSize = true <->
  JitSize mod PAGE_SIZE = 0 /\
  (JitSize - PAGE_SIZE < InlinePoolSize <= JitSize \/
   (JitSize = 0 /\ 2 ^ 64 - PAGE_SIZE < InlinePoolSize)).
Proof.
  intros HJ HI. rewrite (sanity_checks_spec _ _ HJ).
  change PAGE_SIZE with (2 ^ 12) at 2 3 4 5.
  change PAGE_SIZE with 0x1000. change (2 ^ 12) with 0x1000 at 2 3.
  unfold in_u64 in *.
  assert (Huniq : forall u j lo, u mod 0x1000 = 0 -> j mod 0x1000 = 0 ->
                    lo <= u < lo + 0x1000 -> lo <= j < lo + 0x1000 -> u = j).
  { intros u j lo Hu Hj Hul Hjl.
    apply Z.mod_divide in Hu; [|lia]. apply Z.mod_divide in Hj; [|lia].
    destruct Hu as [p ->]. destruct Hj as [q ->]. lia. }
  destruct (Z_lt_le_dec (InlinePoolSize + 0xFFF) (2 ^ 64)) as [Hfit | Hwrap].
  - pose proof (ALIGN_UP_page_bounds InlinePoolSize ltac:(lia) Hfit) as Hb.
    pose proof (ALIGN_UP_page_mod InlinePoolSize) as Hm.
    change (ALIGN_UP InlinePoolSize (2 ^ 12)) with (ALIGN_UP InlinePoolSize PAGE_SIZE).
    split.
    + intros [Hjm E]. split; [exact Hjm|]. left. lia.
    + intros [Hjm [Hin | [_ Htop]]]; [|lia].
      split; [exact Hjm|].
      apply (Huniq _ _ InlinePoolSize Hm Hjm); lia.
  - rewrite (ALIGN_UP_pow2_wraps 12 ltac:(lia) InlinePoolSize)
      by (change (2 ^ 12) with 0x1000; lia).
    split.
    + intros [Hjm E]. split; [exact Hjm|]. right. lia.
    + intros [Hjm [Hin | [Hz _]]]; [|split; [exact Hjm | lia]].
      pose proof (multiple_top 12 ltac:(lia) JitSize HJ Hjm) as Htop.
      change (2 ^ 12) with 0x1000 in Htop. lia.
Qed.

Lemma sanity_checks_accepted_witness :
  setting.sanity_checks 0x2000 0x1801 = true <->
  0x2000 mod PAGE_SIZE = 0 /\
  (0x2000 - PAGE_SIZE < 0x1801 <= 0x2000 \/ (0x2000 = 0 /\ 2 ^ 64 - PAGE_SIZE < 0x1801)).
Proof.
  apply sanity_checks_accepted; split; (discriminate || reflexivity).
Defined.

(** ** How long the panic text is *)

Section PanicLength.

Import assert_cpp.

(** X5: the string left in the buffer has the length of the expanded
    format, or 1023 when that is longer, and holds that many of its first
    characters; so a text of at most 1023 characters is there whole, and
    the string does not depend on what the buffer held before. *)
Theorem panic_message_length (buf : list ascii) (file : string) (line : Z) (msg : string) :
  List.length buf = PANIC_FMT_BUFFER_size ->
  let text := list_ascii_of_string (panic_text file line msg) in
  let r := megaton_format_panic_message buf file line msg in
  let n := Nat.min (List.length text) 1023 in
  strlen r = Some n /\
  firstn n r = firstn 1023 text /\
  ((List.length text <= 1023)%nat -> firstn n r = text) /\
  forall buf', List.length buf' = PANIC_FMT_BUFFER_size ->
    firstn (S n) (megaton_format_panic_message buf' file line msg) = firstn (S n) r.
Proof.
  intros Hlen text r n.
  assert (Hshape : forall b, List.length b = 1024%nat ->
            exists rest, megaton_format_panic_message b file line msg
                         = firstn 1023 text ++ NUL :: rest).
  { intros b Hb.
    destruct (store_last_shape b (firstn 1023 text) Hb (firstn_le_length 1023 text))
      as (_ & _ & rest & Hr).
    exists rest. exact Hr. }
  assert (Hn : List.length (firstn 1023 text) = n).
  { rewrite length_firstn. unfold n. apply Nat.min_comm. }
  pose proof (nul_free_firstn 1023 _ (panic_text_nul_free file line msg)) as Hfree.
  fold text in Hfree.
  destruct (Hshape buf Hlen) as (rest & Hr). fold r in Hr.
  assert (Hfirst : firstn n r = firstn 1023 text).
  { rewrite Hr, <- Hn, firstn_app, Nat.sub_diag, firstn_all. apply app_nil_r. }
  split; [|split; [|split]].
  - rewrite Hr, <- Hn. apply strlen_terminated. exact Hfree.
  - exact Hfirst.
  - intros Hfit. rewrite Hfirst. apply firstn_all2. exact Hfit.
  - intros buf' Hlen'. destruct (Hshape buf' Hlen') as (rest' & Hr').
    rewrite Hr', Hr, <- Hn.
    rewrite !firstn_app.
    replace (S (List.length (firstn 1023 text)) - List.length (firstn 1023 text))%nat
      with 1%nat by lia.
    reflexivity.
Qed.

Lemma panic_message_length_witness :
  strlen (megaton_format_panic_message (repeat "x"%char 1024) "soc.hpp" 33 "unreachable")
  = Some (Nat.min (List.length (list_ascii_of_string
                                   (panic_text "soc.hpp" 33 "unreachable"))) 1023).
Proof.
  exact (proj1 (panic_message_length (repeat "x"%char 1024) "soc.hpp" 33 "unreachable"
                  eq_refl)).
Defined.

End PanicLength.

(** ** When the SoC detection returns *)

Section SocReturns.

Variable K : kernel.
Variables Icosa Copper Hoag Iowa Calcio Aula item : Z.

(** X6: [InitSocType] returns exactly when the query succeeded and the low
    32 bits of its answer, which is what the 4-byte [hwtype] holds, are one
    of the six hardware types; a failed query ends in the panic of its
    assertion.  After it has returned, [IsSocErista] holds exactly for Icosa
    and Copper and [IsSocMariko] is its negation. *)
Theorem InitSocType_returns (w : world) :
  let r := k_smcGetConfig K w item in
  let hwtype := wrap32 (snd r) in
  let o := InitSocType K Icosa Copper Hoag Iowa Calcio Aula item w in
  ((exists w', o = Ret tt w') <->
   fst r = 0 /\ In hwtype [Icosa; Copper; Hoag; Iowa; Calcio; Aula]) /\
  (fst r <> 0 ->
   o = Panic "Assertion failed: R_SUCCEEDED(smcGetConfig(SplConfigItem_HardwareType, reinterpret_cast<u64*>(&hwtype)))"
         (emit (smcGetConfig_ev item (fst r) (snd r)) w)) /\
  (forall w', o = Ret tt w' ->
     (IsSocErista w' = true <-> hwtype = Icosa \/ hwtype = Copper) /\
     IsSocMariko w' = negb (IsSocErista w')).
Proof.
  cbv zeta.
  unfold InitSocType, bind, call, assert_, R_SUCCEEDED, put_s_SocType, unreachable_,
    panic_, ret.
  destruct (k_smcGetConfig K w item) as [rc hw0]. cbn [fst snd].
  generalize (wrap32 hw0). intros hw.
  destruct (rc =? 0) eqn:Erc.
  - apply Z.eqb_eq in Erc. subst rc.
    destruct ((hw =? Icosa) || (hw =? Copper)) eqn:E1.
    + assert (H1 : hw = Icosa \/ hw = Copper).
      { apply orb_true_iff in E1. rewrite !Z.eqb_eq in E1. exact E1. }
      split; [|split].
      * split; [intros _; split; [reflexivity|] | intros _; eexists; reflexivity].
        cbn [In]. destruct H1; subst; tauto.
      * intros Hne. contradiction.
      * intros w' Hw. inversion Hw. subst w'. cbn. tauto.
    + assert (H1 : ~ (hw = Icosa \/ hw = Copper)).
      { intros H. rewrite <- !Z.eqb_eq, <- orb_true_iff, E1 in H. discriminate. }
      destruct ((hw =? Hoag) || (hw =? Iowa) || (hw =? Calcio) || (hw =? Aula)) eqn:E2.
      * assert (H2 : hw = Hoag \/ hw = Iowa \/ hw = Calcio \/ hw = Aula).
        { rewrite !orb_true_iff, !Z.eqb_eq in E2. tauto. }
        split; [|split].
        -- split; [intros _; split; [reflexivity|] | intros _; eexists; reflexivity].
           cbn [In]. destruct H2 as [-> | [-> | [-> | ->]]]; tauto.
        -- intros Hne. contradiction.
        -- intros w' Hw. inversion Hw. subst w'. cbn.
           split; [split; [discriminate | tauto] | reflexivity].
      * assert (H2 : ~ (hw = Hoag \/ hw = Iowa \/ hw = Calcio \/ hw = Aula)).
        { intros H. rewrite <- !Z.eqb_eq, <- !orb_true_iff in H.
          rewrite !orb_assoc in H. rewrite H in E2. discriminate. }
        split; [|split].
        -- split; [intros [w' Hw]; discriminate Hw|].
           intros [_ Hin]. cbn [In] in Hin. exfalso. intuition congruence.
        -- intros Hne. contradiction.
        -- intros w' Hw. discriminate Hw.
  - apply Z.eqb_neq in Erc. split; [|split].
    + split; [intros [w' Hw]; discriminate Hw | intros [Hz _]; contradiction].
    + intros _. reflexivity.
    + intros w' Hw. discriminate Hw.
Qed.

End SocReturns.

Lemma InitSocType_returns_witness :
  ((exists w', InitSocType Demo.K2 0 1 2 3 4 5 0 initial_world = Ret tt w') <->
   fst (k_smcGetConfig Demo.K2 initial_world 0) = 0 /\
   In (wrap32 (snd (k_smcGetConfig Demo.K2 initial_world 0))) [0; 1; 2; 3; 4; 5]) /\
  exists w', InitSocType Demo.K_high_word 0 1 2 3 4 5 0 initial_world = Ret tt w'.
Proof.
  split.
  - exact (proj1 (InitSocType_returns Demo.K2 0 1 2 3 4 5 0 initial_world)).
  - apply (proj1 (InitSocType_returns Demo.K_high_word 0 1 2 3 4 5 0 initial_world)).
    split; [reflexivity | right; right; right; left; reflexivity].
Defined.

(** ** Stopping at the first failure *)

Section Discipline.

Context {A : Type}.
Variable Q : event -> Prop.

Lemma disciplined_ret (a : A) : disciplined Q (ret a).
Proof.
  unfold disciplined, all_succeeded.
  intros w. exists []. cbn. rewrite app_nil_r.
  repeat split; constructor.
Qed.


Lemma disciplined_silent (m : M A) :
  (forall w, exists a w', m w = Ret a w' /\ trace w' = trace w) -> disciplined Q m.
Proof.
  unfold disciplined, all_succeeded.
  intros H w. destruct (H w) as (a & w' & E & Ht). exists []. rewrite E. cbn.
  rewrite app_nil_r. repeat split; try constructor. exact Ht.
Qed.

Lemma disciplined_call_ok (answer : world -> A) (ev : A -> event) :
  (forall a, Q (ev a) /\ succeeded (ev a) = true) ->
  disciplined Q (call answer ev).
Proof.
  unfold disciplined, all_succeeded.
  intros H w. exists [ev (answer w)]. unfold call. cbn.
  destruct (H (answer w)) as [Hq Hs].
  repeat split; repeat constructor; assumption.
Qed.

End Discipline.

Lemma all_succeeded_removelast evs : all_succeeded evs -> all_succeeded (removelast evs).
Proof.
  unfold all_succeeded. induction 1 as [|e evs He Hev IH]; [constructor|].
  destruct evs as [|e' evs]; [constructor|].
  change (removelast (e :: e' :: evs)) with (e :: removelast (e' :: evs)).
  constructor; assumption.
Qed.

Lemma disciplined_bind {A B : Type} (Q : event -> Prop) (m : M A) (k : A -> M B) :
  disciplined Q m -> (forall a, disciplined Q (k a)) -> disciplined Q (bind m k).
Proof.
  unfold disciplined, all_succeeded.
  intros Hm Hk w. destruct (Hm w) as (evs1 & Ht1 & Hq1 & Hr1 & Hok1).
  unfold bind. destruct (m w) as [a w1 | msg w1 | w1]; cbn [world_of] in Ht1.
  - destruct (Hk a w1) as (evs2 & Ht2 & Hq2 & Hr2 & Hok2).
    exists (evs1 ++ evs2). split; [|split; [|split]].
    + rewrite Ht2, Ht1, app_assoc. reflexivity.
    + apply Forall_app. split; assumption.
    + destruct evs2 as [|e evs2].
      * rewrite app_nil_r. exact Hr1.
      * rewrite removelast_app by discriminate.
        apply Forall_app. split; assumption.
    + destruct (k a w1); try exact I; apply Forall_app; split; assumption.
  - exists evs1. repeat split; assumption.
  - exists evs1. repeat split; assumption.
Qed.

(** A call whose answer is checked before anything else is done. *)
Lemma disciplined_checked {A B : Type} (Q : event -> Prop)
    (answer : world -> A) (ev : A -> event) (check : A -> M unit) (k : A -> M B) :
  (forall a, Q (ev a)) ->
  (forall a, (check a = ret tt /\ succeeded (ev a) = true) \/
             (exists msg, check a = panic_ msg)) ->
  (forall a, disciplined Q (k a)) ->
  disciplined Q (bind (call answer ev) (fun a => bind (check a) (fun _ => k a))).
Proof.
  unfold disciplined, all_succeeded.
  intros Hq Hcheck Hk w. unfold bind, call.
  destruct (Hcheck (answer w)) as [[Ec Hs] | [msg Ec]]; rewrite Ec; cbn [ret panic_ world_of].
  - destruct (Hk (answer w) (emit (ev (answer w)) w))
      as (evs2 & Ht2 & Hq2 & Hr2 & Hok2).
    exists (ev (answer w) :: evs2). split; [|split; [|split]].
    + rewrite Ht2. cbn [trace emit]. rewrite <- app_assoc. reflexivity.
    + constructor; [apply Hq | exact Hq2].
    + destruct evs2 as [|e evs2]; [constructor|].
      change (removelast (ev (answer w) :: e :: evs2))
        with (ev (answer w) :: removelast (e :: evs2)).
      constructor; assumption.
    + destruct (k (answer w) _); try exact I; constructor; assumption.
  - exists [ev (answer w)]. repeat split; repeat constructor. apply Hq.
Qed.




Lemma check_failed (failed : bool) (msg : string) (e : event) :
  (failed = false -> succeeded e = true) ->
  ((if failed then panic_ msg else ret tt) = ret tt /\ succeeded e = true) \/
  (exists m, (if failed then @panic_ unit msg else ret tt) = panic_ m).
Proof.
  intros H. destruct failed; [right; eexists; reflexivity | left].
  split; [reflexivity | apply H; reflexivity].
Qed.


Lemma R_FAILED_succeeded rc : R_FAILED rc = false -> (rc =? 0) = true.
Proof. unfold R_FAILED. intros H. apply negb_false_iff in H. exact H. Qed.



Section DisciplinedCode.

Variable K : kernel.

Lemma GetViaIpcTrick_disciplined :
  disciplined (fun e => is_handle_call e = true) (proc_handle.GetViaIpcTrick K).
Proof.
  unfold proc_handle.GetViaIpcTrick, proc_handle.ReceiveProcessHandleThreadMain.
  apply disciplined_checked; [reflexivity | |intros s].
  { intros a. apply check_failed. cbn. apply R_FAILED_succeeded. }
  apply disciplined_checked; [reflexivity | |intros t].
  { intros a. apply check_failed. cbn. apply R_FAILED_succeeded. }
  apply disciplined_checked; [reflexivity | |intros rc].
  { intros a. apply check_failed. cbn. apply R_FAILED_succeeded. }
  apply disciplined_bind; [apply disciplined_call_ok; intros; split; reflexivity|].
  intros _.
  apply disciplined_bind.
  { apply disciplined_checked; [reflexivity | |intros r].
    { intros a. apply check_failed. cbn. apply R_FAILED_succeeded. }
    apply disciplined_bind.
    { apply disciplined_silent. intros w. do 2 eexists. split; reflexivity. }
    intros _.
    apply disciplined_bind; [apply disciplined_call_ok; intros; split; reflexivity|].
    intros _. apply disciplined_call_ok. intros; split; reflexivity. }
  intros _.
  apply disciplined_bind; [apply disciplined_call_ok; intros; split; reflexivity|].
  intros _.
  apply disciplined_checked; [reflexivity | |intros rc2].
  { intros a. apply check_failed. cbn. apply R_FAILED_succeeded. }
  apply disciplined_bind; [apply disciplined_call_ok; intros; split; reflexivity|].
  intros _. apply disciplined_ret.
Qed.
















End DisciplinedCode.

(** The two failures that are let pass do occur in a construction that
    returns: on the demo kernel without the fast path, the [svcGetInfo]
    fails and the fallback is taken, in which [svcSendSyncRequest] ends with
    an error when the worker closes the session. *)
Lemma RwPages_ctor_survives_tolerated_failures :
  exists p w',
    RwPages_ctor (Demo.kernel_of Demo.two_blocks false) 2 Demo.code_base 0x3000
      initial_world = Ret p w' /\
    In (svcGetInfo_ev InfoType_MesosphereCurrentProcess INVALID_HANDLE 0 0xF001 0)
       (trace w') /\
    In (svcSendSyncRequest_ev 0x12 proc_handle.SendProcessHandleMessage 0xF601)
       (trace w').
Proof.
  eexists. eexists. split; [vm_compute; reflexivity|].
  split; cbn; tauto.
Qed.


(** ** The two ways to the handle *)

Section HandlePaths.

Variable K : kernel.

Import proc_handle.

(** With nothing cached, [Get] starts with the fast path whatever follows. *)
Lemma Get_starts_with_fast_path w :
  s_Handle w = INVALID_HANDLE ->
  let r := k_svcGetInfo K w InfoType_MesosphereCurrentProcess INVALID_HANDLE 0 in
  exists evs,
    trace (world_of (Get K w)) = trace w ++
      svcGetInfo_ev InfoType_MesosphereCurrentProcess INVALID_HANDLE 0 (fst r) (snd r)
      :: evs.
Proof.
  intros Hs. cbv zeta. unfold Get, bind at 1, get_s_Handle at 1. rewrite Hs.
  cbn [Z.eqb INVALID_HANDLE]. unfold bind at 1. unfold bind at 1.
  unfold GetViaMesosphere, bind at 1, call at 1.
  set (r := k_svcGetInfo K w InfoType_MesosphereCurrentProcess INVALID_HANDLE 0).
  set (w1 := emit _ w).
  destruct (R_FAILED (fst r)) eqn:E.
  - cbn [ret]. rewrite E.
    destruct (GetViaIpcTrick_disciplined K w1) as (evs & Ht & _).
    destruct (GetViaIpcTrick K w1) as [u w2 | msg w2 | w2]; cbn [world_of] in Ht |- *;
      unfold get_s_Handle; cbn [world_of]; rewrite Ht; unfold w1; cbn [trace emit];
      rewrite <- app_assoc; eexists; reflexivity.
  - unfold bind, put_s_Handle, ret. cbn [R_FAILED Z.eqb negb].
    unfold get_s_Handle. cbn. exists []. reflexivity.
Qed.

(** X9: with nothing cached and the fast path there, [Get] makes the one
    call [svcGetInfo] and caches and returns the low 32 bits of its answer.
    When these are zero (the marker of the empty cache) nothing counts as
    cached: the next [Get] asks the kernel again. *)
Theorem Get_fast_path (w : world) :
  s_Handle w = INVALID_HANDLE ->
  let r := k_svcGetInfo K w InfoType_MesosphereCurrentProcess INVALID_HANDLE 0 in
  let ev := svcGetInfo_ev InfoType_MesosphereCurrentProcess INVALID_HANDLE 0
              (fst r) (snd r) in
  let w1 := set_s_Handle (wrap32 (snd r)) (emit ev w) in
  fst r = 0 ->
  Get K w = Ret (wrap32 (snd r)) w1 /\
  (wrap32 (snd r) = INVALID_HANDLE ->
   let r1 := k_svcGetInfo K w1 InfoType_MesosphereCurrentProcess INVALID_HANDLE 0 in
   exists evs,
     trace (world_of (Get K w1)) = trace w1 ++
       svcGetInfo_ev InfoType_MesosphereCurrentProcess INVALID_HANDLE 0
         (fst r1) (snd r1) :: evs).
Proof.
  intros Hs r ev w1 Hok. split.
  - assert (Hm : GetViaMesosphere K w = Ret 0 w1).
    { unfold GetViaMesosphere, bind, call. fold r. cbv beta.
      unfold w1, ev. rewrite Hok. reflexivity. }
    unfold Get, bind, get_s_Handle.
    rewrite Hs. change (INVALID_HANDLE =? INVALID_HANDLE) with true. cbv iota.
    unfold bind. rewrite Hm. reflexivity.
  - intros Hz. apply Get_starts_with_fast_path. exact Hz.
Qed.

(** X10: a [Get] that has found nothing cached and whose fast path has
    failed, and that returns, has made the calls of the two threads of the
    fallback, each thread's in the order of its code: the requester the
    failed [svcGetInfo], then [svcCreateSession], [svcCreateThread] with
    priority [0x20] on core 2 and the server handle as argument,
    [svcStartThread], [svcSendSyncRequest] on the client handle with the
    fixed message, the close of the client handle, the wait for the thread
    and the close of the thread handle; the worker [svcReplyAndReceive] on
    the server handle, the close of the server handle and [svcExitThread].
    The trace is an interleaving of the two.  Every checked call has
    succeeded, and the handle returned and cached is the 32-bit word at
    index 3 of the message that the worker has received. *)
Theorem Get_fallback (w : world) (h : Z) (w' : world) :
  s_Handle w = INVALID_HANDLE ->
  let r := k_svcGetInfo K w InfoType_MesosphereCurrentProcess INVALID_HANDLE 0 in
  fst r <> 0 ->
  Get K w = Ret h w' ->
  exists server client thread rc_send tls evs,
    trace w' = trace w ++ evs /\
    interleaving
      [ svcGetInfo_ev InfoType_MesosphereCurrentProcess INVALID_HANDLE 0 (fst r) (snd r);
        svcCreateSession_ev 0 server client;
        svcCreateThread_ev server 0x20 2 0 thread;
        svcStartThread_ev thread 0;
        svcSendSyncRequest_ev client SendProcessHandleMessage rc_send;
        svcCloseHandle_ev client;
        svcWaitSynchronizationSingle_ev thread UINT64_MAX 0;
        svcCloseHandle_ev thread ]
      [ svcReplyAndReceive_ev server 0 tls;
        svcCloseHandle_ev server;
        svcExitThread_ev ]
      evs /\
    h = wrap32 (nth 3 tls 0) /\ s_Handle w' = h.
Proof.
  intros Hs r Hfail H. unfold Get in H.
  apply bind_Ret in H. destruct H as (h0 & w0 & H0 & H).
  unfold get_s_Handle in H0. inversion H0. subst h0 w0. clear H0.
  rewrite Hs in H. change (INVALID_HANDLE =? INVALID_HANDLE) with true in H.
  cbv iota in H.
  apply bind_Ret in H. destruct H as (u & w1 & H1 & H).
  unfold get_s_Handle in H. inversion H. subst h w'. clear H.
  apply bind_Ret in H1. destruct H1 as (rc & w2 & H2 & H1).
  unfold GetViaMesosphere in H2.
  apply bind_Ret in H2. destruct H2 as (r0 & w3 & Hc & H2).
  apply call_Ret in Hc. destruct Hc as [-> ->]. fold r in H2.
  assert (Hf : R_FAILED (fst r) = true).
  { unfold R_FAILED. apply negb_true_iff, Z.eqb_neq. exact Hfail. }
  rewrite Hf in H2. apply ret_Ret in H2. destruct H2 as [-> ->].
  rewrite Hf in H1.
  unfold GetViaIpcTrick, ReceiveProcessHandleThreadMain in H1.
  run_all.
  repeat match goal with
         | E : R_FAILED _ = false |- _ => apply R_FAILED_false in E
         | E : put_s_Handle _ _ = Ret _ _ |- _ =>
             unfold put_s_Handle in E; inversion E; clear E
         end.
  subst. cbn [trace emit set_s_Handle s_Handle]. rewrite <- !app_assoc. cbn [app].
  repeat match goal with
         | E : _ = 0 |- _ => rewrite E
         end.
  do 5 eexists. eexists. split; [reflexivity|]. split; [|split; reflexivity].
  do 5 apply interleaving_left. do 3 apply interleaving_right.
  do 3 apply interleaving_left. apply interleaving_nil.
Qed.

End HandlePaths.

Lemma Get_fast_path_witness :
  proc_handle.Get Demo.K2 initial_world =
  Ret 0xBEEF (set_s_Handle 0xBEEF
                (emit (svcGetInfo_ev InfoType_MesosphereCurrentProcess INVALID_HANDLE 0
                         0 0xBEEF) initial_world)).
Proof.
  exact (proj1 (Get_fast_path Demo.K2 initial_world eq_refl eq_refl)).
Defined.

Lemma interleaving_In_right {A : Type} (l r m : list A) (x : A) :
  interleaving l r m -> In x r -> In x m.
Proof.
  induction 1 as [|y l r m _ IH|y l r m _ IH]; intros Hin.
  - exact Hin.
  - right. exact (IH Hin).
  - destruct Hin as [-> | Hin]; [left; reflexivity | right; exact (IH Hin)].
Qed.

Lemma Get_fallback_witness :
  exists h w' server tls evs,
    proc_handle.Get (Demo.kernel_of Demo.two_blocks false) initial_world = Ret h w' /\
    trace w' = evs /\
    In (svcReplyAndReceive_ev server 0 tls) evs /\
    In (svcExitThread_ev) evs /\
    h = wrap32 (nth 3 tls 0).
Proof.
  destruct (proc_handle.Get (Demo.kernel_of Demo.two_blocks false) initial_world)
    as [h w' | msg w' | w'] eqn:H.
  - destruct (Get_fallback (Demo.kernel_of Demo.two_blocks false) initial_world h w')
      as (server & client & thread & rc & tls & evs & Ht & Hil & Hh & _).
    + reflexivity.
    + discriminate.
    + exact H.
    + exists h, w', server, tls, evs. split; [reflexivity|].
      split; [exact Ht|].
      split; [apply (interleaving_In_right _ _ _ _ Hil); left; reflexivity|].
      split; [apply (interleaving_In_right _ _ _ _ Hil); right; right; left; reflexivity|].
      exact Hh.
  - vm_compute in H. discriminate H.
  - vm_compute in H. discriminate H.
Defined.

(** ** Construction and teardown over known backing blocks *)

Lemma bind_call {A B : Type} (answer : world -> A) (ev : A -> event) (k : A -> M B) w :
  bind (call answer ev) k w = k (answer w) (emit (ev (answer w)) w).
Proof. reflexivity. Qed.

Lemma bind_assert_true {B : Type} (holds : bool) (expr : string) (k : unit -> M B) w :
  holds = true -> bind (assert_ holds expr) k w = k tt w.
Proof. intros ->. reflexivity. Qed.

Lemma bind_run {A B : Type} (m : M A) (k : A -> M B) w a w1 :
  m w = Ret a w1 -> bind m k w = k a w1.
Proof. intros H. unfold bind. rewrite H. reflexivity. Qed.

Lemma memcmp_from_equal K w n : forall p q,
  (forall k, 0 <= k < Z.of_nat n -> k_load K w (p + k) = k_load K w (q + k)) ->
  memcmp_from K w p q n = 0.
Proof.
  induction n as [|n IH]; intros p q H; [reflexivity|].
  cbn [memcmp_from].
  pose proof (H 0 ltac:(lia)) as H0. rewrite !Z.add_0_r in H0.
  rewrite H0, Z.eqb_refl. apply IH. intros k Hk.
  specialize (H (1 + k) ltac:(lia)).
  rewrite !Z.add_assoc in H. exact H.
Qed.

Lemma aligned_mirror_base ro A :
  in_u64 ro -> in_u64 A -> A mod PAGE_SIZE = 0 ->
  let rw := wrap64 (A + wrap64 (ro - ALIGN_DOWN ro PAGE_SIZE)) in
  ALIGN_DOWN rw PAGE_SIZE = A /\ rw = A + (ro - ALIGN_DOWN ro PAGE_SIZE).
Proof.
  intros Hro HA Hal. cbv zeta.
  pose proof (ALIGN_DOWN_page_bounds ro Hro) as [Hd Hd0].
  set (D := ALIGN_DOWN ro PAGE_SIZE) in *.
  unfold in_u64 in *. change PAGE_SIZE with 0x1000 in Hal.
  pose proof (multiple_top 12 ltac:(lia) A HA Hal) as Htop.
  change (2 ^ 12) with 0x1000 in Htop.
  rewrite (wrap64_small (ro - D)) by lia.
  rewrite (wrap64_small (A + (ro - D))) by lia.
  split; [|reflexivity].
  rewrite ALIGN_DOWN_page, (wrap64_small (A + (ro - D))) by lia.
  pose proof (Z.div_mod A 0x1000 ltac:(lia)) as Hdm.
  replace (A + (ro - D)) with ((ro - D) + (A / 0x1000) * 0x1000) by lia.
  rewrite Z.mod_add, (Z.mod_small (ro - D)) by lia. lia.
Qed.

(** The invocations of a tiling stay inside the range. *)
Lemma end_to_end_inside start_address : forall calls off,
  end_to_end start_address off calls ->
  forall a l o, In (a, l, o) calls ->
    a = start_address + o /\ 0 <= l /\ off <= o /\ o + l <= off + total_length calls.
Proof.
  induction calls as [|[[a0 l0] o0] calls IH]; intros off He a l o Hin; [contradiction|].
  destruct He as (Ho & Ha & Hl & He).
  assert (Hrest : forall a l o, In (a, l, o) calls ->
            a = start_address + o /\ 0 <= l /\ off + l0 <= o /\
            o + l <= off + l0 + total_length calls) by (apply IH; exact He).
  assert (Htot : 0 <= total_length calls).
  { clear - He. revert He. generalize (off + l0).
    induction calls as [|[[a1 l1] o1] calls IH]; intros z He; [cbn; lia|].
    destruct He as (_ & _ & Hl1 & He). specialize (IH _ He).
    unfold total_length in *. cbn [fold_right fst snd]. lia. }
  unfold total_length in *. cbn [fold_right fst snd].
  destruct Hin as [E | Hin].
  - inversion E. subst. lia.
  - specialize (Hrest _ _ _ Hin). lia.
Qed.

Section OnBlocks.

Variable K : kernel.
Variable bs : list MemoryInfo.
Variables (fuel : nat) (ro sz : Z) (w : world).

Let c0 : Claim := {| m_Ro := ro; m_Rw := 0; m_RwReserve := 0; m_Size := sz |}.
Let base : Z := GetAlignedRo c0.
Let len : Z := GetAlignedSize c0.
Let A : Z := k_virtmemFindAslr K w len 0.
Let R : Z :=
  k_virtmemAddReservation K (emit (virtmemFindAslr_ev len 0 A) w) A len.
Let rw : Z := wrap64 (A + wrap64 (ro - base)).

Hypothesis Hspace : A <> 0.
Hypothesis Hreserve : R <> 0.
Hypothesis Hhandle : handle_at_hand K w.
Hypothesis Hchained : chained bs.
Hypothesis Hanswers : answers K bs.
Hypothesis Hfit : base + len < 2 ^ 64.
Hypothesis Hcovers : covers bs base (base + len).
Hypothesis Hfuel : (List.length bs <= fuel)%nat.
Hypothesis Hmaps : forall w0 dst proc src l, k_svcMapProcessMemory K w0 dst proc src l = 0.
Hypothesis Hmirror :
  forall w0 evs,
    trace w0 = trace w ++ evs ->
    maps_of evs = map (mirrored A base (base + len)) (visited base (base + len) bs) ->
    forall k, 0 <= k < sz -> k_load K w0 (ro + k) = k_load K w0 (rw + k).

Lemma Get_returns w0 :
  handle_at_hand K w0 ->
  exists h w1 pre,
    proc_handle.Get K w0 = Ret h w1 /\ trace w1 = trace w0 ++ pre /\
    Forall (fun e => is_handle_call e = true /\ succeeded e = true) pre /\
    handle_at_hand K w1.
Proof.
  intros Hh.
  destruct (Z.eq_dec (s_Handle w0) INVALID_HANDLE) as [Hi | Hc].
  - destruct Hh as [Hne | Hfast]; [contradiction|].
    pose proof (Get_fast_path K w0 Hi (Hfast w0)) as [Hrun _].
    cbv zeta in Hrun.
    do 3 eexists. split; [exact Hrun|]. split; [reflexivity|].
    split; [|right; exact Hfast].
    repeat constructor.
  - exists (s_Handle w0), w0, []. split; [apply Get_cached; exact Hc|].
    split; [symmetry; apply app_nil_r|]. split; [constructor | left; exact Hc].
Qed.

Lemma handle_at_hand_emit e w0 : handle_at_hand K w0 -> handle_at_hand K (emit e w0).
Proof. intros [H | H]; [left; exact H | right; exact H]. Qed.

Lemma handle_at_hand_extend evs w0 :
  handle_at_hand K w0 -> handle_at_hand K (extend evs w0).
Proof. intros [H | H]; [left; exact H | right; exact H]. Qed.

(** What the mapping callback leaves in the trace over known blocks. *)
Lemma visit_map_block alignedRw h start_address end_ q blocks w0 :
  exists evs,
    visit_blocks (map_block K alignedRw h) start_address end_ q blocks w0
      = Ret tt (extend evs w0) /\
    maps_of evs = map (mirrored alignedRw start_address end_) blocks /\
    queried_of evs = blocks /\
    Forall (fun e => (is_query e || is_map e = true) /\ succeeded e = true) evs.
Proof.
  revert q w0. induction blocks as [|b blocks IH]; intros q w0.
  - exists []. cbn. unfold ret, extend. rewrite app_nil_r. destruct w0.
    repeat split. constructor.
  - cbn [visit_blocks]. unfold bind. unfold call at 1. unfold mirrored at 1.
    destruct (clip start_address end_ b) as [[a l] o] eqn:Hclip.
    unfold map_block at 1, bind, call. rewrite Hmaps. cbn [R_FAILED Z.eqb negb ret].
    match goal with |- context [visit_blocks _ _ _ _ _ ?w1] =>
      destruct (IH (block_end b) w1) as (evs & Hrun & Hm & Hq & Hall) end.
    exists (svcQueryMemory_ev q 0 b ::
            svcMapProcessMemory_ev (wrap64 (alignedRw + o)) h a l 0 :: evs).
    rewrite Hrun. cbn [maps_of queried_of flat_map app map].
    fold (maps_of evs). fold (queried_of evs). rewrite Hm, Hq.
    unfold mirrored at 1. rewrite Hclip.
    split; [|split; [reflexivity | split; [reflexivity|]]].
    + unfold extend, emit. cbn. rewrite <- !app_assoc. reflexivity.
    + repeat (apply Forall_cons; [split; reflexivity|]). exact Hall.
Qed.

Lemma maps_of_handle_calls_only evs :
  Forall (fun e => is_handle_call e = true /\ succeeded e = true) evs ->
  maps_of evs = [] /\ unmaps_of evs = [].
Proof.
  induction 1 as [|e evs [He _] _ [IH1 IH2]]; [split; reflexivity|].
  cbn [maps_of unmaps_of flat_map]. fold (maps_of evs). fold (unmaps_of evs).
  rewrite IH1, IH2. destruct e; try discriminate He; split; reflexivity.
Qed.

(** The constructor over known blocks. *)
Lemma RwPages_ctor_on_blocks :
  exists pre walk w1,
    RwPages_ctor K fuel ro sz w =
      Ret {| m_Claim := {| m_Ro := ro; m_Rw := rw; m_RwReserve := R; m_Size := sz |};
             m_Owner := true |} w1 /\
    trace w1 = trace w ++
      virtmemFindAslr_ev len 0 A :: virtmemAddReservation_ev A len R :: pre ++ walk /\
    Forall (fun e => is_handle_call e = true /\ succeeded e = true) pre /\
    maps_of walk = map (mirrored A base (base + len)) (visited base (base + len) bs) /\
    queried_of walk = visited base (base + len) bs /\
    Forall (fun e => (is_query e || is_map e = true) /\ succeeded e = true) walk /\
    handle_at_hand K w1.
Proof.
  set (w_find := emit (virtmemFindAslr_ev len 0 A) w).
  set (w_res := emit (virtmemAddReservation_ev A len R) w_find).
  destruct (Get_returns w_res) as (h & w_get & pre & Hget & Hpre & Hpre_all & Hhand).
  { apply handle_at_hand_emit, handle_at_hand_emit. exact Hhandle. }
  destruct (visit_map_block A h base (base + len) base (visited base (base + len) bs) w_get)
    as (walk & Hwalk & Hm & Hq & Hwalk_all).
  assert (Hmapped : RwPages_ctor_mapped K fuel ro sz w = Ret (A, R) (extend walk w_get)).
  { unfold RwPages_ctor_mapped. fold c0 len base.
    rewrite bind_call. fold A.
    rewrite bind_assert_true by (apply negb_true_iff, Z.eqb_neq; exact Hspace).
    rewrite bind_call. fold w_find R.
    rewrite bind_assert_true by (apply negb_true_iff, Z.eqb_neq; exact Hreserve).
    fold w_res. rewrite (bind_run _ _ _ _ _ Hget).
    assert (Hrun : ForEachMemRange K fuel (map_block K A h) base len w_get
                   = Ret tt (extend walk w_get)).
    { rewrite (ForEachMemRange_visits K base _ bs len fuel); try assumption.
      - apply GetAlignedRo_nonneg.
      - apply GetAlignedSize_nonneg. }
    rewrite (bind_run _ _ _ _ _ Hrun). reflexivity. }
  assert (Htrace : trace (extend walk w_get) = trace w ++
            virtmemFindAslr_ev len 0 A :: virtmemAddReservation_ev A len R :: pre ++ walk).
  { cbn [trace extend]. rewrite Hpre. unfold w_res, w_find. cbn [trace emit].
    rewrite <- !app_assoc. reflexivity. }
  exists pre, walk, (extend walk w_get).
  split.
  - rewrite RwPages_ctor_split, Hmapped. cbv zeta. cbn [fst snd].
    change (GetAlignedRo {| m_Ro := ro; m_Rw := 0; m_RwReserve := R; m_Size := sz |})
      with base.
    fold rw.
    rewrite memcmp_from_equal; [reflexivity|].
    intros k Hk. eapply Hmirror; [exact Htrace | | lia].
    change (?a :: ?b :: pre ++ walk) with ([a; b] ++ pre ++ walk).
    rewrite !maps_of_app, (proj1 (maps_of_handle_calls_only pre Hpre_all)). exact Hm.
  - split; [exact Htrace|]. split; [exact Hpre_all|]. split; [exact Hm|].
    split; [exact Hq|]. split; [exact Hwalk_all|].
    apply handle_at_hand_extend. exact Hhand.
Qed.

Lemma ctor_maps_each_block :
  exists evs w1,
    RwPages_ctor K fuel ro sz w =
      Ret {| m_Claim := {| m_Ro := ro; m_Rw := rw; m_RwReserve := R; m_Size := sz |};
             m_Owner := true |} w1 /\
    trace w1 = trace w ++
      virtmemFindAslr_ev len 0 A :: virtmemAddReservation_ev A len R :: evs /\
    maps_of evs = map (mirrored A base (base + len)) (visited base (base + len) bs) /\
    all_succeeded evs.
Proof.
  destruct RwPages_ctor_on_blocks
    as (pre & walk & w1 & Hrun & Ht & Hpre & Hm & _ & Hwalk & _).
  exists (pre ++ walk), w1. split; [exact Hrun|]. split; [exact Ht|]. split.
  - rewrite maps_of_app, (proj1 (maps_of_handle_calls_only pre Hpre)). exact Hm.
  - apply Forall_app. split.
    + eapply Forall_impl; [|exact Hpre]. cbn. tauto.
    + eapply Forall_impl; [|exact Hwalk]. cbn. tauto.
Qed.

Lemma ctor_maps_inside_reservation :
  in_u64 A -> A + len < 2 ^ 64 ->
  exists evs w1 p,
    RwPages_ctor K fuel ro sz w = Ret p w1 /\
    trace w1 = trace w ++ evs /\
    In (virtmemAddReservation_ev A len R) evs /\
    forall dst src l, In (dst, src, l) (maps_of evs) ->
      0 <= l /\
      A <= dst /\ dst + l <= A + len /\
      base <= src /\ src + l <= base + len /\
      dst - A = src - base.
Proof.
  intros HA Htop.
  destruct RwPages_ctor_on_blocks
    as (pre & walk & w1 & Hrun & Ht & Hpre & Hm & _ & _ & _).
  do 3 eexists. split; [exact Hrun|]. split; [exact Ht|].
  split; [right; left; reflexivity|].
  intros dst src l Hin.
  change (?a :: ?b :: pre ++ walk) with ([a; b] ++ pre ++ walk) in Hin.
  rewrite !maps_of_app, (proj1 (maps_of_handle_calls_only pre Hpre)), Hm in Hin.
  cbn [maps_of flat_map app] in Hin.
  apply in_map_iff in Hin. destruct Hin as (b & Hb & Hin).
  unfold mirrored in Hb.
  destruct (clip base (base + len) b) as [[a l'] o] eqn:Hclip.
  inversion Hb. subst dst src l'. clear Hb.
  pose proof (visited_tiles bs base len Hchained (GetAlignedSize_nonneg c0) Hcovers)
    as [He Htot].
  assert (Hcall : In (a, l, o) (map (clip base (base + len)) (visited base (base + len) bs))).
  { apply in_map_iff. exists b. split; assumption. }
  destruct (end_to_end_inside base _ 0 He a l o Hcall) as (Ha & Hl & Ho & Hol).
  rewrite Htot in Hol. unfold in_u64 in HA.
  rewrite (wrap64_small (A + o)) by lia. lia.
Qed.

Hypothesis Hunmaps :
  forall w0 dst proc src l, k_svcUnmapProcessMemory K w0 dst proc src l = 0.

(** The destructor of an owner over known blocks. *)
Lemma RwPages_dtor_on_blocks (claim : Claim) (w1 : world) :
  m_Ro claim = ro -> m_Size claim = sz ->
  handle_at_hand K w1 ->
  exists pre walk w2,
    RwPages_dtor K fuel {| m_Claim := claim; m_Owner := true |} w1 = Ret tt w2 /\
    trace w2 = trace w1 ++
      armDCacheFlush_ev (m_Rw claim) (m_Size claim) ::
      armICacheInvalidate_ev (m_Ro claim) (m_Size claim) ::
      pre ++ walk ++ [virtmemRemoveReservation_ev (m_RwReserve claim)] /\
    Forall (fun e => is_handle_call e = true /\ succeeded e = true) pre /\
    unmaps_of walk =
      map (mirrored (GetAlignedRw claim) base (base + len)) (visited base (base + len) bs) /\
    maps_of walk = [].
Proof.
  intros Hro Hsz Hh.
  assert (Hbase : GetAlignedRo claim = base) by (unfold GetAlignedRo; rewrite Hro; reflexivity).
  assert (Hlen : GetAlignedSize claim = len).
  { unfold GetAlignedSize, GetAlignedRo. rewrite Hro, Hsz. reflexivity. }
  set (w_inv := emit (armICacheInvalidate_ev (m_Ro claim) (m_Size claim))
                  (emit (armDCacheFlush_ev (m_Rw claim) (m_Size claim)) w1)).
  destruct (Get_returns w_inv) as (h & w_get & pre & Hget & Hpre & Hpre_all & _).
  { apply handle_at_hand_emit, handle_at_hand_emit. exact Hh. }
  destruct (visit_unmap_block K claim h base (base + len) base
              (visited base (base + len) bs) w_get Hunmaps)
    as (walk & Hwalk & Hun & _ & Hwalk_all).
  exists pre, walk. eexists.
  split; [|split; [|split; [exact Hpre_all | split; [exact Hun|]]]].
  - unfold RwPages_dtor. cbn [m_Owner negb m_Claim].
    rewrite bind_call, bind_call. fold w_inv.
    rewrite (bind_run _ _ _ _ _ Hget). rewrite Hbase, Hlen.
    assert (Hrun : ForEachMemRange K fuel (unmap_block K claim h) base len w_get
                   = Ret tt (extend walk w_get)).
    { rewrite (ForEachMemRange_visits K base _ bs len fuel); try assumption.
      - apply GetAlignedRo_nonneg.
      - apply GetAlignedSize_nonneg. }
    rewrite (bind_run _ _ _ _ _ Hrun).
    unfold call. reflexivity.
  - cbn [trace emit extend]. rewrite Hpre. unfold w_inv. cbn [trace emit].
    rewrite <- !app_assoc. reflexivity.
  - clear - Hwalk_all. induction Hwalk_all as [|e evs [He _] _ IH]; [reflexivity|].
    cbn [maps_of flat_map]. fold (maps_of evs). rewrite IH.
    destruct e; try discriminate He; reflexivity.
Qed.

Lemma teardown_undoes_construction :
  in_u64 ro -> in_u64 A -> A mod PAGE_SIZE = 0 ->
  exists p w1 w2 evs1 evs2,
    RwPages_ctor K fuel ro sz w = Ret p w1 /\
    trace w1 = trace w ++ evs1 /\
    RwPages_dtor K fuel p w1 = Ret tt w2 /\
    trace w2 = trace w1 ++ evs2 /\
    unmaps_of evs2 = maps_of evs1 /\
    unmaps_of evs1 = [] /\ maps_of evs2 = [] /\
    In (virtmemAddReservation_ev A len R) evs1 /\
    exists before, evs2 = before ++ [virtmemRemoveReservation_ev R].
Proof.
  intros Hro HA Hal.
  destruct RwPages_ctor_on_blocks
    as (pre & walk & w1 & Hrun & Ht & Hpre & Hm & _ & Hwalk & Hhand).
  set (claim := {| m_Ro := ro; m_Rw := rw; m_RwReserve := R; m_Size := sz |}) in *.
  destruct (RwPages_dtor_on_blocks claim w1 eq_refl eq_refl Hhand)
    as (pre2 & walk2 & w2 & Hrun2 & Ht2 & Hpre2 & Hun2 & Hnomap2).
  assert (Hbase_rw : GetAlignedRw claim = A).
  { unfold GetAlignedRw, claim. cbn [m_Rw]. unfold rw, base, GetAlignedRo, c0. cbn [m_Ro].
    apply (aligned_mirror_base ro A Hro HA Hal). }
  rewrite Hbase_rw in Hun2.
  do 5 eexists.
  split; [exact Hrun|]. split; [exact Ht|]. split; [exact Hrun2|].
  split; [exact Ht2|].
  change (?a :: ?b :: pre ++ walk) with ([a; b] ++ pre ++ walk).
  change (?a :: ?b :: pre2 ++ walk2 ++ ?c) with ([a; b] ++ pre2 ++ walk2 ++ c).
  rewrite !unmaps_of_app, !maps_of_app.
  rewrite (proj1 (maps_of_handle_calls_only pre Hpre)),
          (proj2 (maps_of_handle_calls_only pre Hpre)),
          (proj1 (maps_of_handle_calls_only pre2 Hpre2)),
          (proj2 (maps_of_handle_calls_only pre2 Hpre2)).
  rewrite Hun2, Hm, Hnomap2. cbn [maps_of unmaps_of flat_map app].
  rewrite app_nil_r.
  split; [reflexivity|]. split.
  { clear - Hwalk. induction Hwalk as [|e evs [He _] _ IH]; [reflexivity|].
    cbn [unmaps_of flat_map]. fold (unmaps_of evs). rewrite IH.
    destruct e; try discriminate He; reflexivity. }
  split; [reflexivity|]. split; [right; left; reflexivity|].
  eexists. cbn [m_Rw m_Ro m_Size m_RwReserve claim].
  rewrite !app_comm_cons, !app_assoc. reflexivity.
Qed.

End OnBlocks.

(** X11: in a setting that nothing hinders, over consecutive backing blocks
    that cover the aligned range, the constructor returns the claim and has
    made, after the search and the reservation, exactly one map per visited
    block, in the order of the blocks: [(dst, src, size)] is the part of the
    range inside the block, mapped at its offset from [aligned_rw]. *)
Theorem RwPages_ctor_maps_each_block (K : kernel) (bs : list MemoryInfo) (fuel : nat)
    (ro sz : Z) (w : world) :
  construction_granted K bs fuel ro sz w ->
  let c0 := {| m_Ro := ro; m_Rw := 0; m_RwReserve := 0; m_Size := sz |} in
  let base := GetAlignedRo c0 in
  let len := GetAlignedSize c0 in
  let A := k_virtmemFindAslr K w len 0 in
  let R := k_virtmemAddReservation K (emit (virtmemFindAslr_ev len 0 A) w) A len in
  let rw := wrap64 (A + wrap64 (ro - base)) in
  exists evs w1,
    RwPages_ctor K fuel ro sz w =
      Ret {| m_Claim := {| m_Ro := ro; m_Rw := rw; m_RwReserve := R; m_Size := sz |};
             m_Owner := true |} w1 /\
    trace w1 = trace w ++
      virtmemFindAslr_ev len 0 A :: virtmemAddReservation_ev A len R :: evs /\
    maps_of evs = map (mirrored A base (base + len)) (visited base (base + len) bs) /\
    all_succeeded evs.
Proof.
  intros (H1 & H2 & H3 & H4 & H5 & H6 & H7 & H8 & H9 & H10).
  exact (ctor_maps_each_block K bs fuel ro sz w H1 H2 H3 H4 H5 H6 H7 H8 H9 H10).
Qed.

(** X12: every map of such a construction stays inside the reservation and
    inside the aligned source range, at the same offset in both, when the
    reserved range ends below the top of the 64-bit range. *)
Theorem RwPages_ctor_maps_inside_reservation (K : kernel) (bs : list MemoryInfo)
    (fuel : nat) (ro sz : Z) (w : world) :
  construction_granted K bs fuel ro sz w ->
  let c0 := {| m_Ro := ro; m_Rw := 0; m_RwReserve := 0; m_Size := sz |} in
  let base := GetAlignedRo c0 in
  let len := GetAlignedSize c0 in
  let A := k_virtmemFindAslr K w len 0 in
  let R := k_virtmemAddReservation K (emit (virtmemFindAslr_ev len 0 A) w) A len in
  in_u64 A -> A + len < 2 ^ 64 ->
  exists evs w1 p,
    RwPages_ctor K fuel ro sz w = Ret p w1 /\
    trace w1 = trace w ++ evs /\
    In (virtmemAddReservation_ev A len R) evs /\
    forall dst src l, In (dst, src, l) (maps_of evs) ->
      0 <= l /\
      A <= dst /\ dst + l <= A + len /\
      base <= src /\ src + l <= base + len /\
      dst - A = src - base.
Proof.
  intros (H1 & H2 & H3 & H4 & H5 & H6 & H7 & H8 & H9 & H10).
  exact (ctor_maps_inside_reservation K bs fuel ro sz w H1 H2 H3 H4 H5 H6 H7 H8 H9 H10).
Qed.

(** X13: a construction that nothing hinders followed by the teardown of the
    claim it returned, the blocks staying as they are, every unmap granted
    and the allocator handing out a page-aligned address: the teardown
    returns, it unmaps exactly what the construction has mapped, same
    [(dst, src, size)] in the same order, and its last call releases the
    reservation that the construction has made. *)
Theorem RwPages_teardown_undoes_construction (K : kernel) (bs : list MemoryInfo)
    (fuel : nat) (ro sz : Z) (w : world) :
  construction_granted K bs fuel ro sz w ->
  (forall w0 dst proc src l, k_svcUnmapProcessMemory K w0 dst proc src l = 0) ->
  let c0 := {| m_Ro := ro; m_Rw := 0; m_RwReserve := 0; m_Size := sz |} in
  let len := GetAlignedSize c0 in
  let A := k_virtmemFindAslr K w len 0 in
  let R := k_virtmemAddReservation K (emit (virtmemFindAslr_ev len 0 A) w) A len in
  in_u64 ro -> in_u64 A -> A mod PAGE_SIZE = 0 ->
  exists p w1 w2 evs1 evs2,
    RwPages_ctor K fuel ro sz w = Ret p w1 /\
    trace w1 = trace w ++ evs1 /\
    RwPages_dtor K fuel p w1 = Ret tt w2 /\
    trace w2 = trace w1 ++ evs2 /\
    unmaps_of evs2 = maps_of evs1 /\
    unmaps_of evs1 = [] /\ maps_of evs2 = [] /\
    In (virtmemAddReservation_ev A len R) evs1 /\
    exists before, evs2 = before ++ [virtmemRemoveReservation_ev R].
Proof.
  intros (H1 & H2 & H3 & H4 & H5 & H6 & H7 & H8 & H9 & H10) Hun.
  exact (teardown_undoes_construction K bs fuel ro sz w
           H1 H2 H3 H4 H5 H6 H7 H8 H9 H10 Hun).
Qed.

Lemma demo_construction_granted :
  construction_granted Demo.K_periodic Demo.two_blocks 2
    (Demo.code_base + 0x10) 0x2ff0 initial_world.
Proof.
  assert (Hc : chained Demo.two_blocks).
  { apply two_blocks_chained; [discriminate | reflexivity]. }
  unfold construction_granted. cbv zeta.
  split; [discriminate|]. split; [discriminate|].
  split; [right; reflexivity|]. split; [exact Hc|].
  split; [exact (demo_answers _ _ Hc)|]. split; [reflexivity|].
  split.
  { split.
    - exists {| addr := Demo.code_base; size := 0x2000 |}.
      split; [left; reflexivity|]. vm_compute. split; [discriminate | reflexivity].
    - exists {| addr := Demo.code_base + 0x2000; size := 0x1000 |}.
      split; [right; left; reflexivity|]. vm_compute. discriminate. }
  split; [apply le_n|]. split; [reflexivity|].
  intros w0 evs _ _ k Hk. cbn [k_load Demo.K_periodic with_load].
  change (wrap64 _) with (Demo.code_base + 0x10 + 0x70F7FFC * 0x1000).
  replace (Demo.code_base + 0x10 + 0x70F7FFC * 0x1000 + k)
    with (Demo.code_base + 0x10 + k + 0x70F7FFC * 0x1000) by lia.
  rewrite Z.mod_add by lia. reflexivity.
Qed.

Lemma RwPages_ctor_maps_each_block_witness :
  exists evs w1 p,
    RwPages_ctor Demo.K_periodic 2 (Demo.code_base + 0x10) 0x2ff0 initial_world
      = Ret p w1 /\
    maps_of evs = [(0x7100000000, Demo.code_base, 0x2000);
                   (0x7100002000, Demo.code_base + 0x2000, 0x1000)].
Proof.
  destruct (RwPages_ctor_maps_each_block _ _ _ _ _ _ demo_construction_granted)
    as (evs & w1 & Hrun & _ & Hm & _).
  exists evs, w1. eexists. split; [exact Hrun|]. rewrite Hm. vm_compute. reflexivity.
Defined.

Lemma RwPages_ctor_maps_inside_reservation_witness :
  exists evs w1 p,
    RwPages_ctor Demo.K_periodic 2 (Demo.code_base + 0x10) 0x2ff0 initial_world
      = Ret p w1 /\
    forall dst src l, In (dst, src, l) (maps_of evs) ->
      0x7100000000 <= dst /\ dst + l <= 0x7100000000 + 0x3000.
Proof.
  destruct (RwPages_ctor_maps_inside_reservation _ _ _ _ _ _ demo_construction_granted)
    as (evs & w1 & p & Hrun & _ & _ & Hin).
  - split; [discriminate | reflexivity].
  - reflexivity.
  - exists evs, w1, p. split; [exact Hrun|].
    intros dst src l H. destruct (Hin dst src l H) as (_ & H1 & H2 & _).
    split; [exact H1 | exact H2].
Defined.

Lemma RwPages_teardown_undoes_construction_witness :
  exists p w1 w2 evs1 evs2,
    RwPages_ctor Demo.K_periodic 2 (Demo.code_base + 0x10) 0x2ff0 initial_world
      = Ret p w1 /\
    trace w1 = trace initial_world ++ evs1 /\
    RwPages_dtor Demo.K_periodic 2 p w1 = Ret tt w2 /\
    trace w2 = trace w1 ++ evs2 /\
    unmaps_of evs2 = maps_of evs1.
Proof.
  destruct (RwPages_teardown_undoes_construction _ _ _ _ _ _ demo_construction_granted)
    as (p & w1 & w2 & evs1 & evs2 & H1 & H2 & H3 & H4 & H5 & _).
  - reflexivity.
  - split; [discriminate | reflexivity].
  - split; [discriminate | reflexivity].
  - reflexivity.
  - exists p, w1, w2, evs1, evs2. repeat split; assumption.
Defined.

(** ** The flush and the walk at the edges *)

Lemma extend_two e1 e2 w : emit e2 (emit e1 w) = extend [e1; e2] w.
Proof.
  unfold emit, extend. cbn [s_Handle s_SocType trace].
  rewrite <- app_assoc. reflexivity.
Qed.

(** X14: [Flush] returns after two calls, a data-cache flush and an
    instruction-cache invalidation of the same page-aligned range; when the
    mirror and the source have the same offset in their pages and rounding
    the size up stays in the 64-bit range, that range holds every byte of
    the mirror, [m_Rw .. m_Rw + m_Size). *)
Theorem RwPages_Flush_covers_mirror (this : RwPages) (w : world) :
  let c := m_Claim this in
  in_u64 (m_Ro c) -> in_u64 (m_Rw c) -> in_u64 (m_Size c) ->
  m_Rw c mod PAGE_SIZE = m_Ro c mod PAGE_SIZE ->
  m_Size c + m_Ro c mod PAGE_SIZE + (PAGE_SIZE - 1) < 2 ^ 64 ->
  exists a l,
    RwPages_Flush this w =
      Ret tt (extend [armDCacheFlush_ev a l; armICacheInvalidate_ev a l] w) /\
    a mod PAGE_SIZE = 0 /\ l mod PAGE_SIZE = 0 /\
    a <= m_Rw c /\ m_Rw c + m_Size c <= a + l.
Proof.
  intros c Hro Hrw Hsz Hoff Hfit.
  exists (GetAlignedRw c), (GetAlignedSize c).
  split.
  { unfold RwPages_Flush, bind, call. fold c. cbv beta zeta.
    rewrite extend_two. reflexivity. }
  split; [apply ALIGN_DOWN_page_mod|]. split; [apply ALIGN_UP_page_mod|].
  unfold GetAlignedRw, GetAlignedSize, GetAlignedRo.
  pose proof (ALIGN_DOWN_page_bounds (m_Rw c) Hrw) as [Hd _].
  split; [lia|].
  change PAGE_SIZE with 0x1000 in Hoff, Hfit.
  pose proof (Z.mod_pos_bound (m_Ro c) 0x1000 ltac:(lia)) as Hm.
  unfold in_u64 in *.
  assert (Ho : m_Ro c - ALIGN_DOWN (m_Ro c) PAGE_SIZE = m_Ro c mod 0x1000).
  { rewrite ALIGN_DOWN_page, (wrap64_small (m_Ro c)) by lia. lia. }
  rewrite Ho.
  rewrite (wrap64_small (m_Ro c mod 0x1000)) by lia.
  rewrite (wrap64_small (m_Size c + _)) by lia.
  pose proof (ALIGN_UP_page_bounds (m_Size c + m_Ro c mod 0x1000)
                ltac:(lia) ltac:(lia)) as Hu.
  rewrite (ALIGN_DOWN_page (m_Rw c)), (wrap64_small (m_Rw c)) by lia.
  lia.
Qed.

Lemma RwPages_Flush_covers_mirror_witness :
  exists a l,
    RwPages_Flush
      {| m_Claim := {| m_Ro := Demo.code_base + 0x10; m_Rw := 0x7100000010;
                       m_RwReserve := 0x7100000008; m_Size := 0x2ff0 |};
         m_Owner := true |} initial_world =
      Ret tt (extend [armDCacheFlush_ev a l; armICacheInvalidate_ev a l] initial_world) /\
    a <= 0x7100000010 /\ 0x7100000010 + 0x2ff0 <= a + l.
Proof.
  destruct (RwPages_Flush_covers_mirror
              {| m_Claim := {| m_Ro := Demo.code_base + 0x10; m_Rw := 0x7100000010;
                               m_RwReserve := 0x7100000008; m_Size := 0x2ff0 |};
                 m_Owner := true |} initial_world)
    as (a & l & Hrun & _ & _ & Ha & Hl);
    try (split; [discriminate | reflexivity]); try reflexivity.
  exists a, l. split; [exact Hrun | split; [exact Ha | exact Hl]].
Defined.

(** X15: a range that ends exactly at the top of the 64-bit address space:
    [end] wraps to zero, so the walk stops after its first round whatever
    the size of the block it has met, and the one invocation of the callback
    is handed the whole length of the range. *)
Theorem ForEachMemRange_to_top_of_memory (K : kernel) (fuel : nat)
    (start_address length : Z) (w : world) :
  0 < start_address < 2 ^ 64 -> start_address + length = 2 ^ 64 ->
  let r := k_svcQueryMemory K w start_address in
  fst r = 0 -> addr (snd r) <= start_address ->
  ForEachMemRange K (S fuel) record_call start_address length w =
    Ret tt (extend [svcQueryMemory_ev start_address 0 (snd r);
                    callback_ev start_address length 0] w).
Proof.
  intros Hs Hl r Hok Hb.
  assert (Hend : wrap64 (start_address + length) = 0).
  { rewrite Hl. reflexivity. }
  unfold ForEachMemRange. rewrite Hend.
  cbn [ForEachMemRange_loop addr size].
  replace (start_address + 0) with start_address by lia.
  rewrite (wrap64_small start_address) by lia.
  unfold bind at 1. unfold svcQueryMemory at 1, call at 1. fold r. cbv zeta.
  rewrite Hok. cbn [R_FAILED Z.eqb negb]. unfold bind at 1, ret at 1.
  rewrite Z.max_r by lia.
  replace (start_address - start_address) with 0 by lia.
  change (wrap64 0) with 0.
  replace (start_address + 0) with start_address by lia.
  rewrite (wrap64_small start_address) by lia.
  pose proof (wrap64_range (addr (snd r) + size (snd r))) as Hr.
  rewrite Z.min_l by lia.
  assert (Hlen : wrap64 (0 - start_address) = length).
  { unfold wrap64, wrap.
    replace (0 - start_address) with (length + (-1) * 2 ^ 64) by lia.
    rewrite Z.mod_add by lia. apply Z.mod_small. lia. }
  rewrite Hlen.
  unfold bind at 1. rewrite record_call_run.
  assert (Hstop : (wrap64 (addr (snd r) + size (snd r)) <? 0) = false)
    by (apply Z.ltb_ge; lia).
  rewrite Hstop. unfold ret. rewrite extend_two. reflexivity.
Qed.

Lemma ForEachMemRange_to_top_of_memory_witness :
  ForEachMemRange
    (Demo.kernel_of [ {| addr := 2 ^ 64 - 0x3000; size := 0x1000 |};
                      {| addr := 2 ^ 64 - 0x2000; size := 0x1000 |} ] true)
    2 record_call (2 ^ 64 - 0x3000) 0x3000 initial_world =
  Ret tt (extend [svcQueryMemory_ev (2 ^ 64 - 0x3000) 0
                    {| addr := 2 ^ 64 - 0x3000; size := 0x1000 |};
                  callback_ev (2 ^ 64 - 0x3000) 0x3000 0] initial_world).
Proof.
  apply (ForEachMemRange_to_top_of_memory
           (Demo.kernel_of [ {| addr := 2 ^ 64 - 0x3000; size := 0x1000 |};
                             {| addr := 2 ^ 64 - 0x2000; size := 0x1000 |} ] true)
           1 (2 ^ 64 - 0x3000) 0x3000 initial_world).
  - split; reflexivity.
  - reflexivity.
  - reflexivity.
  - vm_compute. discriminate.
Defined.

Lemma calls_of_emit_query w q rc b :
  calls_of (trace (emit (svcQueryMemory_ev q rc b) w)) = calls_of (trace w).
Proof.
  rewrite trace_emit. unfold calls_of. rewrite flat_map_app. cbn. apply app_nil_r.
Qed.

Lemma calls_of_emit_callback w a l o :
  calls_of (trace (emit (callback_ev a l o) w)) = calls_of (trace w) ++ [(a, l, o)].
Proof.
  rewrite trace_emit. unfold calls_of. rewrite flat_map_app. reflexivity.
Qed.

Lemma loop_without_progress (K : kernel) (start_address end_ : Z) :
  (forall w q,
     fst (k_svcQueryMemory K w q) = 0 /\
     wrap64 (addr (snd (k_svcQueryMemory K w q)) + size (snd (k_svcQueryMemory K w q)))
       < end_) ->
  forall fuel m w, exists w',
    ForEachMemRange_loop K fuel record_call start_address end_ m w = OutOfFuel w' /\
    List.length (calls_of (trace w')) = (List.length (calls_of (trace w)) + fuel)%nat.
Proof.
  intros Hk. induction fuel as [|fuel IH]; intros m w.
  - exists w. split; [reflexivity | apply plus_n_O].
  - cbn [ForEachMemRange_loop]. unfold bind at 1. unfold svcQueryMemory, call at 1.
    cbv zeta.
    destruct (Hk w (wrap64 (addr m + size m))) as [Hok Hlt].
    set (r := k_svcQueryMemory K w (wrap64 (addr m + size m))) in *.
    rewrite Hok. cbn [R_FAILED Z.eqb negb]. unfold bind at 1, ret at 1.
    unfold bind at 1. rewrite record_call_run.
    apply Z.ltb_lt in Hlt. rewrite Hlt.
    match goal with |- context [ForEachMemRange_loop K fuel _ _ _ ?m0 ?w0] =>
      destruct (IH m0 w0) as (w' & Hrun & Hlen) end.
    exists w'. split; [exact Hrun|].
    rewrite Hlen, calls_of_emit_callback, length_app, calls_of_emit_query.
    cbn [List.length]. lia.
Qed.

(** X16: the walk has no bound of its own: with a kernel whose every answer
    is a block that ends below the end of the range, no number of rounds
    brings it to its exit, and every round invokes the callback once more. *)
Theorem ForEachMemRange_without_progress (K : kernel) (start_address length : Z) :
  (forall w q,
     fst (k_svcQueryMemory K w q) = 0 /\
     wrap64 (addr (snd (k_svcQueryMemory K w q)) + size (snd (k_svcQueryMemory K w q)))
       < wrap64 (start_address + length)) ->
  forall (fuel : nat) (w : world), exists w',
    ForEachMemRange K fuel record_call start_address length w = OutOfFuel w' /\
    List.length (calls_of (trace w')) = (List.length (calls_of (trace w)) + fuel)%nat.
Proof.
  intros Hk fuel w. unfold ForEachMemRange. apply loop_without_progress. exact Hk.
Qed.

Lemma ForEachMemRange_without_progress_witness :
  exists w',
    ForEachMemRange Demo.K_stuck 5 record_call Demo.code_base 0x1000 initial_world
      = OutOfFuel w' /\
    List.length (calls_of (trace w')) = 5%nat.
Proof.
  apply (ForEachMemRange_without_progress Demo.K_stuck Demo.code_base 0x1000).
  intros w q. split; reflexivity.
Defined.
